(** * coffee.js: the behaviour layer of the coffee-shop landing page

    A shallow embedding of [src/coffee.js].  The script is a flat set of
    initialisers run once on [DOMContentLoaded]; each one attaches event
    listeners to a static DOM tree.  The only stateful part is the
    testimonial carousel, a closure over five [let] variables.

    The file holds two revisions of the script.  They share the carousel;
    the second computes the slide gap from [getDeviceType] and calls
    [updateSlider] once after the branch in [nextSlide]/[prevSlide].  The
    closure is embedded once, indexed by [Version].

    Conventions.
    - JavaScript numbers that occur here (slide index, pixel widths, touch
      coordinates, timer handles) are integers far below 2^53, so they are
      [Z] (or [nat] for array indices and handles).  [offsetWidth] and
      [innerWidth] are integers by the DOM standard; [clientX] is taken in
      whole CSS pixels.
    - A function of the script is a computation [M A]: it takes the world,
      returns the new world and either a value or a thrown exception.  What
      was written before a [throw] stays written.
    - Timers are kept in a table; the event [TimerFire h] runs the callback
      of handle [h].  Any live timer may fire at any point of a trace: the
      delays are recorded but time itself is not part of the model. *)

From stdpp Require Import base numbers list strings pretty.

Local Open Scope string_scope.
Local Open Scope Z_scope.

(** ** Constants of the script *)

Record Hours := { open : Z; close : Z }.

Record Breakpoints := {
  mobile : Z; mobileLarge : Z; tablet : Z; desktop : Z; large : Z }.

(** [CONFIG] of both revisions: [mobileBreakpoint] exists in the first
    only and [breakpoints] in the second only (an absent property reads as
    [undefined], here [None]).  [fadeInThreshold] is kept as the numerator
    and denominator of the decimal literal. *)
Record Config := {
  scrollDuration : Z;
  testimonialInterval : Z;
  fadeInThreshold : Z * Z;
  mobileBreakpoint : option Z;
  breakpoints : option Breakpoints;
  maxPersons : Z;
  minPersons : Z;
  businessHours : list (string * Hours) }.

(** [VALIDATION]: the two regular expressions, by their source text. *)
Record Validation := { email : string; phone : string }.

Inductive Version := V1 | V2.

Definition week : list (string * Hours) :=
  [ ("monday", {| open := 8; close := 20 |});
    ("tuesday", {| open := 8; close := 20 |});
    ("wednesday", {| open := 8; close := 20 |});
    ("thursday", {| open := 8; close := 20 |});
    ("friday", {| open := 8; close := 20 |});
    ("saturday", {| open := 14; close := 20 |});
    ("sunday", {| open := 14; close := 20 |}) ].

Definition CONFIG_of (ver : Version) : Config :=
  {| scrollDuration := 800;
     testimonialInterval := 5000;
     fadeInThreshold := (1, 10);
     mobileBreakpoint := match ver with V1 => Some 768 | V2 => None end;
     breakpoints :=
       match ver with
       | V1 => None
       | V2 => Some {| mobile := 480; mobileLarge := 767; tablet := 1023;
                       desktop := 1199; large := 1200 |}
       end;
     maxPersons := 10;
     minPersons := 1;
     businessHours := week |}.

Definition VALIDATION_def : Validation :=
  {| email := "^[^\s@]+@[^\s@]+\.[^\s@]+$";
     phone := "^[\+]?[0-9\s\-\(\)]{10,}$" |}.

(** ** The DOM nodes the script touches *)

(** [.testimonials-grid]: only [style.transform] is written. *)
Record SliderEl := { transform : string }.

(** A [.testimonial-dots .dot]: its class list. *)
Record DotEl := { dotClasses : list string }.

(** [#prevBtn] / [#nextBtn]: the [disabled] property. *)
Record ButtonEl := { disabled : bool }.

(** A [.testimonial-item]: its layout width and the two inline style
    properties the second revision writes. *)
Record ItemEl := { offsetWidth : Z; minWidth : string; flex : string }.

(** The results of the five queries at the top of
    [initTestimonialSlider]; [None] is [null], a list is a [NodeList]. *)
Record CarouselDom := {
  slider : option SliderEl;
  dots : list DotEl;
  prevBtn : option ButtonEl;
  nextBtn : option ButtonEl;
  testimonialItems : list ItemEl }.

(** Inline style of an animated section. *)
Record SectionEl := {
  opacity : string; secTransform : string; transition : string }.

Inductive ScrollPos :=
| ScrollOrigin                      (* after window.scrollTo(0, 0) *)
| ScrollInto (selector : string)    (* after scrollIntoView on $(selector) *)
| ScrollElsewhere.

(** An inline style declaration, as its list of properties. *)
Definition Style := list (string * string).

(** [.nav-links], [.hamburger-menu] and [.hero-content] (second revision). *)
Record NavLinksEl := { navClasses : list string; navStyle : Style }.
Record HamburgerEl := {
  hamClassName : string; hamIcon : list string; hamStyle : Style }.
Record HeroEl := { heroStyle : Style }.

(** The rest of the page.
    - [navLinks]: the [href] of each node of [$$('.nav-links a[href^=#]')];
    - [anchors]: the selectors for which [$(selector)] finds an element,
      [badSelectors]: those [querySelector] rejects with a SyntaxError;
    - [sections]: the nodes animated on scroll, [observed]: the indices
      handed to [observer.observe];
    - [buttons]: for each node of [$$('button, .btn')], the ripple spans
      currently appended to it;
    - [hasNav], [navLinksEl], [hamburger], [heroContent]: the results of
      [$('nav')], [$('.nav-links')], [$('.hamburger-menu')] and
      [$('.hero-content')]. *)
Record Page := {
  scroll : ScrollPos;
  navLinks : list string;
  anchors : list string;
  badSelectors : list string;
  sections : list SectionEl;
  observed : list nat;
  buttons : list (list nat);
  nextRipple : nat;
  bodyClasses : list string;
  scrollRestoration : option string;
  hasNav : bool;
  navLinksEl : option NavLinksEl;
  hamburger : option HamburgerEl;
  heroContent : option HeroEl }.

(** ** The browser: timers, listeners, console *)

Inductive Callback :=
| AutoPlayTick          (* the arrow function given to setInterval *)
| StartAutoPlay         (* setTimeout(startAutoPlay, 10000) *)
| SliderResizeLater     (* [later] of debounce(updateSlider, 250) *)
| GlobalResizeLater     (* [later] of the script-level resize debounce *)
| RemoveRipple (ripple : nat)
| FinishLoading.

Inductive TimerKind := Repeating | OneShot.

Record Timer := { kind : TimerKind; delay : Z; callback : Callback }.

Inductive Listener :=
| OnDOMContentLoaded | OnGlobalResize | OnVisibilityChange
| OnNavLinkClick (i : nat) | OnButtonClick (i : nat)
| OnPrevClick | OnNextClick | OnDotClick (index : nat)
| OnMouseEnter | OnMouseLeave
| OnTouchStart | OnTouchMove | OnTouchEnd
| OnSliderResize
| OnBeforeUnload | OnLoad
| OnHamburgerClick.

Global Instance Listener_eq_dec : EqDecision Listener.
Proof. solve_decision. Defined.

Inductive JsError :=
| TypeError (message : string)
| ReferenceError (message : string)
| SyntaxError (message : string)
| OtherError (message : string).

Inductive ConsoleEntry :=
| ConsoleLog (message : string)
| ConsoleError (message : string) (error : JsError)
| Uncaught (error : JsError).

Record Browser := {
  innerWidth : Z;
  hasIntersectionObserver : bool;
  timers : list (nat * Timer);
  nextHandle : nat;
  listeners : list Listener;
  console : list ConsoleEntry }.

(** ** Variables of the closures *)

(** The [let] variables of [initTestimonialSlider]. *)
Record Closure := {
  currentSlide : Z;
  isPlaying : bool;
  autoPlayInterval : option nat;
  startX : Z;
  isDragging : bool }.

(** The [timeout] variable of each of the two [debounce] closures. *)
Record Debounced := { sliderTimeout : option nat; globalTimeout : option nat }.

Record World := {
  CONFIG : Config;
  VALIDATION : Validation;
  browser : Browser;
  page : Page;
  cdom : CarouselDom;
  closure : Closure;
  debounced : Debounced }.

(** ** Field updates *)

Definition with_browser (f : Browser → Browser) (w : World) : World :=
  {| CONFIG := CONFIG w; VALIDATION := VALIDATION w; browser := f (browser w);
     page := page w; cdom := cdom w; closure := closure w;
     debounced := debounced w |}.

Definition with_page (f : Page → Page) (w : World) : World :=
  {| CONFIG := CONFIG w; VALIDATION := VALIDATION w; browser := browser w;
     page := f (page w); cdom := cdom w; closure := closure w;
     debounced := debounced w |}.

Definition with_cdom (f : CarouselDom → CarouselDom) (w : World) : World :=
  {| CONFIG := CONFIG w; VALIDATION := VALIDATION w; browser := browser w;
     page := page w; cdom := f (cdom w); closure := closure w;
     debounced := debounced w |}.

Definition with_closure (f : Closure → Closure) (w : World) : World :=
  {| CONFIG := CONFIG w; VALIDATION := VALIDATION w; browser := browser w;
     page := page w; cdom := cdom w; closure := f (closure w);
     debounced := debounced w |}.

Definition with_debounced (f : Debounced → Debounced) (w : World) : World :=
  {| CONFIG := CONFIG w; VALIDATION := VALIDATION w; browser := browser w;
     page := page w; cdom := cdom w; closure := closure w;
     debounced := f (debounced w) |}.

Definition set_currentSlide (v : Z) (c : Closure) : Closure :=
  {| currentSlide := v; isPlaying := isPlaying c;
     autoPlayInterval := autoPlayInterval c; startX := startX c;
     isDragging := isDragging c |}.

Definition set_autoPlayInterval (h : option nat) (c : Closure) : Closure :=
  {| currentSlide := currentSlide c; isPlaying := isPlaying c;
     autoPlayInterval := h; startX := startX c; isDragging := isDragging c |}.

Definition set_startX (x : Z) (c : Closure) : Closure :=
  {| currentSlide := currentSlide c; isPlaying := isPlaying c;
     autoPlayInterval := autoPlayInterval c; startX := x;
     isDragging := isDragging c |}.

Definition set_isDragging (b : bool) (c : Closure) : Closure :=
  {| currentSlide := currentSlide c; isPlaying := isPlaying c;
     autoPlayInterval := autoPlayInterval c; startX := startX c;
     isDragging := b |}.

Definition set_slider (s : option SliderEl) (d : CarouselDom) : CarouselDom :=
  {| slider := s; dots := dots d; prevBtn := prevBtn d; nextBtn := nextBtn d;
     testimonialItems := testimonialItems d |}.

Definition set_dots (ds : list DotEl) (d : CarouselDom) : CarouselDom :=
  {| slider := slider d; dots := ds; prevBtn := prevBtn d;
     nextBtn := nextBtn d; testimonialItems := testimonialItems d |}.

Definition set_prevBtn (b : option ButtonEl) (d : CarouselDom) : CarouselDom :=
  {| slider := slider d; dots := dots d; prevBtn := b; nextBtn := nextBtn d;
     testimonialItems := testimonialItems d |}.

Definition set_nextBtn (b : option ButtonEl) (d : CarouselDom) : CarouselDom :=
  {| slider := slider d; dots := dots d; prevBtn := prevBtn d; nextBtn := b;
     testimonialItems := testimonialItems d |}.

Definition set_items (l : list ItemEl) (d : CarouselDom) : CarouselDom :=
  {| slider := slider d; dots := dots d; prevBtn := prevBtn d;
     nextBtn := nextBtn d; testimonialItems := l |}.

Definition set_innerWidth (v : Z) (b : Browser) : Browser :=
  {| innerWidth := v; hasIntersectionObserver := hasIntersectionObserver b;
     timers := timers b; nextHandle := nextHandle b;
     listeners := listeners b; console := console b |}.

Definition set_timers (t : list (nat * Timer)) (n : nat) (b : Browser) : Browser :=
  {| innerWidth := innerWidth b;
     hasIntersectionObserver := hasIntersectionObserver b;
     timers := t; nextHandle := n;
     listeners := listeners b; console := console b |}.

Definition add_listener (l : Listener) (b : Browser) : Browser :=
  {| innerWidth := innerWidth b;
     hasIntersectionObserver := hasIntersectionObserver b;
     timers := timers b; nextHandle := nextHandle b;
     listeners := listeners b ++ [l]; console := console b |}.

Definition add_console (e : ConsoleEntry) (b : Browser) : Browser :=
  {| innerWidth := innerWidth b;
     hasIntersectionObserver := hasIntersectionObserver b;
     timers := timers b; nextHandle := nextHandle b;
     listeners := listeners b; console := console b ++ [e] |}.

(** ** Computations *)

Inductive Completion (A : Type) :=
| Normal (a : A)
| Throw (e : JsError).
Arguments Normal {A} a.
Arguments Throw {A} e.

Definition M (A : Type) : Type := World → World * Completion A.

Global Instance M_ret : MRet M := λ A a w, (w, Normal a).

Global Instance M_bind : MBind M := λ A B k m w,
  match m w with
  | (w', Normal a) => k a w'
  | (w', Throw e) => (w', Throw e)
  end.

Definition throw {A} (e : JsError) : M A := λ w, (w, Throw e).

(** [try { body } catch (error) { handler(error) }] *)
Definition tryCatch {A} (body : M A) (handler : JsError → M A) : M A := λ w,
  match body w with
  | (w', Normal a) => (w', Normal a)
  | (w', Throw e) => handler e w'
  end.

Definition get {A} (f : World → A) : M A := λ w, (w, Normal (f w)).
Definition modify (f : World → World) : M unit := λ w, (f w, Normal tt).

(** [list.forEach((x, index) => body)] *)
Fixpoint forEach_from {A} (i : nat) (body : A → nat → M unit) (l : list A) : M unit :=
  match l with
  | [] => mret tt
  | x :: l' => body x i;; forEach_from (S i) body l'
  end.

Definition forEach {A} (l : list A) (body : A → nat → M unit) : M unit :=
  forEach_from 0 body l.

Definition result {A} (r : World * Completion A) : Completion A := r.2.
Definition after {A} (r : World * Completion A) : World := r.1.

Definition returns {A} (r : World * Completion A) : Prop :=
  ∃ a, r.2 = Normal a.

(** ** Browser primitives *)

Definition console_log (msg : string) : M unit :=
  modify (with_browser (add_console (ConsoleLog msg))).

Definition console_error (msg : string) (e : JsError) : M unit :=
  modify (with_browser (add_console (ConsoleError msg e))).

Definition addEventListener (l : Listener) : M unit :=
  modify (with_browser (add_listener l)).

(** setInterval / setTimeout: a fresh handle from the shared pool. *)
Definition setTimer (k : TimerKind) (cb : Callback) (ms : Z) : M nat := λ w,
  let h := nextHandle (browser w) in
  (with_browser
     (set_timers (timers (browser w) ++ [(h, {| kind := k; delay := ms; callback := cb |})])
                 (S h)) w,
   Normal h).

Definition setInterval := setTimer Repeating.
Definition setTimeout := setTimer OneShot.

(** clearInterval / clearTimeout: both take either kind of handle;
    [undefined] and unknown handles are ignored. *)
Definition clearTimer (h : option nat) : M unit :=
  match h with
  | None => mret tt
  | Some h =>
      modify (λ w, with_browser
        (set_timers (filter (λ t, t.1 ≠ h) (timers (browser w)))
                    (nextHandle (browser w))) w)
  end.

Definition clearInterval := clearTimer.
Definition clearTimeout := clearTimer.

(** [classList.toggle(token, force)] *)
Definition classList_toggle (token : string) (force : bool) (cl : list string) : list string :=
  if force
  then (if bool_decide (token ∈ cl) then cl else cl ++ [token])
  else filter (λ c, c ≠ token) cl.

Definition classList_add (token : string) (cl : list string) : list string :=
  classList_toggle token true cl.

Definition classList_remove (token : string) (cl : list string) : list string :=
  classList_toggle token false cl.

Definition classList_contains (token : string) (cl : list string) : bool :=
  bool_decide (token ∈ cl).

(** Two utilities the first revision defines and never calls. *)
Definition addEventListenerSafe {A} (element : option A) (l : Listener) : M unit :=
  match element with
  | Some _ => addEventListener l
  | None => mret tt
  end.

Definition formatTime (hours : Z) : string :=
  if hours =? 0 then "12:00 AM"
  else if hours <? 12 then pretty hours +:+ ":00 AM"
  else if hours =? 12 then "12:00 PM"
  else pretty (hours - 12) +:+ ":00 PM".

(** ** The carousel closure ([initTestimonialSlider]) *)

Definition null_write (prop : string) : JsError :=
  TypeError ("Cannot set properties of null (setting '" +:+ prop +:+ "')").

Definition null_read (prop : string) : JsError :=
  TypeError ("Cannot read properties of null (reading '" +:+ prop +:+ "')").

Definition undefined_read (prop : string) : JsError :=
  TypeError ("Cannot read properties of undefined (reading '" +:+ prop +:+ "')").

(** [CONFIG.breakpoints.<field>] *)
Definition read_breakpoint (field : Breakpoints → Z) (name : string) : M Z :=
  c ← get CONFIG;
  match breakpoints c with
  | None => throw (undefined_read name)
  | Some bp => mret (field bp)
  end.

(** Second revision only. *)
Definition getDeviceType : M string :=
  width ← get (λ w, innerWidth (browser w));
  m ← read_breakpoint mobile "mobile";
  if width <=? m then mret "mobile" else
  ml ← read_breakpoint mobileLarge "mobileLarge";
  if width <=? ml then mret "mobile-large" else
  t ← read_breakpoint tablet "tablet";
  if width <=? t then mret "tablet" else
  d ← read_breakpoint desktop "desktop";
  if width <=? d then mret "desktop" else
  mret "large".

Section Carousel.

Variable ver : Version.

Definition getSlideWidth : M Z :=
  items ← get (λ w, testimonialItems (cdom w));
  match items !! 0%nat with
  | None => mret 390
  | Some item =>
      match ver with
      | V1 =>
          let itemWidth := offsetWidth item in
          width ← get (λ w, innerWidth (browser w));
          let gap := if width <=? 768 then 20 else 40 in
          mret (itemWidth + gap)
      | V2 =>
          deviceType ← getDeviceType;
          let itemWidth := offsetWidth item in
          let gap :=
            if String.eqb deviceType "mobile" then 15
            else if String.eqb deviceType "mobile-large" then 20
            else if String.eqb deviceType "tablet" then 30
            else 40 in
          mret (itemWidth + gap)
      end
  end.

Definition startAutoPlay : M unit :=
  ms ← get (λ w, testimonialInterval (CONFIG w));
  h ← setInterval AutoPlayTick ms;
  modify (with_closure (set_autoPlayInterval (Some h))).

Definition stopAutoPlay : M unit :=
  h ← get (λ w, autoPlayInterval (closure w));
  clearInterval h.

Definition translateX_css (px : Z) : string :=
  "translateX(" +:+ pretty px +:+ "px)".

Definition updateSlider : M unit :=
  slideWidth ← getSlideWidth;
  cur ← get (λ w, currentSlide (closure w));
  let translateX := (- cur) * slideWidth in
  s ← get (λ w, slider (cdom w));
  match s with
  | None => throw (null_read "style")
  | Some _ =>
      modify (with_cdom (set_slider (Some {| transform := translateX_css translateX |})))
  end;;
  modify (with_cdom (λ d,
    set_dots (imap (λ index dot,
                {| dotClasses :=
                     classList_toggle "active" (Z.of_nat index =? cur) (dotClasses dot) |})
                (dots d)) d));;
  p ← get (λ w, prevBtn (cdom w));
  match p with
  | None => throw (null_write "disabled")
  | Some _ => modify (with_cdom (set_prevBtn (Some {| disabled := cur =? 0 |})))
  end;;
  n ← get (λ w, nextBtn (cdom w));
  len ← get (λ w, Z.of_nat (length (testimonialItems (cdom w))));
  match n with
  | None => throw (null_write "disabled")
  | Some _ => modify (with_cdom (set_nextBtn (Some {| disabled := cur =? len - 1 |})))
  end.

Definition nextSlide : M unit :=
  cur ← get (λ w, currentSlide (closure w));
  len ← get (λ w, Z.of_nat (length (testimonialItems (cdom w))));
  match ver with
  | V1 =>
      if cur <? len - 1 then
        modify (with_closure (set_currentSlide (cur + 1)));;
        updateSlider
      else
        modify (with_closure (set_currentSlide 0));;
        updateSlider
  | V2 =>
      (if cur <? len - 1 then modify (with_closure (set_currentSlide (cur + 1)))
       else modify (with_closure (set_currentSlide 0)));;
      updateSlider
  end.

Definition prevSlide : M unit :=
  cur ← get (λ w, currentSlide (closure w));
  len ← get (λ w, Z.of_nat (length (testimonialItems (cdom w))));
  match ver with
  | V1 =>
      if cur >? 0 then
        modify (with_closure (set_currentSlide (cur - 1)));;
        updateSlider
      else
        modify (with_closure (set_currentSlide (len - 1)));;
        updateSlider
  | V2 =>
      (if cur >? 0 then modify (with_closure (set_currentSlide (cur - 1)))
       else modify (with_closure (set_currentSlide (len - 1))));;
      updateSlider
  end.

Definition goToSlide (slideIndex : Z) : M unit :=
  modify (with_closure (set_currentSlide slideIndex));;
  updateSlider.

(** *** The listeners, in the order they are attached *)

Definition resumeLater : M unit :=
  _ ← setTimeout StartAutoPlay 10000; mret tt.

Definition onPrevClick : M unit :=
  prevSlide;; stopAutoPlay;; resumeLater.

Definition onNextClick : M unit :=
  nextSlide;; stopAutoPlay;; resumeLater.

Definition onDotClick (index : nat) : M unit :=
  goToSlide (Z.of_nat index);; stopAutoPlay;; resumeLater.

Definition onMouseEnter : M unit :=
  playing ← get (λ w, isPlaying (closure w));
  if (playing : bool) then stopAutoPlay else mret tt.

Definition onMouseLeave : M unit :=
  playing ← get (λ w, isPlaying (closure w));
  if (playing : bool) then startAutoPlay else mret tt.

(** [clientX] is that of [e.touches[0]], resp. [e.changedTouches[0]]: a
    touch event always carries the touch that caused it. *)
Definition onTouchStart (clientX : Z) : M unit :=
  modify (with_closure (set_startX clientX));;
  modify (with_closure (set_isDragging true));;
  stopAutoPlay.

(** [e.preventDefault()] leaves the world as it is. *)
Definition onTouchMove : M unit :=
  dragging ← get (λ w, isDragging (closure w));
  if negb (dragging : bool) then mret tt else mret tt.

Definition onTouchEnd (clientX : Z) : M unit :=
  dragging ← get (λ w, isDragging (closure w));
  if negb (dragging : bool) then mret tt else
  let endX := clientX in
  sx ← get (λ w, startX (closure w));
  let diffX := sx - endX in
  (if Z.abs diffX >? 50 then
     if diffX >? 0 then nextSlide else prevSlide
   else mret tt);;
  modify (with_closure (set_isDragging false));;
  playing ← get (λ w, isPlaying (closure w));
  if (playing : bool) then resumeLater else mret tt.

(** [executedFunction] of [debounce(() => updateSlider(), 250)] *)
Definition onSliderResize : M unit :=
  t ← get (λ w, sliderTimeout (debounced w));
  clearTimeout t;;
  h ← setTimeout SliderResizeLater 250;
  modify (with_debounced (λ d,
    {| sliderTimeout := Some h; globalTimeout := globalTimeout d |})).

(** [later] of the same closure *)
Definition sliderResizeLater : M unit :=
  t ← get (λ w, sliderTimeout (debounced w));
  clearTimeout t;;
  updateSlider.

Definition autoPlayTick : M unit :=
  playing ← get (λ w, isPlaying (closure w));
  if (playing : bool) then nextSlide else mret tt.

Definition initTestimonialSlider : M unit :=
  match ver with
  | V1 => console_log "💬 Initializing testimonial slider..."
  | V2 => mret tt
  end;;
  d ← get cdom;
  if bool_decide (slider d = None) || bool_decide (length (dots d) = 0%nat)
  then mret tt else
  modify (with_closure (λ c,
    {| currentSlide := 0; isPlaying := true; autoPlayInterval := None;
       startX := startX c; isDragging := isDragging c |}));;
  match prevBtn d with
  | None => throw (null_read "addEventListener")
  | Some _ => addEventListener OnPrevClick
  end;;
  match nextBtn d with
  | None => throw (null_read "addEventListener")
  | Some _ => addEventListener OnNextClick
  end;;
  forEach (dots d) (λ _ index, addEventListener (OnDotClick index));;
  addEventListener OnMouseEnter;;
  addEventListener OnMouseLeave;;
  modify (with_closure (set_startX 0));;
  modify (with_closure (set_isDragging false));;
  addEventListener OnTouchStart;;
  addEventListener OnTouchMove;;
  addEventListener OnTouchEnd;;
  modify (with_debounced (λ b,
    {| sliderTimeout := None; globalTimeout := globalTimeout b |}));;
  addEventListener OnSliderResize;;
  updateSlider;;
  startAutoPlay;;
  match ver with
  | V1 => console_log "✅ Testimonial slider initialized"
  | V2 => mret tt
  end.

End Carousel.

(** ** The other initialisers *)

Definition set_scroll (v : ScrollPos) (p : Page) : Page :=
  {| scroll := v; navLinks := navLinks p; anchors := anchors p;
     badSelectors := badSelectors p; sections := sections p;
     observed := observed p; buttons := buttons p; nextRipple := nextRipple p;
     bodyClasses := bodyClasses p; scrollRestoration := scrollRestoration p;
     hasNav := hasNav p; navLinksEl := navLinksEl p; hamburger := hamburger p;
     heroContent := heroContent p |}.

Definition set_sections (v : list SectionEl) (p : Page) : Page :=
  {| scroll := scroll p; navLinks := navLinks p; anchors := anchors p;
     badSelectors := badSelectors p; sections := v;
     observed := observed p; buttons := buttons p; nextRipple := nextRipple p;
     bodyClasses := bodyClasses p; scrollRestoration := scrollRestoration p;
     hasNav := hasNav p; navLinksEl := navLinksEl p; hamburger := hamburger p;
     heroContent := heroContent p |}.

Definition set_observed (v : list nat) (p : Page) : Page :=
  {| scroll := scroll p; navLinks := navLinks p; anchors := anchors p;
     badSelectors := badSelectors p; sections := sections p;
     observed := v; buttons := buttons p; nextRipple := nextRipple p;
     bodyClasses := bodyClasses p; scrollRestoration := scrollRestoration p;
     hasNav := hasNav p; navLinksEl := navLinksEl p; hamburger := hamburger p;
     heroContent := heroContent p |}.

Definition set_buttons (v : list (list nat)) (n : nat) (p : Page) : Page :=
  {| scroll := scroll p; navLinks := navLinks p; anchors := anchors p;
     badSelectors := badSelectors p; sections := sections p;
     observed := observed p; buttons := v; nextRipple := n;
     bodyClasses := bodyClasses p; scrollRestoration := scrollRestoration p;
     hasNav := hasNav p; navLinksEl := navLinksEl p; hamburger := hamburger p;
     heroContent := heroContent p |}.

Definition set_bodyClasses (v : list string) (p : Page) : Page :=
  {| scroll := scroll p; navLinks := navLinks p; anchors := anchors p;
     badSelectors := badSelectors p; sections := sections p;
     observed := observed p; buttons := buttons p; nextRipple := nextRipple p;
     bodyClasses := v; scrollRestoration := scrollRestoration p;
     hasNav := hasNav p; navLinksEl := navLinksEl p; hamburger := hamburger p;
     heroContent := heroContent p |}.

Definition set_scrollRestoration (v : option string) (p : Page) : Page :=
  {| scroll := scroll p; navLinks := navLinks p; anchors := anchors p;
     badSelectors := badSelectors p; sections := sections p;
     observed := observed p; buttons := buttons p; nextRipple := nextRipple p;
     bodyClasses := bodyClasses p; scrollRestoration := v;
     hasNav := hasNav p; navLinksEl := navLinksEl p; hamburger := hamburger p;
     heroContent := heroContent p |}.

Definition set_navLinksEl (v : option NavLinksEl) (p : Page) : Page :=
  {| scroll := scroll p; navLinks := navLinks p; anchors := anchors p;
     badSelectors := badSelectors p; sections := sections p;
     observed := observed p; buttons := buttons p; nextRipple := nextRipple p;
     bodyClasses := bodyClasses p; scrollRestoration := scrollRestoration p;
     hasNav := hasNav p; navLinksEl := v; hamburger := hamburger p;
     heroContent := heroContent p |}.

Definition set_hamburger (v : option HamburgerEl) (p : Page) : Page :=
  {| scroll := scroll p; navLinks := navLinks p; anchors := anchors p;
     badSelectors := badSelectors p; sections := sections p;
     observed := observed p; buttons := buttons p; nextRipple := nextRipple p;
     bodyClasses := bodyClasses p; scrollRestoration := scrollRestoration p;
     hasNav := hasNav p; navLinksEl := navLinksEl p; hamburger := v;
     heroContent := heroContent p |}.

Definition set_heroContent (v : option HeroEl) (p : Page) : Page :=
  {| scroll := scroll p; navLinks := navLinks p; anchors := anchors p;
     badSelectors := badSelectors p; sections := sections p;
     observed := observed p; buttons := buttons p; nextRipple := nextRipple p;
     bodyClasses := bodyClasses p; scrollRestoration := scrollRestoration p;
     hasNav := hasNav p; navLinksEl := navLinksEl p; hamburger := hamburger p;
     heroContent := v |}.

(** [element.style.<prop> = value] *)
Fixpoint style_set (prop value : string) (st : Style) : Style :=
  match st with
  | [] => [(prop, value)]
  | (p, v) :: st' =>
      if String.eqb p prop then (prop, value) :: st'
      else (p, v) :: style_set prop value st'
  end.

(** [window.scrollTo(0, 0)] *)
Definition scrollToOrigin : M unit :=
  modify (with_page (set_scroll ScrollOrigin)).

(** [$(selector)], where only the presence of the element matters. *)
Definition query (selector : string) : M bool :=
  p ← get page;
  if bool_decide (selector ∈ badSelectors p)
  then throw (SyntaxError ("'" +:+ selector +:+ "' is not a valid selector"))
  else mret (bool_decide (selector ∈ anchors p)).

(** Second revision. *)
Definition isMobile : M bool :=
  width ← get (λ w, innerWidth (browser w));
  ml ← read_breakpoint mobileLarge "mobileLarge";
  mret (width <=? ml).

Definition hamburgerCss : Style :=
  [ ("display", "none"); ("background", "none"); ("border", "none");
    ("color", "white"); ("font-size", "24px"); ("cursor", "pointer");
    ("padding", "10px") ].

Definition navLinksCss : Style :=
  [ ("position", "absolute"); ("top", "100%"); ("left", "0"); ("right", "0");
    ("background", "rgba(0, 0, 0, 0.9)"); ("flex-direction", "column");
    ("padding", "20px"); ("transform", "translateY(-100%)"); ("opacity", "0");
    ("visibility", "hidden"); ("transition", "all 0.3s ease") ].

Section Initialisers.

Variable ver : Version.

Definition log_v1 (msg : string) : M unit :=
  match ver with V1 => console_log msg | V2 => mret tt end.

(** *** Smooth scrolling *)

Definition initSmoothScrolling : M unit :=
  log_v1 "📍 Initializing smooth scrolling...";;
  links ← get (λ w, navLinks (page w));
  forEach links (λ _ i, addEventListener (OnNavLinkClick i)).

Definition onNavLinkClick (i : nat) : M unit :=
  links ← get (λ w, navLinks (page w));
  match links !! i with
  | None => mret tt
  | Some targetId =>
      targetSection ← query targetId;
      if (targetSection : bool)
      then modify (with_page (set_scroll (ScrollInto targetId)))
      else mret tt
  end.

(** *** Scroll animations *)

Definition initScrollAnimations : M unit :=
  log_v1 "✨ Initializing scroll animations...";;
  supported ← get (λ w, hasIntersectionObserver (browser w));
  (if (supported : bool) then mret tt
   else throw (ReferenceError "IntersectionObserver is not defined"));;
  secs ← get (λ w, sections (page w));
  forEach secs (λ _ i,
    modify (with_page (λ p,
      set_sections (alter (λ _, {| opacity := "0";
                                   secTransform := "translateY(30px)";
                                   transition := "all 0.8s ease-out" |}) i
                          (sections p)) p));;
    modify (with_page (λ p, set_observed (observed p ++ [i]) p))).

(** The observer callback, on the entries (target, isIntersecting). *)
Definition onIntersection (entries : list (nat * bool)) : M unit :=
  forEach entries (λ entry _,
    if entry.2 then
      modify (with_page (λ p,
        set_sections (alter (λ s, {| opacity := "1";
                                     secTransform := "translateY(0)";
                                     transition := transition s |}) entry.1
                            (sections p)) p))
    else mret tt).

(** *** Ripple on buttons

    The size and position of the ripple are computed from the layout
    rectangle in floating point and written to the new span only; the
    span is kept by an identifier. *)

Definition initHoverAnimations : M unit :=
  log_v1 "🎯 Initializing hover animations...";;
  bs ← get (λ w, buttons (page w));
  forEach bs (λ _ i, addEventListener (OnButtonClick i)).

Definition onButtonClick (i : nat) : M unit :=
  ripple ← get (λ w, nextRipple (page w));
  modify (with_page (λ p,
    set_buttons (alter (λ children, (children ++ [ripple])%list) i (buttons p))
                (S ripple) p));;
  _ ← setTimeout (RemoveRipple ripple) 600;
  mret tt.

Definition removeRipple (ripple : nat) : M unit :=
  modify (with_page (λ p,
    set_buttons (map (filter (λ r, r ≠ ripple)) (buttons p)) (nextRipple p) p)).

(** *** Loading screen *)

Definition initLoadingAnimation : M unit :=
  log_v1 "⏳ Initializing loading animations...";;
  modify (with_page (λ p, set_bodyClasses (classList_add "loading" (bodyClasses p)) p));;
  addEventListener OnBeforeUnload;;
  addEventListener OnLoad;;
  sr ← get (λ w, scrollRestoration (page w));
  match sr with
  | Some (String _ _) => modify (with_page (set_scrollRestoration (Some "manual")))
  | _ => mret tt
  end.

Definition onBeforeUnload : M unit := scrollToOrigin.

Definition onLoad : M unit :=
  scrollToOrigin;;
  _ ← setTimeout FinishLoading 500;
  mret tt.

Definition finishLoading : M unit :=
  modify (with_page (λ p, set_bodyClasses (classList_remove "loading" (bodyClasses p)) p));;
  modify (with_page (λ p, set_bodyClasses (classList_add "loaded" (bodyClasses p)) p)).

(** *** Mobile menu and responsive layout *)

Definition onHamburgerClick : M unit :=
  n ← get (λ w, navLinksEl (page w));
  match n with
  | None => throw (null_read "classList")
  | Some el =>
      let cl := navClasses el in
      modify (with_page (set_navLinksEl (Some
        {| navClasses :=
             classList_toggle "mobile-active"
               (negb (classList_contains "mobile-active" cl)) cl;
           navStyle := navStyle el |})))
  end.

Definition initMobileMenu : M unit :=
  match ver with
  | V1 => console_log "📱 Mobile menu ready for implementation"
  | V2 =>
      nav ← get (λ w, hasNav (page w));
      navLinksNode ← get (λ w, navLinksEl (page w));
      mobileNow ← isMobile;
      if (mobileNow : bool) then
        found ← get (λ w, hamburger (page w));
        match found with
        | Some _ => mret tt
        | None =>
            let created := {| hamClassName := "hamburger-menu";
                              hamIcon := ["fas"; "fa-bars"];
                              hamStyle := hamburgerCss |} in
            (if (nav : bool)
             then modify (with_page (set_hamburger (Some created)))
             else throw (null_read "appendChild"));;
            addEventListener OnHamburgerClick
        end;;
        width ← get (λ w, innerWidth (browser w));
        m ← read_breakpoint mobile "mobile";
        if width <=? m then
          modify (with_page (λ p,
            set_hamburger
              ((λ h, {| hamClassName := hamClassName h; hamIcon := hamIcon h;
                        hamStyle := style_set "display" "block" (hamStyle h) |})
                 <$> hamburger p) p));;
          match navLinksNode with
          | None => throw (null_read "style")
          | Some _ =>
              modify (with_page (λ p,
                set_navLinksEl
                  ((λ el, {| navClasses := navClasses el; navStyle := navLinksCss |})
                     <$> navLinksEl p) p))
          end
        else mret tt
      else mret tt
  end.

Definition itemSize (deviceType : string) : string :=
  if String.eqb deviceType "mobile" then "260px"
  else if String.eqb deviceType "mobile-large" then "280px"
  else if String.eqb deviceType "tablet" then "320px"
  else "350px".

(** Second revision only. *)
Definition handleResponsiveLayout : M unit :=
  deviceType ← getDeviceType;
  modify (with_cdom (λ d,
    set_items (map (λ item,
                 {| offsetWidth := offsetWidth item;
                    minWidth := itemSize deviceType;
                    flex := "0 0 " +:+ itemSize deviceType |})
                 (testimonialItems d)) d));;
  hero ← get (λ w, heroContent (page w));
  match hero with
  | None => mret tt
  | Some h =>
      mobileNow ← isMobile;
      if (mobileNow : bool) then
        modify (with_page (set_heroContent (Some
          {| heroStyle := style_set "padding" "0 20px" (heroStyle h) |})))
      else mret tt
  end.

(** *** Placeholders *)

Definition initFormValidation : M unit :=
  console_log (match ver with
               | V1 => "📝 Form validation ready for implementation"
               | V2 => "📝 Form validation ready" end).

Definition initBackToTop : M unit :=
  console_log (match ver with
               | V1 => "⬆️ Back to top ready for implementation"
               | V2 => "⬆️ Back to top ready" end).

Definition initBusinessHours : M unit :=
  console_log (match ver with
               | V1 => "🕒 Business hours ready for implementation"
               | V2 => "🕒 Business hours ready" end).

Definition initNewsletterSignup : M unit :=
  console_log (match ver with
               | V1 => "📧 Newsletter signup ready for implementation"
               | V2 => "📧 Newsletter signup ready" end).

End Initialisers.

(** ** [initCoffeeWebsite] *)

Section TryCatch.

Variable ver : Version.

(** The body of [initCoffeeWebsite] over arbitrary initialisers: the first
    revision calls ten of them, the second seven. *)
Variables smoothScrolling scrollAnimations hoverAnimations testimonialSlider
          loadingAnimation mobileMenu formValidation backToTop
          businessHoursInit newsletterSignup responsiveLayout : M unit.

Definition initialisers : M unit :=
  match ver with
  | V1 =>
      smoothScrolling;; scrollAnimations;; hoverAnimations;;
      testimonialSlider;; loadingAnimation;; mobileMenu;; formValidation;;
      backToTop;; businessHoursInit;; newsletterSignup
  | V2 =>
      smoothScrolling;; scrollAnimations;; hoverAnimations;;
      testimonialSlider;; loadingAnimation;; mobileMenu;; responsiveLayout
  end.

Definition initCoffeeWebsite_with : M unit :=
  console_log "🚀 Initializing Coffee Website...";;
  tryCatch
    (initialisers;;
     console_log "✅ Coffee Website initialized successfully!")
    (λ error, console_error "❌ Error initializing Coffee Website:" error).

End TryCatch.

Definition initCoffeeWebsite (ver : Version) : M unit :=
  initCoffeeWebsite_with ver
    (initSmoothScrolling ver) (initScrollAnimations ver)
    (initHoverAnimations ver) (initTestimonialSlider ver)
    (initLoadingAnimation ver) (initMobileMenu ver)
    (initFormValidation ver) (initBackToTop ver) (initBusinessHours ver)
    (initNewsletterSignup ver) handleResponsiveLayout.

(** ** The script's top level and the event loop *)

Inductive Event :=
| DOMContentLoaded
| NavLinkClick (i : nat)
| Intersection (entries : list (nat * bool))
| ButtonClick (i : nat)
| HamburgerClick
| ClickPrev | ClickNext | ClickDot (index : nat)
| MouseEnter | MouseLeave
| TouchStart (clientX : Z) | TouchMove | TouchEnd (clientX : Z)
| WindowResize (width : Z) (newWidth : nat → Z)
| BeforeUnload | WindowLoad
| VisibilityChange (hidden : bool)
| TimerFire (handle : nat).

Fixpoint find_timer (h : nat) (ts : list (nat * Timer)) : option Timer :=
  match ts with
  | [] => None
  | (h', t) :: ts' => if bool_decide (h' = h) then Some t else find_timer h ts'
  end.

Definition remove_listener (l : Listener) (b : Browser) : Browser :=
  {| innerWidth := innerWidth b;
     hasIntersectionObserver := hasIntersectionObserver b;
     timers := timers b; nextHandle := nextHandle b;
     listeners := filter (λ l', l' ≠ l) (listeners b); console := console b |}.

(** Runs [body] when the listener has been attached. *)
Definition listening (l : Listener) (body : M unit) : M unit :=
  ls ← get (λ w, listeners (browser w));
  if bool_decide (l ∈ ls) then body else mret tt.

(** [#prevBtn] and [#nextBtn] are buttons, whose [disabled] property
    [updateSlider] writes: the browser sends the click of a user to a
    button only while it is enabled. *)
Definition enabled (b : option ButtonEl) : bool :=
  match b with
  | Some el => negb (disabled el)
  | None => false
  end.

(** Runs [body] when the button is enabled and the listener attached. *)
Definition clicking (button : CarouselDom → option ButtonEl) (l : Listener)
    (body : M unit) : M unit :=
  d ← get cdom;
  if enabled (button d) then listening l body else mret tt.

(** The browser lays the page out again: a new viewport width and new
    widths of the testimonial items. *)
Definition relayout (width : Z) (newWidth : nat → Z) : M unit :=
  modify (with_browser (set_innerWidth width));;
  modify (with_cdom (λ d,
    set_items (imap (λ k item,
                 {| offsetWidth := newWidth k; minWidth := minWidth item;
                    flex := flex item |})
                 (testimonialItems d)) d)).

Section Website.

Variable ver : Version.

(** [executedFunction] and [later] of the script-level resize debounce. *)
Definition onGlobalResize : M unit :=
  t ← get (λ w, globalTimeout (debounced w));
  clearTimeout t;;
  h ← setTimeout GlobalResizeLater 250;
  modify (with_debounced (λ d,
    {| sliderTimeout := sliderTimeout d; globalTimeout := Some h |})).

Definition globalResizeLater : M unit :=
  t ← get (λ w, globalTimeout (debounced w));
  clearTimeout t;;
  match ver with
  | V1 => console_log "📱 Window resized, adjusting layout..."
  | V2 =>
      handleResponsiveLayout;;
      currentDevice ← getDeviceType;
      if String.eqb currentDevice "mobile" || String.eqb currentDevice "mobile-large"
      then initMobileMenu ver
      else mret tt
  end.

Definition onVisibilityChange (hidden : bool) : M unit :=
  if hidden then console_log "👁️ Page hidden - pausing animations"
  else console_log "👁️ Page visible - resuming animations".

Definition onDOMContentLoaded : M unit :=
  scrollToOrigin;;
  initCoffeeWebsite ver.

(** The statements at the top level of the script, after the constants. *)
Definition script : M unit :=
  scrollToOrigin;;
  addEventListener OnDOMContentLoaded;;
  modify (with_debounced (λ d,
    {| sliderTimeout := sliderTimeout d; globalTimeout := None |}));;
  addEventListener OnGlobalResize;;
  addEventListener OnVisibilityChange;;
  console_log (match ver with
               | V1 => "📄 Coffee Website JavaScript loaded - waiting for DOM..."
               | V2 => "📄 Coffee Website JavaScript loaded" end).

Definition runCallback (cb : Callback) : M unit :=
  match cb with
  | AutoPlayTick => autoPlayTick ver
  | StartAutoPlay => startAutoPlay
  | SliderResizeLater => sliderResizeLater ver
  | GlobalResizeLater => globalResizeLater
  | RemoveRipple r => removeRipple r
  | FinishLoading => finishLoading
  end.

(** A timer fires: a timeout leaves the table, an interval stays. *)
Definition onTimer (h : nat) : M unit :=
  ts ← get (λ w, timers (browser w));
  match find_timer h ts with
  | None => mret tt
  | Some t =>
      match kind t with
      | OneShot => clearTimer (Some h)
      | Repeating => mret tt
      end;;
      runCallback (callback t)
  end.

(** The listeners run for one event.  [DOMContentLoaded] is delivered
    once; a click reaches the prev and next buttons only while they are
    enabled; a resize reaches the script-level listener first. *)
Definition dispatch (e : Event) : M unit :=
  match e with
  | DOMContentLoaded =>
      listening OnDOMContentLoaded
        (modify (with_browser (remove_listener OnDOMContentLoaded));;
         onDOMContentLoaded)
  | NavLinkClick i => listening (OnNavLinkClick i) (onNavLinkClick i)
  | Intersection entries =>
      obs ← get (λ w, observed (page w));
      onIntersection (filter (λ en, en.1 ∈ obs) entries)
  | ButtonClick i => listening (OnButtonClick i) (onButtonClick i)
  | HamburgerClick => listening OnHamburgerClick onHamburgerClick
  | ClickPrev => clicking prevBtn OnPrevClick (onPrevClick ver)
  | ClickNext => clicking nextBtn OnNextClick (onNextClick ver)
  | ClickDot index => listening (OnDotClick index) (onDotClick ver index)
  | MouseEnter => listening OnMouseEnter onMouseEnter
  | MouseLeave => listening OnMouseLeave onMouseLeave
  | TouchStart x => listening OnTouchStart (onTouchStart x)
  | TouchMove => listening OnTouchMove onTouchMove
  | TouchEnd x => listening OnTouchEnd (onTouchEnd ver x)
  | WindowResize width newWidth =>
      relayout width newWidth;;
      listening OnGlobalResize onGlobalResize;;
      listening OnSliderResize onSliderResize
  | BeforeUnload => listening OnBeforeUnload onBeforeUnload
  | WindowLoad => listening OnLoad onLoad
  | VisibilityChange hidden => listening OnVisibilityChange (onVisibilityChange hidden)
  | TimerFire h => onTimer h
  end.

(** One turn of the event loop: an exception that escapes a listener is
    reported on the console and the loop goes on. *)
Definition step (e : Event) (w : World) : World :=
  match dispatch e w with
  | (w', Normal _) => w'
  | (w', Throw err) => with_browser (add_console (Uncaught err)) w'
  end.

Definition run (es : list Event) (w : World) : World :=
  foldl (λ w e, step e w) w es.

End Website.

(** The world when the script starts: constants defined, nothing
    attached, no timer, closure variables not yet allocated. *)
Definition page_load (ver : Version) (width : Z) (observer : bool)
    (p : Page) (d : CarouselDom) : World :=
  {| CONFIG := CONFIG_of ver;
     VALIDATION := VALIDATION_def;
     browser := {| innerWidth := width; hasIntersectionObserver := observer;
                   timers := []; nextHandle := 1; listeners := [];
                   console := [] |};
     page := p;
     cdom := d;
     closure := {| currentSlide := 0; isPlaying := false;
                   autoPlayInterval := None; startX := 0;
                   isDragging := false |};
     debounced := {| sliderTimeout := None; globalTimeout := None |} |}.

(** The page after the script and [DOMContentLoaded]. *)
Definition boot (ver : Version) (width : Z) (observer : bool)
    (p : Page) (d : CarouselDom) : World :=
  step ver DOMContentLoaded (after (script ver (page_load ver width observer p d))).

(** * Reasoning about computations *)

(** [m] maintains [P], whether it returns or throws. *)
Definition preserves {A} (P : World → Prop) (m : M A) : Prop :=
  ∀ w, P w → P (after (m w)).

(** [m] leaves the component [f] of the world as it is. *)
Definition keeps {A B} (f : World → B) (m : M A) : Prop :=
  ∀ w, f (after (m w)) = f w.

Lemma keeps_preserves {A B} (f : World → B) (m : M A) :
  keeps f m ↔ ∀ v, preserves (λ w, f w = v) m.
Proof.
  split.
  - intros Hk v w <-. apply Hk.
  - intros Hp w. now apply (Hp (f w)).
Qed.

Section Rules.

Context {A B : Type} (P : World → Prop).

Lemma preserves_ret (a : A) : preserves P (mret a).
Proof. now intros w. Qed.

Lemma preserves_throw (e : JsError) : preserves P (throw (A := A) e).
Proof. now intros w. Qed.

Lemma preserves_get (f : World → A) : preserves P (get f).
Proof. now intros w. Qed.

Lemma preserves_modify (f : World → World) :
  (∀ w, P w → P (f w)) → preserves P (modify f).
Proof. intros Hf w. apply Hf. Qed.

Lemma preserves_bind (m : M A) (k : A → M B) :
  preserves P m → (∀ a, preserves P (k a)) → preserves P (m ≫= k).
Proof.
  intros Hm Hk w Hw. specialize (Hm w Hw).
  unfold mbind, M_bind, after in *.
  destruct (m w) as [w' [a|e]]; simpl in *; [now apply Hk | done].
Qed.

(** A value read from the world comes from a world where [P] holds. *)
Lemma preserves_get_bind (f : World → A) (k : A → M B) :
  (∀ w0, P w0 → preserves P (k (f w0))) → preserves P (get f ≫= k).
Proof. intros Hk w Hw. now apply (Hk w Hw). Qed.

Lemma preserves_tryCatch (m : M A) (h : JsError → M A) :
  preserves P m → (∀ e, preserves P (h e)) → preserves P (tryCatch m h).
Proof.
  intros Hm Hh w Hw. specialize (Hm w Hw).
  unfold tryCatch, after in *.
  destruct (m w) as [w' [a|e]]; simpl in *; [done | now apply Hh].
Qed.

Lemma preserves_forEach_from (l : list A) (body : A → nat → M unit) i :
  (∀ x j, (i ≤ j < i + length l)%nat → preserves P (body x j)) →
  preserves P (forEach_from i body l).
Proof.
  revert i.
  induction l as [|x l IH]; intros i Hb; simpl.
  - now intros w.
  - intros w Hw.
    assert (Hx : P (after (body x i w))) by (apply Hb; [simpl; lia | done]).
    unfold mbind, M_bind, after in *.
    destruct (body x i w) as [w' [[]|e]]; simpl in *; [|done].
    apply IH; [|done]. intros y j Hj. apply Hb. simpl. lia.
Qed.

End Rules.

Lemma preserves_forEach {A} P (l : list A) (body : A → nat → M unit) :
  (∀ x j, (j < length l)%nat → preserves P (body x j)) →
  preserves P (forEach l body).
Proof.
  intros Hb. apply preserves_forEach_from. intros x j Hj. apply Hb. lia.
Qed.

Lemma preserves_setTimer P k cb ms :
  (∀ w t n, P w → P (with_browser (set_timers t n) w)) →
  preserves P (setTimer k cb ms).
Proof. intros H w Hw. now apply H. Qed.

Lemma preserves_clearTimer P h :
  (∀ w t n, P w → P (with_browser (set_timers t n) w)) →
  preserves P (clearTimer h).
Proof. intros H w Hw. destruct h; [now apply H | done]. Qed.

(** Symbolic execution of a computation whose shape is known. *)
Ltac run_m :=
  unfold after, result, returns, mbind, M_bind, mret, M_ret, get, modify,
    throw, tryCatch in *; cbn -[Z.mul Z.add Z.sub Z.opp Z.ltb Z.leb Z.gtb Z.eqb Z.abs pretty] in *.

(** Decomposes a [preserves] goal along the structure of the code. *)
Ltac preserves_step :=
  lazymatch goal with
  | |- preserves _ (@mbind _ _ _ _ _ (get _)) =>
      apply preserves_get_bind; intros ? ?
  | |- preserves _ (@mbind _ _ _ _ _ _) => apply preserves_bind; [|intros ?]
  | |- preserves _ (mret _) => apply preserves_ret
  | |- preserves _ (throw _) => apply preserves_throw
  | |- preserves _ (get _) => apply preserves_get
  | |- preserves _ (tryCatch _ _) => apply preserves_tryCatch; [|intros ?]
  | |- preserves _ (forEach _ _) => apply preserves_forEach; intros ? ? ?
  | |- preserves _ (setTimer _ _ _) => apply preserves_setTimer; intros ? ? ? ?
  | |- preserves _ (setInterval _ _) => apply preserves_setTimer; intros ? ? ? ?
  | |- preserves _ (setTimeout _ _) => apply preserves_setTimer; intros ? ? ? ?
  | |- preserves _ (clearTimer _) => apply preserves_clearTimer; intros ? ? ? ?
  | |- preserves _ (clearInterval _) => apply preserves_clearTimer; intros ? ? ? ?
  | |- preserves _ (clearTimeout _) => apply preserves_clearTimer; intros ? ? ? ?
  | |- preserves _ (modify _) => apply preserves_modify; intros ? ?
  | |- preserves _ (match ?x with _ => _ end) => destruct x eqn:?
  end.

Create HintDb handlers.

#[local] Hint Unfold
  console_log console_error addEventListener scrollToOrigin query isMobile
  read_breakpoint getDeviceType getSlideWidth startAutoPlay stopAutoPlay
  resumeLater
  onPrevClick onNextClick onDotClick onMouseEnter onMouseLeave
  onTouchStart onTouchMove onTouchEnd onSliderResize sliderResizeLater
  autoPlayTick initTestimonialSlider log_v1
  initSmoothScrolling onNavLinkClick initScrollAnimations onIntersection
  initHoverAnimations onButtonClick removeRipple initLoadingAnimation
  onBeforeUnload onLoad finishLoading onHamburgerClick initMobileMenu
  handleResponsiveLayout initFormValidation initBackToTop initBusinessHours
  initNewsletterSignup initialisers initCoffeeWebsite_with initCoffeeWebsite
  onGlobalResize globalResizeLater onVisibilityChange onDOMContentLoaded
  script runCallback onTimer listening clicking relayout dispatch : handlers.

(** [updateSlider] and the three navigation functions are kept folded
    inside their callers, so that what is known about them can be used
    there. *)
Ltac unfold_head :=
  lazymatch goal with
  | |- preserves _ (updateSlider _) => unfold updateSlider
  | |- preserves _ (nextSlide _) => unfold nextSlide
  | |- preserves _ (prevSlide _) => unfold prevSlide
  | |- preserves _ (goToSlide _ _) => unfold goToSlide
  | |- preserves _ _ => progress (autounfold with handlers)
  end.

(** Proves that code maintains a property which every primitive write of
    the code maintains by computation. *)
Ltac frame :=
  repeat first [ preserves_step | unfold_head ];
  try (simpl in *; assumption).

Ltac keeps_frame :=
  apply keeps_preserves; intros ?; frame.

(** * The constants are never written *)

Lemma dispatch_keeps_CONFIG ver e : keeps CONFIG (dispatch ver e).
Proof. destruct ver, e; keeps_frame. Qed.

Lemma dispatch_keeps_VALIDATION ver e : keeps VALIDATION (dispatch ver e).
Proof. destruct ver, e; keeps_frame. Qed.

(** * The slide index *)

Definition itemCount (w : World) : Z :=
  Z.of_nat (length (testimonialItems (cdom w))).

Definition slideIndex (w : World) : Z := currentSlide (closure w).

(** The listener [l] has been attached. *)
Definition attached (l : Listener) (w : World) : bool :=
  bool_decide (l ∈ listeners (browser w)).

Lemma after_bind_keeps {A B C} (f : World → C) (m : M A) (k : A → M B) w :
  (∀ a, keeps f (k a)) → f (after ((m ≫= k) w)) = f (after (m w)).
Proof.
  intros Hk. unfold mbind, M_bind, after.
  destruct (m w) as [w' [a|e]]; simpl; [apply Hk | done].
Qed.

Lemma step_closure ver e w :
  closure (step ver e w) = closure (after (dispatch ver e w)).
Proof. unfold step, after. now destruct (dispatch ver e w) as [w' [a|err]]. Qed.

Lemma step_cdom ver e w :
  cdom (step ver e w) = cdom (after (dispatch ver e w)).
Proof. unfold step, after. now destruct (dispatch ver e w) as [w' [a|err]]. Qed.

Lemma listening_attached l body w :
  attached l w = true → listening l body w = body w.
Proof.
  unfold attached, listening. run_m. now intros ->.
Qed.

Lemma listening_detached l body w :
  attached l w = false → listening l body w = (w, Normal tt).
Proof.
  unfold attached, listening. run_m. now intros ->.
Qed.

Lemma clicking_enabled button l body w :
  enabled (button (cdom w)) = true → clicking button l body w = listening l body w.
Proof. unfold clicking. run_m. now intros ->. Qed.

Lemma clicking_disabled button l body w :
  enabled (button (cdom w)) = false → clicking button l body w = (w, Normal tt).
Proof. unfold clicking. run_m. now intros ->. Qed.

Lemma updateSlider_keeps_closure ver : keeps closure (updateSlider ver).
Proof. destruct ver; keeps_frame. Qed.

Lemma updateSlider_keeps_items ver :
  keeps (λ w, testimonialItems (cdom w)) (updateSlider ver).
Proof. destruct ver; keeps_frame. Qed.

Lemma updateSlider_keeps_itemCount ver : keeps itemCount (updateSlider ver).
Proof.
  intros w. unfold itemCount. now rewrite (updateSlider_keeps_items ver w).
Qed.

(** What [nextSlide] and [prevSlide] assign to [currentSlide]. *)
Definition next_index (n i : Z) : Z := if i <? n - 1 then i + 1 else 0.
Definition prev_index (n i : Z) : Z := if i >? 0 then i - 1 else n - 1.

Lemma nextSlide_index ver w :
  slideIndex (after (nextSlide ver w)) = next_index (itemCount w) (slideIndex w).
Proof.
  unfold slideIndex, next_index, itemCount, nextSlide.
  destruct ver; run_m;
    destruct (_ <? _); run_m;
    match goal with
    | |- context [updateSlider ?v ?w'] =>
        change (closure (updateSlider v w').1) with (closure (after (updateSlider v w')));
        now rewrite (updateSlider_keeps_closure v w')
    end.
Qed.

Lemma prevSlide_index ver w :
  slideIndex (after (prevSlide ver w)) = prev_index (itemCount w) (slideIndex w).
Proof.
  unfold slideIndex, prev_index, itemCount, prevSlide.
  destruct ver; run_m;
    destruct (_ >? _); run_m;
    match goal with
    | |- context [updateSlider ?v ?w'] =>
        change (closure (updateSlider v w').1) with (closure (after (updateSlider v w')));
        now rewrite (updateSlider_keeps_closure v w')
    end.
Qed.

Lemma goToSlide_index ver k w :
  slideIndex (after (goToSlide ver k w)) = k.
Proof.
  unfold slideIndex, goToSlide. run_m.
  match goal with
  | |- context [updateSlider ?v ?w'] =>
      change (closure (updateSlider v w').1) with (closure (after (updateSlider v w')));
      now rewrite (updateSlider_keeps_closure v w')
  end.
Qed.

Lemma nextSlide_keeps_itemCount ver : keeps itemCount (nextSlide ver).
Proof. destruct ver; keeps_frame. Qed.

Lemma prevSlide_keeps_itemCount ver : keeps itemCount (prevSlide ver).
Proof. destruct ver; keeps_frame. Qed.

Lemma goToSlide_keeps_itemCount ver k : keeps itemCount (goToSlide ver k).
Proof. destruct ver; keeps_frame. Qed.

Lemma next_index_mod n i : 1 ≤ n → 0 ≤ i < n → next_index n i = (i + 1) mod n.
Proof.
  intros Hn Hi. unfold next_index.
  destruct (Z.ltb_spec i (n - 1)).
  - symmetry. apply Z.mod_small. lia.
  - replace (i + 1) with n by lia. symmetry. apply Z.mod_same. lia.
Qed.

Lemma prev_next_index n i : 1 ≤ n → 0 ≤ i < n → prev_index n (next_index n i) = i.
Proof.
  intros Hn Hi. unfold prev_index, next_index.
  destruct (Z.ltb_spec i (n - 1)).
  - destruct (Z.gtb_spec (i + 1) 0); lia.
  - destruct (Z.gtb_spec 0 0); lia.
Qed.

Lemma next_prev_index n i : 1 ≤ n → 0 ≤ i < n → next_index n (prev_index n i) = i.
Proof.
  intros Hn Hi. unfold prev_index, next_index.
  destruct (Z.gtb_spec i 0).
  - destruct (Z.ltb_spec (i - 1) (n - 1)); lia.
  - destruct (Z.ltb_spec (n - 1) (n - 1)); lia.
Qed.

Lemma next_index_range n i : 1 ≤ n → 0 ≤ i < n → 0 ≤ next_index n i < n.
Proof.
  intros Hn Hi. unfold next_index. destruct (Z.ltb_spec i (n - 1)); lia.
Qed.

Lemma prev_index_range n i : 1 ≤ n → 0 ≤ i < n → 0 ≤ prev_index n i < n.
Proof.
  intros Hn Hi. unfold prev_index. destruct (Z.gtb_spec i 0); lia.
Qed.

Lemma stop_resume_keeps_slideIndex :
  keeps slideIndex (stopAutoPlay;; resumeLater).
Proof. keeps_frame. Qed.

Lemma onNextClick_index ver w :
  slideIndex (after (onNextClick ver w)) = next_index (itemCount w) (slideIndex w).
Proof.
  unfold onNextClick.
  rewrite (after_bind_keeps slideIndex); [apply nextSlide_index|].
  intros _. apply stop_resume_keeps_slideIndex.
Qed.

(** * A sample page

    Three testimonials with their dots and both buttons, on a desktop
    viewport; used to run the statements below on concrete inputs. *)

Definition demo_item : ItemEl :=
  {| offsetWidth := 350; minWidth := ""; flex := "" |}.

Definition demo_dom : CarouselDom :=
  {| slider := Some {| transform := "" |};
     dots := [ {| dotClasses := ["dot"; "active"] |};
               {| dotClasses := ["dot"] |};
               {| dotClasses := ["dot"] |} ];
     prevBtn := Some {| disabled := false |};
     nextBtn := Some {| disabled := false |};
     testimonialItems := [demo_item; demo_item; demo_item] |}.

Definition demo_page : Page :=
  {| scroll := ScrollElsewhere;
     navLinks := ["#about"; "#menu"];
     anchors := ["#about"];
     badSelectors := [];
     sections := [ {| opacity := ""; secTransform := ""; transition := "" |} ];
     observed := [];
     buttons := [[]; []];
     nextRipple := 0;
     bodyClasses := [];
     scrollRestoration := Some "auto";
     hasNav := true;
     navLinksEl := Some {| navClasses := ["nav-links"]; navStyle := [] |};
     hamburger := None;
     heroContent := None |}.

Definition demo : World := boot V1 1024 true demo_page demo_dom.

(** * Navigation *)

(** The carousel of the sample page on its last slide, after two clicks
    on the next button. *)
Definition demo_last : World := run V1 [ClickNext; ClickNext] demo.

(** C1: with n >= 1 items and the index i in [0, n), a click on the next
    button reaches the listener only while the button is enabled; it
    then runs [nextSlide] and leaves the index at (i + 1) mod n.  A click
    on the disabled button changes nothing.  With the flag as
    [updateSlider] writes it, disabled exactly on the last slide, a click
    hence moves from i to i + 1 below the last slide and is ignored on
    the last slide: the click never wraps to 0. *)
Theorem next_click_advances (ver : Version) (w : World) (n i : Z) :
  attached OnNextClick w = true →
  itemCount w = n → slideIndex w = i → 1 ≤ n → 0 ≤ i < n →
  (enabled (nextBtn (cdom w)) = true →
     slideIndex (step ver ClickNext w) = (i + 1) mod n)
  ∧ (enabled (nextBtn (cdom w)) = false → step ver ClickNext w = w)
  ∧ (nextBtn (cdom w) = Some {| disabled := i =? n - 1 |} →
       (i < n - 1 → slideIndex (step ver ClickNext w) = i + 1)
       ∧ (i = n - 1 → step ver ClickNext w = w)).
Proof.
  intros Hl Hn Hi Hn1 Hr.
  assert (Hon : enabled (nextBtn (cdom w)) = true →
                slideIndex (step ver ClickNext w) = next_index n i).
  { intros He. unfold slideIndex. rewrite step_closure. simpl dispatch.
    rewrite (clicking_enabled _ _ _ _ He), (listening_attached _ _ _ Hl).
    fold (slideIndex (after (onNextClick ver w))).
    rewrite onNextClick_index. now rewrite Hn, Hi. }
  assert (Hoff : enabled (nextBtn (cdom w)) = false → step ver ClickNext w = w).
  { intros He. unfold step. simpl dispatch.
    now rewrite (clicking_disabled _ _ _ _ He). }
  split; [|split; [exact Hoff|]].
  - intros He. rewrite (Hon He). now apply next_index_mod.
  - intros Hb. split; intros H.
    + rewrite Hon.
      * unfold next_index. destruct (Z.ltb_spec i (n - 1)); lia.
      * rewrite Hb. simpl. destruct (Z.eqb_spec i (n - 1)); [lia|done].
    + apply Hoff. rewrite Hb. simpl. destruct (Z.eqb_spec i (n - 1)); [done|lia].
Qed.

Lemma next_click_advances_witness :
  attached OnNextClick demo = true
  ∧ itemCount demo = 3 ∧ slideIndex demo = 0
  ∧ enabled (nextBtn (cdom demo)) = true
  ∧ slideIndex (step V1 ClickNext demo) = (0 + 1) mod 3.
Proof.
  split; [reflexivity|]. split; [reflexivity|]. split; [reflexivity|].
  split; [reflexivity|].
  destruct (next_click_advances V1 demo 3 0) as [Hon _];
    [reflexivity..|lia|lia|].
  apply Hon. reflexivity.
Defined.

(** On the last slide of the sample page the next button is disabled and
    a click on it leaves the carousel on slide 2 of 3: it does not wrap
    to (2 + 1) mod 3. *)
Lemma last_slide_click_ignored :
  attached OnNextClick demo_last = true
  ∧ itemCount demo_last = 3 ∧ slideIndex demo_last = 2
  ∧ nextBtn (cdom demo_last) = Some {| disabled := true |}
  ∧ slideIndex (step V1 ClickNext demo_last) = 2
  ∧ slideIndex (step V1 ClickNext demo_last) ≠ (2 + 1) mod 3.
Proof. vm_compute. repeat split; discriminate. Qed.

(** C8: with n >= 1 items and the index i in [0, n), [nextSlide] followed
    by [prevSlide] brings the index back to i, and so does [prevSlide]
    followed by [nextSlide]. *)
Theorem next_prev_inverse (ver : Version) (w : World) (n i : Z) :
  itemCount w = n → slideIndex w = i → 1 ≤ n → 0 ≤ i < n →
  slideIndex (after (prevSlide ver (after (nextSlide ver w)))) = i
  ∧ slideIndex (after (nextSlide ver (after (prevSlide ver w)))) = i.
Proof.
  intros Hn Hi Hn1 Hr. split.
  - rewrite prevSlide_index, nextSlide_index, nextSlide_keeps_itemCount.
    rewrite Hn, Hi. now apply prev_next_index.
  - rewrite nextSlide_index, prevSlide_index, prevSlide_keeps_itemCount.
    rewrite Hn, Hi. now apply next_prev_index.
Qed.

Lemma next_prev_inverse_witness :
  itemCount demo = 3 ∧ slideIndex demo = 0
  ∧ slideIndex (after (prevSlide V1 (after (nextSlide V1 demo)))) = 0
  ∧ slideIndex (after (nextSlide V1 (after (prevSlide V1 demo)))) = 0.
Proof.
  split; [reflexivity|]. split; [reflexivity|].
  apply (next_prev_inverse V1 demo 3 0); [reflexivity..|lia|lia].
Defined.

(** * Swipe *)

(** What the page shows of the carousel, and the index behind it. *)
Definition view (w : World) : Z * CarouselDom := (slideIndex w, cdom w).

(** The branch of the [touchend] listener that decides on a swipe. *)
Definition swipe (ver : Version) (diffX : Z) : M unit :=
  if Z.abs diffX >? 50 then
    if diffX >? 0 then nextSlide ver else prevSlide ver
  else mret tt.

Lemma onTouchEnd_view ver x w :
  isDragging (closure w) = true →
  view (after (onTouchEnd ver x w))
  = view (after (swipe ver (startX (closure w) - x) w)).
Proof.
  intros Hd. unfold onTouchEnd.
  change ((get (λ w0, isDragging (closure w0)) ≫= ?k) w) with (k (isDragging (closure w)) w).
  rewrite Hd. cbn [negb].
  change ((get (λ w0, startX (closure w0)) ≫= ?k) w) with (k (startX (closure w)) w).
  cbv zeta. fold (swipe ver (startX (closure w) - x)).
  apply (after_bind_keeps view). intros _. keeps_frame.
Qed.

Lemma step_view ver e w : view (step ver e w) = view (after (dispatch ver e w)).
Proof. unfold view, slideIndex. now rewrite step_closure, step_cdom. Qed.

(** C5: on [touchend] during a drag, with start coordinate startX and end
    coordinate endX: if startX - endX > 50 the carousel goes to the next
    slide, if endX - startX > 50 it goes to the previous slide, and if
    |startX - endX| <= 50 the slide index (and what is shown) stays. *)
Theorem touchend_swipe (ver : Version) (w : World) (endX : Z) :
  attached OnTouchEnd w = true →
  isDragging (closure w) = true →
  let w' := step ver (TouchEnd endX) w in
  (startX (closure w) - endX > 50 →
     view w' = view (after (nextSlide ver w))
     ∧ slideIndex w' = next_index (itemCount w) (slideIndex w))
  ∧ (endX - startX (closure w) > 50 →
     view w' = view (after (prevSlide ver w))
     ∧ slideIndex w' = prev_index (itemCount w) (slideIndex w))
  ∧ (Z.abs (startX (closure w) - endX) ≤ 50 → view w' = view w).
Proof.
  intros Hl Hd w'.
  assert (Hv : view w' = view (after (swipe ver (startX (closure w) - endX) w))).
  { unfold w'. rewrite step_view. simpl dispatch.
    rewrite (listening_attached _ _ _ Hl). now apply onTouchEnd_view. }
  unfold swipe in Hv.
  split; [|split]; intros H.
  - destruct (Z.gtb_spec (Z.abs (startX (closure w) - endX)) 50); [|lia].
    destruct (Z.gtb_spec (startX (closure w) - endX) 0); [|lia].
    split; [done|].
    change (slideIndex w') with (view w').1. rewrite Hv. apply nextSlide_index.
  - destruct (Z.gtb_spec (Z.abs (startX (closure w) - endX)) 50); [|lia].
    destruct (Z.gtb_spec (startX (closure w) - endX) 0); [lia|].
    split; [done|].
    change (slideIndex w') with (view w').1. rewrite Hv. apply prevSlide_index.
  - destruct (Z.gtb_spec (Z.abs (startX (closure w) - endX)) 50); [lia|done].
Qed.

(** The sample page with a finger down at x = 200. *)
Definition demo_touched : World := step V1 (TouchStart 200) demo.

Lemma touchend_swipe_witness :
  attached OnTouchEnd demo_touched = true
  ∧ isDragging (closure demo_touched) = true
  ∧ slideIndex (step V1 (TouchEnd 100) demo_touched) = 1
  ∧ slideIndex (step V1 (TouchEnd 300) demo_touched) = 2
  ∧ view (step V1 (TouchEnd 150) demo_touched) = view demo_touched.
Proof.
  split; [reflexivity|]. split; [reflexivity|].
  split; [|split].
  - apply (touchend_swipe V1 demo_touched 100); [reflexivity|reflexivity|].
    vm_compute. reflexivity.
  - apply (touchend_swipe V1 demo_touched 300); [reflexivity|reflexivity|].
    vm_compute. reflexivity.
  - apply (touchend_swipe V1 demo_touched 150); [reflexivity|reflexivity|].
    vm_compute. discriminate.
Defined.

(** * Presence of the carousel's elements *)

Definition present {A} (o : option A) : bool :=
  match o with Some _ => true | None => false end.

(** Which of the queried elements exist, and how many. *)
Definition shape (d : CarouselDom) : bool * nat * bool * bool * nat :=
  (present (slider d), length (dots d), present (prevBtn d),
   present (nextBtn d), length (testimonialItems d)).

(** The precondition "all elements of the carousel exist": the slider,
    at least one dot, both buttons, at least one testimonial item. *)
Definition elements_present (d : CarouselDom) : bool :=
  present (slider d) && negb (length (dots d) =? 0)%nat
  && present (prevBtn d) && present (nextBtn d)
  && negb (length (testimonialItems d) =? 0)%nat.

Lemma elements_present_shape d d' :
  shape d' = shape d → elements_present d' = elements_present d.
Proof. unfold shape, elements_present. now intros [= -> -> -> -> ->]. Qed.

Lemma keeps_eq {A B} (f : World → B) (m : M A) v :
  keeps f m → preserves (λ w, f w = v) m.
Proof. intros Hk. now apply keeps_preserves. Qed.

Lemma keeps_bind {A B C} (f : World → C) (m : M A) (k : A → M B) :
  keeps f m → (∀ a, keeps f (k a)) → keeps f (m ≫= k).
Proof.
  intros Hm Hk. apply keeps_preserves. intros v.
  apply preserves_bind; [now apply keeps_eq | intros a; now apply keeps_eq].
Qed.

Lemma keeps_weaken {A B C} (f : World → B) (g : B → C) (m : M A) :
  keeps f m → keeps (λ w, g (f w)) m.
Proof. intros Hk w. now rewrite Hk. Qed.

(** Reading the layout writes nothing. *)
Lemma getDeviceType_pure : keeps id getDeviceType.
Proof. keeps_frame. Qed.

Lemma getSlideWidth_pure ver : keeps id (getSlideWidth ver).
Proof. destruct ver; keeps_frame. Qed.

Lemma updateSlider_keeps_shape ver :
  keeps (λ w, shape (cdom w)) (updateSlider ver).
Proof.
  unfold updateSlider. apply keeps_bind.
  - apply (keeps_weaken id), getSlideWidth_pure.
  - intros sw w. run_m.
    destruct (slider (cdom w)) eqn:Hs; [|done]. run_m.
    destruct (prevBtn (cdom w)) eqn:Hp; run_m;
      [|unfold shape; simpl; now rewrite length_imap, Hs].
    destruct (nextBtn (cdom w)) eqn:Hn; run_m;
      unfold shape; simpl; now rewrite length_imap, Hs, Hp, ?Hn.
Qed.

Create HintDb keeps.

#[local] Hint Resolve updateSlider_keeps_shape updateSlider_keeps_closure
  updateSlider_keeps_items : keeps.

(** As [frame], with lemmas of the base [keeps] used where they apply and
    [fin] closing the goals left by the primitive writes. *)
Ltac frame_with fin :=
  repeat first
    [ solve [apply keeps_eq; auto with keeps nocore]
    | preserves_step
    | unfold_head ];
  fin.

Ltac shape_fin :=
  try (unfold shape in *; simpl in *; rewrite ?length_map, ?length_imap;
       assumption).

Lemma dispatch_keeps_shape ver e : keeps (λ w, shape (cdom w)) (dispatch ver e).
Proof. destruct ver, e; apply keeps_preserves; intros ?; frame_with shape_fin. Qed.

Lemma script_keeps_shape ver : keeps (λ w, shape (cdom w)) (script ver).
Proof. destruct ver; apply keeps_preserves; intros ?; frame_with shape_fin. Qed.

Lemma script_keeps_CONFIG ver : keeps CONFIG (script ver).
Proof. destruct ver; keeps_frame. Qed.

Lemma script_keeps_VALIDATION ver : keeps VALIDATION (script ver).
Proof. destruct ver; keeps_frame. Qed.

Lemma step_unfold ver e w :
  step ver e w = after (dispatch ver e w)
  ∨ ∃ err, step ver e w
           = with_browser (add_console (Uncaught err)) (after (dispatch ver e w)).
Proof.
  unfold step, after. destruct (dispatch ver e w) as [w' [a|err]]; eauto.
Qed.

Lemma step_keeps_shape ver e w : shape (cdom (step ver e w)) = shape (cdom w).
Proof. rewrite step_cdom. apply (dispatch_keeps_shape ver e). Qed.

Lemma step_keeps_CONFIG ver e w : CONFIG (step ver e w) = CONFIG w.
Proof.
  destruct (step_unfold ver e w) as [->|[err ->]]; apply dispatch_keeps_CONFIG.
Qed.

Lemma step_keeps_VALIDATION ver e w : VALIDATION (step ver e w) = VALIDATION w.
Proof.
  destruct (step_unfold ver e w) as [->|[err ->]];
    apply dispatch_keeps_VALIDATION.
Qed.

Lemma run_app ver es es' w : run ver (es ++ es') w = run ver es' (run ver es w).
Proof. apply foldl_app. Qed.

Lemma run_keeps {B} (f : World → B) ver :
  (∀ e w, f (step ver e w) = f w) → ∀ es w, f (run ver es w) = f w.
Proof.
  intros Hs es. induction es as [|e es IH]; intros w; [done|].
  simpl. now rewrite IH, Hs.
Qed.

Lemma boot_shape ver width io p d :
  shape (cdom (boot ver width io p d)) = shape d.
Proof.
  unfold boot. rewrite step_keeps_shape.
  now rewrite (script_keeps_shape ver (page_load ver width io p d)).
Qed.

Lemma boot_CONFIG ver width io p d :
  CONFIG (boot ver width io p d) = CONFIG_of ver.
Proof.
  unfold boot. rewrite step_keeps_CONFIG.
  now rewrite (script_keeps_CONFIG ver (page_load ver width io p d)).
Qed.

(** * The carousel does not throw when its elements exist *)

(** The breakpoints that [getDeviceType] reads are defined. *)
Definition constants_defined (ver : Version) (w : World) : Prop :=
  match ver with
  | V1 => True
  | V2 => is_Some (breakpoints (CONFIG w))
  end.

Definition ok (ver : Version) (w : World) : Prop :=
  elements_present (cdom w) = true ∧ constants_defined ver w.

Lemma returns_bind {A B} (m : M A) (k : A → M B) w :
  returns (m w) → (∀ a, returns (k a (after (m w)))) → returns ((m ≫= k) w).
Proof.
  intros [a Ha] Hk. specialize (Hk a).
  unfold returns, after, mbind, M_bind in *.
  destruct (m w) as [w' c]; simpl in *. now subst c.
Qed.

Lemma getDeviceType_returns w :
  is_Some (breakpoints (CONFIG w)) → returns (getDeviceType w).
Proof.
  intros [bp Hbp]. unfold getDeviceType, read_breakpoint. run_m.
  rewrite Hbp. run_m.
  destruct (_ <=? mobile bp); run_m; [eauto|]. rewrite Hbp. run_m.
  destruct (_ <=? mobileLarge bp); run_m; [eauto|]. rewrite Hbp. run_m.
  destruct (_ <=? tablet bp); run_m; [eauto|]. rewrite Hbp. run_m.
  destruct (_ <=? desktop bp); run_m; eauto.
Qed.

Lemma getSlideWidth_returns ver w :
  constants_defined ver w → returns (getSlideWidth ver w).
Proof.
  intros Hc. unfold getSlideWidth.
  change ((get ?f ≫= ?k) w) with (k (f w) w). cbv beta.
  destruct (testimonialItems (cdom w) !! 0%nat) as [item|]; [|now eexists].
  destruct ver; [now eexists|].
  apply returns_bind; [now apply getDeviceType_returns|].
  intros deviceType. now eexists.
Qed.

Lemma ok_after {A} ver (m : M A) w :
  keeps (λ w, shape (cdom w)) m → keeps CONFIG m →
  ok ver w → ok ver (after (m w)).
Proof.
  intros Hs Hc [He Hk]. split.
  - now rewrite (elements_present_shape _ _ (Hs w)).
  - destruct ver; [done|]. simpl. now rewrite Hc.
Qed.

Lemma updateSlider_keeps_CONFIG ver : keeps CONFIG (updateSlider ver).
Proof. destruct ver; keeps_frame. Qed.

Lemma updateSlider_returns ver w : ok ver w → returns (updateSlider ver w).
Proof.
  intros [He Hc]. unfold updateSlider.
  apply returns_bind; [now apply getSlideWidth_returns|].
  intros sw. pose proof (getSlideWidth_pure ver w) as Hpure.
  unfold id in Hpure. rewrite Hpure.
  unfold elements_present in He.
  destruct (slider (cdom w)) eqn:Hs; [|done].
  destruct (prevBtn (cdom w)) eqn:Hp; [|simpl in He; lia].
  destruct (nextBtn (cdom w)) eqn:Hn; [|simpl in He; lia].
  run_m. rewrite Hs. run_m. rewrite Hp. run_m. rewrite Hn. run_m. eauto.
Qed.

Lemma nextSlide_returns ver w : ok ver w → returns (nextSlide ver w).
Proof.
  intros Hok. unfold nextSlide.
  destruct ver; run_m; destruct (_ <? _); run_m;
    now apply updateSlider_returns.
Qed.

Lemma prevSlide_returns ver w : ok ver w → returns (prevSlide ver w).
Proof.
  intros Hok. unfold prevSlide.
  destruct ver; run_m; destruct (_ >? _); run_m;
    now apply updateSlider_returns.
Qed.

Lemma goToSlide_returns ver k w : ok ver w → returns (goToSlide ver k w).
Proof.
  intros Hok. unfold goToSlide. run_m. now apply updateSlider_returns.
Qed.

Lemma stopAutoPlay_returns w : returns (stopAutoPlay w).
Proof.
  unfold stopAutoPlay, clearInterval, clearTimer. run_m.
  destruct (autoPlayInterval (closure w)); run_m; eauto.
Qed.

Lemma onTouchStart_returns x w : returns (onTouchStart x w).
Proof. unfold onTouchStart. run_m. apply stopAutoPlay_returns. Qed.

Lemma onTouchMove_returns w : returns (onTouchMove w).
Proof. unfold onTouchMove. run_m. destruct (isDragging _); run_m; eauto. Qed.

Lemma swipe_returns ver diffX w : ok ver w → returns (swipe ver diffX w).
Proof.
  intros Hok. unfold swipe.
  destruct (_ >? 50); [|now eexists].
  destruct (_ >? 0); [now apply nextSlide_returns | now apply prevSlide_returns].
Qed.

Lemma onTouchEnd_returns ver x w : ok ver w → returns (onTouchEnd ver x w).
Proof.
  intros Hok. unfold onTouchEnd.
  change ((get (λ w0, isDragging (closure w0)) ≫= ?k) w) with (k (isDragging (closure w)) w).
  cbv beta. destruct (isDragging (closure w)); [|now eexists]. cbn [negb].
  change ((get (λ w0, startX (closure w0)) ≫= ?k) w) with (k (startX (closure w)) w).
  cbv zeta beta. fold (swipe ver (startX (closure w) - x)).
  apply returns_bind; [now apply swipe_returns|].
  intros _. unfold resumeLater, setTimeout, setTimer. run_m.
  destruct (isPlaying _); run_m; eauto.
Qed.

(** In every world reached from a page where the elements of the carousel
    exist, they still exist and the constants are those of the script. *)
Lemma reachable_ok ver width io p d es :
  elements_present d = true → ok ver (run ver es (boot ver width io p d)).
Proof.
  intros Hd. split.
  - rewrite <- Hd. apply elements_present_shape.
    rewrite (run_keeps (λ w, shape (cdom w)) ver (step_keeps_shape ver)).
    apply boot_shape.
  - destruct ver; [done|]. simpl.
    rewrite (run_keeps CONFIG V2 (step_keeps_CONFIG V2)), boot_CONFIG.
    now eexists.
Qed.

(** C7: when every element the carousel refers to exists (slider, at
    least one dot, both buttons, at least one item), then in every world
    the page can reach each carousel operation returns normally: the
    functions [getSlideWidth], [updateSlider], [nextSlide], [prevSlide],
    [goToSlide] and the three touch listeners never throw. *)
Theorem carousel_never_throws (ver : Version) (width : Z) (observer : bool)
    (p : Page) (d : CarouselDom) (es : list Event) :
  elements_present d = true →
  let w := run ver es (boot ver width observer p d) in
  returns (getSlideWidth ver w)
  ∧ returns (updateSlider ver w)
  ∧ returns (nextSlide ver w)
  ∧ returns (prevSlide ver w)
  ∧ (∀ slideIndex, returns (goToSlide ver slideIndex w))
  ∧ (∀ clientX, returns (onTouchStart clientX w))
  ∧ returns (onTouchMove w)
  ∧ (∀ clientX, returns (onTouchEnd ver clientX w)).
Proof.
  intros Hd w.
  assert (Hok : ok ver w) by now apply reachable_ok.
  repeat split.
  - apply getSlideWidth_returns, Hok.
  - now apply updateSlider_returns.
  - now apply nextSlide_returns.
  - now apply prevSlide_returns.
  - intros k. now apply goToSlide_returns.
  - intros x. apply onTouchStart_returns.
  - apply onTouchMove_returns.
  - intros x. now apply onTouchEnd_returns.
Qed.

Lemma carousel_never_throws_witness :
  elements_present demo_dom = true
  ∧ returns (nextSlide V2 (run V2 [ClickNext; TouchStart 10; TouchEnd 90]
                             (boot V2 400 true demo_page demo_dom))).
Proof.
  split; [reflexivity|].
  destruct (carousel_never_throws V2 400 true demo_page demo_dom
              [ClickNext; TouchStart 10; TouchEnd 90] eq_refl)
    as (_ & _ & Hnext & _).
  exact Hnext.
Defined.

(** * What [updateSlider] shows *)



(** The world after [updateSlider] when the slider and both buttons
    exist. *)
Definition shown (i slideWidth : Z) (w : World) : World :=
  with_cdom (λ d,
    {| slider := Some {| transform := translateX_css (- i * slideWidth) |};
       dots := imap (λ index dot,
                 {| dotClasses :=
                      classList_toggle "active" (Z.of_nat index =? i)
                        (dotClasses dot) |}) (dots d);
       prevBtn := Some {| disabled := i =? 0 |};
       nextBtn := Some {| disabled := i =? itemCount w - 1 |};
       testimonialItems := testimonialItems d |}) w.

Lemma updateSlider_spec ver w sw :
  getSlideWidth ver w = (w, Normal sw) →
  present (slider (cdom w)) = true →
  present (prevBtn (cdom w)) = true →
  present (nextBtn (cdom w)) = true →
  updateSlider ver w = (shown (slideIndex w) sw w, Normal tt).
Proof.
  intros Hsw Hs Hp Hn. unfold updateSlider. run_m. rewrite Hsw. run_m.
  destruct (slider (cdom w)); [|done]. run_m.
  destruct (prevBtn (cdom w)); [|done]. run_m.
  destruct (nextBtn (cdom w)); [|done]. run_m.
  reflexivity.
Qed.

Lemma classList_toggle_token token force cl :
  token ∈ classList_toggle token force cl ↔ force = true.
Proof.
  unfold classList_toggle. destruct force.
  - split; [done|intros _].
    case_bool_decide; [done|]. apply elem_of_app. right. now left.
  - split; [|done]. intros [Hne _]%list_elem_of_filter. done.
Qed.

Lemma classList_toggle_other token force cl c :
  c ≠ token → c ∈ classList_toggle token force cl ↔ c ∈ cl.
Proof.
  intros Hc. unfold classList_toggle. destruct force.
  - case_bool_decide; [done|]. rewrite elem_of_app, list_elem_of_singleton.
    split; [intros [Hin|Heq]; [done|contradiction] | now left].
  - rewrite list_elem_of_filter. split; [now intros [_ Hin] | done].
Qed.



(** * The slide index stays in range *)

Definition index_in_range (w : World) : Prop :=
  0 ≤ slideIndex w < itemCount w.

(** The precondition "as many dots as items, and at least one". *)
Definition dots_match (d : CarouselDom) : Prop :=
  length (dots d) = length (testimonialItems d)
  ∧ (1 ≤ length (testimonialItems d))%nat.

(** The invariant of the page with [N] testimonials: [N] dots and [N]
    items, the index in range, and a dot listener only for an existing
    dot. *)
Definition Inv (N : nat) (w : World) : Prop :=
  length (dots (cdom w)) = N
  ∧ length (testimonialItems (cdom w)) = N
  ∧ (1 ≤ N)%nat
  ∧ 0 ≤ currentSlide (closure w) < Z.of_nat N
  ∧ ∀ k, OnDotClick k ∈ listeners (browser w) → (k < N)%nat.

Lemma Inv_index N w : Inv N w → index_in_range w.
Proof.
  unfold Inv, index_in_range, slideIndex, itemCount.
  intros (_ & -> & _ & Hi & _). done.
Qed.

Lemma shape_lengths d d' :
  shape d' = shape d →
  length (dots d') = length (dots d)
  ∧ length (testimonialItems d') = length (testimonialItems d).
Proof. unfold shape. now intros [= _ -> _ _ ->]. Qed.

Lemma Inv_transfer N w w' :
  shape (cdom w') = shape (cdom w) →
  listeners (browser w') = listeners (browser w) →
  0 ≤ currentSlide (closure w') < Z.of_nat N →
  Inv N w → Inv N w'.
Proof.
  intros [Hd Hi]%shape_lengths Hl Hr (? & ? & ? & ? & ?).
  unfold Inv. rewrite Hd, Hi, Hl. done.
Qed.

Lemma nextSlide_keeps_shape ver : keeps (λ w, shape (cdom w)) (nextSlide ver).
Proof. destruct ver; apply keeps_preserves; intros ?; frame_with shape_fin. Qed.

Lemma prevSlide_keeps_shape ver : keeps (λ w, shape (cdom w)) (prevSlide ver).
Proof. destruct ver; apply keeps_preserves; intros ?; frame_with shape_fin. Qed.

Lemma goToSlide_keeps_shape ver k :
  keeps (λ w, shape (cdom w)) (goToSlide ver k).
Proof. destruct ver; apply keeps_preserves; intros ?; frame_with shape_fin. Qed.

Lemma updateSlider_keeps_browser ver : keeps browser (updateSlider ver).
Proof. destruct ver; keeps_frame. Qed.

Lemma nextSlide_keeps_browser ver : keeps browser (nextSlide ver).
Proof. destruct ver; keeps_frame. Qed.

Lemma prevSlide_keeps_browser ver : keeps browser (prevSlide ver).
Proof. destruct ver; keeps_frame. Qed.

Lemma goToSlide_keeps_browser ver k : keeps browser (goToSlide ver k).
Proof. destruct ver; keeps_frame. Qed.

Lemma Inv_itemCount N w : Inv N w → itemCount w = Z.of_nat N.
Proof. unfold itemCount. now intros (_ & -> & _). Qed.

Lemma updateSlider_preserves_Inv N ver : preserves (Inv N) (updateSlider ver).
Proof.
  intros w Hw. apply (Inv_transfer N w); [| | |done].
  - apply (updateSlider_keeps_shape ver).
  - now rewrite (updateSlider_keeps_browser ver w).
  - rewrite (updateSlider_keeps_closure ver w). apply Hw.
Qed.

Lemma nextSlide_preserves_Inv N ver : preserves (Inv N) (nextSlide ver).
Proof.
  intros w Hw. apply (Inv_transfer N w); [| | |done].
  - apply (nextSlide_keeps_shape ver).
  - now rewrite (nextSlide_keeps_browser ver w).
  - fold (slideIndex (after (nextSlide ver w))).
    rewrite nextSlide_index, (Inv_itemCount N w Hw).
    apply next_index_range; [|apply Hw].
    destruct Hw as (_ & _ & ? & _). lia.
Qed.

Lemma prevSlide_preserves_Inv N ver : preserves (Inv N) (prevSlide ver).
Proof.
  intros w Hw. apply (Inv_transfer N w); [| | |done].
  - apply (prevSlide_keeps_shape ver).
  - now rewrite (prevSlide_keeps_browser ver w).
  - fold (slideIndex (after (prevSlide ver w))).
    rewrite prevSlide_index, (Inv_itemCount N w Hw).
    apply prev_index_range; [|apply Hw].
    destruct Hw as (_ & _ & ? & _). lia.
Qed.

Lemma goToSlide_preserves_Inv N ver (k : nat) :
  (k < N)%nat → preserves (Inv N) (goToSlide ver (Z.of_nat k)).
Proof.
  intros Hk w Hw. apply (Inv_transfer N w); [| | |done].
  - apply (goToSlide_keeps_shape ver).
  - now rewrite (goToSlide_keeps_browser ver _ w).
  - fold (slideIndex (after (goToSlide ver (Z.of_nat k) w))).
    rewrite goToSlide_index. lia.
Qed.

Create HintDb inv.

#[local] Hint Resolve updateSlider_preserves_Inv nextSlide_preserves_Inv
  prevSlide_preserves_Inv : inv.

(** Closes [Inv] after a primitive write: lengths are those of the lists
    mapped over, a listener added is not a dot listener or is one for an
    index below [N], a listener removed leaves the others. *)
Ltac inv_fin :=
  unfold Inv in *; simpl in *; rewrite ?length_map, ?length_imap;
  repeat match goal with H : _ ∧ _ |- _ => destruct H end;
  repeat split; try assumption; try lia;
  try (let k := fresh "k" in
       let Hk := fresh "Hk" in
       intros k Hk;
       first
         [ apply elem_of_app in Hk as [Hk|Hk];
           [ auto
           | apply list_elem_of_singleton in Hk;
             first [ discriminate | injection Hk as ->; lia ] ]
         | apply list_elem_of_filter in Hk as [_ Hk]; auto ]).

Ltac inv_frame :=
  repeat first
    [ solve [auto with inv nocore]
    | preserves_step
    | unfold_head ];
  inv_fin.

Lemma onDotClick_preserves_Inv N ver (index : nat) :
  (index < N)%nat → preserves (Inv N) (onDotClick ver index).
Proof.
  intros Hk. unfold onDotClick.
  apply preserves_bind; [now apply goToSlide_preserves_Inv|].
  intros _. inv_frame.
Qed.

Lemma dispatch_preserves_Inv N ver e : preserves (Inv N) (dispatch ver e).
Proof.
  destruct e; try (destruct ver; inv_frame; fail).
  simpl. intros w Hw.
  destruct (attached (OnDotClick index) w) eqn:Ha.
  - rewrite (listening_attached _ _ _ Ha).
    apply onDotClick_preserves_Inv; [|done].
    apply Hw. now apply bool_decide_eq_true in Ha.
  - now rewrite (listening_detached _ _ _ Ha).
Qed.

Lemma step_preserves_Inv N ver e w : Inv N w → Inv N (step ver e w).
Proof.
  intros Hw. pose proof (dispatch_preserves_Inv N ver e w Hw) as Hd.
  destruct (step_unfold ver e w) as [->|[err ->]]; [done|]. apply Hd.
Qed.

Lemma run_preserves_Inv N ver es w : Inv N w → Inv N (run ver es w).
Proof.
  revert w. induction es as [|e es IH]; intros w Hw; [done|].
  simpl. apply IH. now apply step_preserves_Inv.
Qed.

Lemma script_preserves_Inv N ver : preserves (Inv N) (script ver).
Proof. destruct ver; inv_frame. Qed.

Lemma boot_Inv ver width io p d :
  dots_match d →
  Inv (length (testimonialItems d)) (boot ver width io p d).
Proof.
  intros [Hd Hn]. unfold boot.
  apply step_preserves_Inv, script_preserves_Inv.
  unfold Inv. simpl. repeat split; try done; try lia.
  intros k Hk. now apply elem_of_nil in Hk.
Qed.

Lemma autoPlayTick_preserves_Inv N ver : preserves (Inv N) (autoPlayTick ver).
Proof. destruct ver; inv_frame. Qed.

Lemma onTouchEnd_preserves_Inv N ver x : preserves (Inv N) (onTouchEnd ver x).
Proof. destruct ver; inv_frame. Qed.

(** C9: on a page with as many dots as testimonial items, n >= 1, the
    index satisfies 0 <= currentSlide < n when the carousel starts, in
    every world the page reaches afterwards, and after each operation
    run there: [nextSlide], [prevSlide], an autoplay tick, a touch swipe,
    [goToSlide] with the index of any dot, and any event at all. *)
Theorem index_stays_in_range (ver : Version) (width : Z) (observer : bool)
    (p : Page) (d : CarouselDom) :
  dots_match d →
  index_in_range (boot ver width observer p d)
  ∧ ∀ es : list Event,
      let w := run ver es (boot ver width observer p d) in
      index_in_range w
      ∧ index_in_range (after (nextSlide ver w))
      ∧ index_in_range (after (prevSlide ver w))
      ∧ index_in_range (after (autoPlayTick ver w))
      ∧ (∀ clientX, index_in_range (after (onTouchEnd ver clientX w)))
      ∧ (∀ k : nat, (k < length (dots (cdom w)))%nat →
           index_in_range (after (goToSlide ver (Z.of_nat k) w)))
      ∧ (∀ e, index_in_range (step ver e w)).
Proof.
  intros Hd. pose proof (boot_Inv ver width observer p d Hd) as Hb.
  set (N := length (testimonialItems d)) in *.
  split; [now apply (Inv_index N)|].
  intros es w.
  assert (Hw : Inv N w) by now apply run_preserves_Inv.
  repeat split; try apply (Inv_index N w Hw).
  - now apply (Inv_index N), nextSlide_preserves_Inv.
  - now apply (Inv_index N), nextSlide_preserves_Inv.
  - now apply (Inv_index N), prevSlide_preserves_Inv.
  - now apply (Inv_index N), prevSlide_preserves_Inv.
  - now apply (Inv_index N), autoPlayTick_preserves_Inv.
  - now apply (Inv_index N), autoPlayTick_preserves_Inv.
  - now apply (Inv_index N), onTouchEnd_preserves_Inv.
  - now apply (Inv_index N), onTouchEnd_preserves_Inv.
  - apply (Inv_index N), goToSlide_preserves_Inv; [|done].
    destruct Hw as (<- & _). done.
  - apply (Inv_index N), goToSlide_preserves_Inv; [|done].
    destruct Hw as (<- & _). done.
  - now apply (Inv_index N), step_preserves_Inv.
  - now apply (Inv_index N), step_preserves_Inv.
Qed.

Lemma demo_dots_match : dots_match demo_dom.
Proof. split; [reflexivity | simpl; lia]. Defined.

Lemma index_stays_in_range_witness :
  dots_match demo_dom
  ∧ index_in_range (run V1 [ClickNext; ClickDot 1; TimerFire 4]
                      (boot V1 1024 true demo_page demo_dom)).
Proof.
  split; [exact demo_dots_match|].
  destruct (index_stays_in_range V1 1024 true demo_page demo_dom demo_dots_match)
    as [_ Hall].
  pose proof (Hall [ClickNext; ClickDot 1; TimerFire 4]) as Hes.
  cbv zeta in Hes. destruct Hes as [Hrange _]. exact Hrange.
Defined.

(** * Errors during initialisation *)

Fixpoint sequence (ms : list (M unit)) : M unit :=
  match ms with
  | [] => mret tt
  | m :: ms' => m;; sequence ms'
  end.

Lemma sequence_app_throw (pre : list (M unit)) (m : M unit)
    (post : list (M unit)) w w1 w2 e :
  sequence pre w = (w1, Normal tt) → m w1 = (w2, Throw e) →
  sequence (pre ++ m :: post)%list w = (w2, Throw e).
Proof.
  revert w. induction pre as [|m0 pre IH]; intros w Hpre Hm; simpl in *.
  - injection Hpre as <-. unfold mbind, M_bind. now rewrite Hm.
  - unfold mbind, M_bind in *.
    destruct (m0 w) as [w' [[]|e']]; [now apply IH | done].
Qed.

Section InitErrors.

Variable ver : Version.

Variables smoothScrolling scrollAnimations hoverAnimations testimonialSlider
          loadingAnimation mobileMenu formValidation backToTop
          businessHoursInit newsletterSignup responsiveLayout : M unit.

(** The initialisers [initCoffeeWebsite] calls, in order. *)
Definition initialiser_list : list (M unit) :=
  match ver with
  | V1 => [ smoothScrolling; scrollAnimations; hoverAnimations;
            testimonialSlider; loadingAnimation; mobileMenu; formValidation;
            backToTop; businessHoursInit; newsletterSignup ]
  | V2 => [ smoothScrolling; scrollAnimations; hoverAnimations;
            testimonialSlider; loadingAnimation; mobileMenu; responsiveLayout ]
  end.

Definition called_initialisers : M unit :=
  initialisers ver smoothScrolling scrollAnimations hoverAnimations
    testimonialSlider loadingAnimation mobileMenu formValidation backToTop
    businessHoursInit newsletterSignup responsiveLayout.

Definition init : M unit :=
  initCoffeeWebsite_with ver smoothScrolling scrollAnimations hoverAnimations
    testimonialSlider loadingAnimation mobileMenu formValidation backToTop
    businessHoursInit newsletterSignup responsiveLayout.

Lemma initialisers_sequence w :
  called_initialisers w = sequence initialiser_list w.
Proof.
  unfold called_initialisers, initialisers, initialiser_list.
  destruct ver; simpl; unfold mbind, M_bind, mret, M_ret;
    repeat match goal with
           | |- context [let (_, _) := ?m ?w in _] =>
               destruct (m w) as [? [[]|?]]; try reflexivity
           end.
Qed.

Definition error_banner : string := "❌ Error initializing Coffee Website:".

(** C3: whatever the initialisers do, [initCoffeeWebsite] returns
    normally; and when one of them throws an error e (those before it
    having returned), the catch clause logs e with [console.error] and
    nothing else happens after the throw. *)
Theorem init_errors_caught (w : World) :
  let w0 := after (console_log "🚀 Initializing Coffee Website..." w) in
  result (init w) = Normal tt
  ∧ ∀ (pre : list (M unit)) (m : M unit) (post : list (M unit)) w1 w2 e,
      initialiser_list = (pre ++ m :: post)%list →
      sequence pre w0 = (w1, Normal tt) →
      m w1 = (w2, Throw e) →
      after (init w) = with_browser (add_console (ConsoleError error_banner e)) w2.
Proof.
  intros w0.
  assert (Hinit : init w
    = tryCatch (called_initialisers;;
                console_log "✅ Coffee Website initialized successfully!")
               (λ error, console_error error_banner error) w0) by reflexivity.
  rewrite Hinit. unfold tryCatch, mbind, M_bind. split.
  - unfold result. destruct (called_initialisers w0) as [w' [[]|e]]; done.
  - intros pre m post w1 w2 e Hl Hpre Hm.
    pose proof (sequence_app_throw pre m post w0 w1 w2 e Hpre Hm) as Hs.
    rewrite <- Hl, <- initialisers_sequence in Hs.
    now rewrite Hs.
Qed.

End InitErrors.

(** The sample page without its next button. *)
Definition demo_no_next : World :=
  page_load V1 1024 true demo_page (set_nextBtn None demo_dom).

Definition demo_started : World :=
  after (console_log "🚀 Initializing Coffee Website..." demo_no_next).

Definition demo_before_slider : list (M unit) :=
  [initSmoothScrolling V1; initScrollAnimations V1; initHoverAnimations V1].

(** The world in which [initTestimonialSlider] is called there, and the
    one in which it throws. *)
Definition demo_called : World :=
  Eval vm_compute in after (sequence demo_before_slider demo_started).

Definition demo_thrown : World :=
  Eval vm_compute in after (initTestimonialSlider V1 demo_called).

Lemma demo_called_run :
  sequence demo_before_slider demo_started = (demo_called, Normal tt).
Proof. vm_compute. reflexivity. Defined.

Lemma demo_thrown_run :
  initTestimonialSlider V1 demo_called
  = (demo_thrown, Throw (null_read "addEventListener")).
Proof. vm_compute. reflexivity. Defined.

Lemma initCoffeeWebsite_init ver :
  initCoffeeWebsite ver
  = init ver (initSmoothScrolling ver) (initScrollAnimations ver)
      (initHoverAnimations ver) (initTestimonialSlider ver)
      (initLoadingAnimation ver) (initMobileMenu ver)
      (initFormValidation ver) (initBackToTop ver) (initBusinessHours ver)
      (initNewsletterSignup ver) handleResponsiveLayout.
Proof. reflexivity. Defined.

Lemma init_errors_caught_witness :
  result (initCoffeeWebsite V1 demo_no_next) = Normal tt
  ∧ after (initCoffeeWebsite V1 demo_no_next)
    = with_browser
        (add_console (ConsoleError error_banner (null_read "addEventListener")))
        demo_thrown.
Proof.
  pose proof (init_errors_caught V1
                (initSmoothScrolling V1) (initScrollAnimations V1)
                (initHoverAnimations V1) (initTestimonialSlider V1)
                (initLoadingAnimation V1) (initMobileMenu V1)
                (initFormValidation V1) (initBackToTop V1)
                (initBusinessHours V1) (initNewsletterSignup V1)
                handleResponsiveLayout demo_no_next) as Hinit.
  cbv zeta in Hinit. destruct Hinit as [Hreturns Hcaught].
  rewrite initCoffeeWebsite_init.
  split; [exact Hreturns|].
  exact (Hcaught demo_before_slider (initTestimonialSlider V1)
           [initLoadingAnimation V1; initMobileMenu V1;
            initFormValidation V1; initBackToTop V1;
            initBusinessHours V1; initNewsletterSignup V1]
           demo_called demo_thrown (null_read "addEventListener")
           eq_refl demo_called_run demo_thrown_run).
Defined.

(** * What the operations write *)

(** The classes of each dot other than 'active'. *)
Definition dot_other_classes (d : CarouselDom) : list (list string) :=
  map (λ dot, filter (λ c, c ≠ "active") (dotClasses dot)) (dots d).

(** What no carousel operation writes: the constants, the rest of the
    page, the debounce handles, the viewport, the listeners, the items,
    which elements exist, the other classes of the dots, the playing
    flag. *)
Definition static_view (w : World) :=
  (CONFIG w, VALIDATION w, page w, debounced w,
   innerWidth (browser w), hasIntersectionObserver (browser w),
   listeners (browser w), testimonialItems (cdom w), shape (cdom w),
   dot_other_classes (cdom w), isPlaying (closure w)).

(** The operations of the carousel among the events: its click, hover
    and touch listeners, and the firing of an autoplay interval or of a
    resume timeout. *)
Definition carousel_event (e : Event) (w : World) : bool :=
  match e with
  | ClickPrev | ClickNext | ClickDot _ | MouseEnter | MouseLeave
  | TouchStart _ | TouchMove | TouchEnd _ => true
  | TimerFire h =>
      match find_timer h (timers (browser w)) with
      | Some t =>
          match callback t with
          | AutoPlayTick | StartAutoPlay => true
          | _ => false
          end
      | None => false
      end
  | _ => false
  end.

Lemma filter_toggle_other token force cl :
  filter (λ c, c ≠ token) (classList_toggle token force cl)
  = filter (λ c, c ≠ token) cl.
Proof.
  unfold classList_toggle. destruct force.
  - case_bool_decide; [done|].
    rewrite filter_app, filter_cons, decide_False by (intros H'; now apply H').
    apply app_nil_r.
  - induction cl as [|c cl IH]; [done|].
    rewrite !filter_cons. destruct (decide (c ≠ token)).
    + rewrite filter_cons, decide_True by done. now rewrite IH.
    + done.
Qed.

Lemma map_imap_same {A B C} (f : B → C) (g : nat → A → B) (h : A → C) l :
  (∀ i x, f (g i x) = h x) → map f (imap g l) = map h l.
Proof.
  revert g. induction l as [|x l IH]; intros g Hg; [done|].
  simpl. rewrite Hg. f_equal. apply IH. intros i y. apply Hg.
Qed.

Lemma updateSlider_keeps_other_classes ver :
  keeps (λ w, dot_other_classes (cdom w)) (updateSlider ver).
Proof.
  unfold updateSlider. apply keeps_bind.
  - apply (keeps_weaken id), getSlideWidth_pure.
  - intros sw. apply keeps_preserves. intros v.
    repeat preserves_step; try (simpl in *; assumption).
    simpl. unfold dot_other_classes in *. simpl.
    erewrite map_imap_same; [eassumption|].
    intros i dot. simpl. apply filter_toggle_other.
Qed.

Lemma keeps_pair {A B C} (f : World → B) (g : World → C) (m : M A) :
  keeps f m → keeps g m → keeps (λ w, (f w, g w)) m.
Proof. intros Hf Hg w. now rewrite Hf, Hg. Qed.

Lemma updateSlider_keeps_VALIDATION ver : keeps VALIDATION (updateSlider ver).
Proof. destruct ver; keeps_frame. Qed.

Lemma updateSlider_keeps_page ver : keeps page (updateSlider ver).
Proof. destruct ver; keeps_frame. Qed.

Lemma updateSlider_keeps_debounced ver : keeps debounced (updateSlider ver).
Proof. destruct ver; keeps_frame. Qed.

Lemma updateSlider_keeps_static ver : keeps static_view (updateSlider ver).
Proof.
  intros w. unfold static_view.
  rewrite (updateSlider_keeps_CONFIG ver w), (updateSlider_keeps_VALIDATION ver w),
    (updateSlider_keeps_page ver w), (updateSlider_keeps_debounced ver w),
    (updateSlider_keeps_browser ver w), (updateSlider_keeps_items ver w),
    (updateSlider_keeps_shape ver w), (updateSlider_keeps_other_classes ver w),
    (updateSlider_keeps_closure ver w).
  reflexivity.
Qed.

#[local] Hint Resolve updateSlider_keeps_static : keeps.

Ltac static_fin := try (unfold static_view in *; simpl in *; assumption).

Lemma carousel_dispatch_keeps_static ver e w :
  carousel_event e w = true →
  static_view (after (dispatch ver e w)) = static_view w.
Proof.
  intros He.
  assert (Hk : ∀ m : M unit, keeps static_view m →
            static_view (after (m w)) = static_view w) by (intros m Hm; apply Hm).
  destruct e; try discriminate He; simpl dispatch.
  1-8: apply Hk; apply keeps_preserves; intros ?;
       destruct ver; frame_with static_fin.
  unfold onTimer. simpl in He.
  change ((get ?f ≫= ?k) w) with (k (f w) w). cbv beta.
  destruct (find_timer handle (timers (browser w))) as [t|]; [|done].
  apply Hk. apply keeps_preserves; intros ?.
  destruct (callback t); try discriminate He;
    destruct ver; simpl runCallback; frame_with static_fin.
Qed.

(** [console.log] and [console.error] are not called by any of them. *)
Lemma carousel_dispatch_keeps_console ver e w :
  carousel_event e w = true →
  console (browser (after (dispatch ver e w))) = console (browser w).
Proof.
  intros He.
  assert (Hk : ∀ m : M unit, keeps (λ w, console (browser w)) m →
            console (browser (after (m w))) = console (browser w))
    by (intros m Hm; apply Hm).
  destruct e; try discriminate He; simpl dispatch.
  1-8: apply Hk; destruct ver; keeps_frame.
  unfold onTimer. simpl in He.
  change ((get ?f ≫= ?k) w) with (k (f w) w). cbv beta.
  destruct (find_timer handle (timers (browser w))) as [t|]; [|done].
  apply Hk.
  destruct (callback t); try discriminate He;
    destruct ver; simpl runCallback; keeps_frame.
Qed.

(** State that is neither a variable of the carousel closure nor a class
    or a style of a node: the constants and the [disabled] property of
    the two buttons. *)
Definition unstyled (w : World) :=
  (CONFIG w, VALIDATION w, prevBtn (cdom w), nextBtn (cdom w)).

(** C6, as stated, fails: a click on the next button from the first
    slide writes [prevBtn.disabled], which is neither a closure variable
    nor a class or style. *)
Lemma disabled_is_written :
  unstyled (step V1 ClickNext demo) ≠ unstyled demo.
Proof. vm_compute. intros H. discriminate H. Qed.

(** C6, amended: no event of the page (listener, timer callback or
    initialiser, in either revision) writes [CONFIG] or [VALIDATION]; and
    a carousel operation writes only the closure's variables, the timer
    table, the slider's transform, the 'active' class of the dots and the
    [disabled] property of the two buttons (an exception that escapes is
    reported on the console). *)
Theorem writes_are_framed (ver : Version) (e : Event) (w : World) :
  CONFIG (step ver e w) = CONFIG w
  ∧ VALIDATION (step ver e w) = VALIDATION w
  ∧ (carousel_event e w = true →
       static_view (step ver e w) = static_view w
       ∧ (console (browser (step ver e w)) = console (browser w)
          ∨ ∃ err, console (browser (step ver e w))
                   = (console (browser w) ++ [Uncaught err])%list)).
Proof.
  split; [apply step_keeps_CONFIG|]. split; [apply step_keeps_VALIDATION|].
  intros He.
  pose proof (carousel_dispatch_keeps_static ver e w He) as Hs.
  pose proof (carousel_dispatch_keeps_console ver e w He) as Hc.
  destruct (step_unfold ver e w) as [->|[err ->]].
  - split; [done|now left].
  - split; [exact Hs|]. right. exists err. simpl. now rewrite Hc.
Qed.

Lemma writes_are_framed_witness :
  carousel_event ClickNext demo = true
  ∧ static_view (step V1 ClickNext demo) = static_view demo.
Proof.
  split; [reflexivity|].
  destruct (writes_are_framed V1 ClickNext demo) as (_ & _ & Hframe).
  destruct (Hframe eq_refl) as [Hstatic _]. exact Hstatic.
Defined.

(** * Missing elements *)

(** Without the slider or without dots [initTestimonialSlider] does
    nothing (the first revision has logged its banner by then). *)
Lemma initTestimonialSlider_guard ver w :
  slider (cdom w) = None ∨ dots (cdom w) = [] →
  initTestimonialSlider ver w
  = match ver with
    | V1 => console_log "💬 Initializing testimonial slider..." w
    | V2 => (w, Normal tt)
    end.
Proof.
  intros Hg. unfold initTestimonialSlider.
  assert (Hb : bool_decide (slider (cdom w) = None)
               || bool_decide (length (dots (cdom w)) = 0%nat) = true).
  { destruct Hg as [->| ->]; [done|]. simpl. apply orb_true_r. }
  destruct ver; run_m; rewrite Hb; reflexivity.
Qed.

(** A click on a navigation link whose target does not exist scrolls
    nowhere. *)
Lemma onNavLinkClick_absent i targetId w :
  navLinks (page w) !! i = Some targetId →
  targetId ∉ badSelectors (page w) →
  targetId ∉ anchors (page w) →
  onNavLinkClick i w = (w, Normal tt).
Proof.
  intros Hl Hb Ha. unfold onNavLinkClick, query. run_m. rewrite Hl. run_m.
  rewrite bool_decide_eq_false_2 by done. run_m.
  now rewrite bool_decide_eq_false_2 by done.
Qed.

(** With the slider, a dot and one button but not the other, the
    initialiser throws where it attaches the click listener. *)
Lemma initTestimonialSlider_missing_button ver w :
  present (slider (cdom w)) = true → dots (cdom w) ≠ [] →
  present (prevBtn (cdom w)) = false ∨
  (present (prevBtn (cdom w)) = true ∧ present (nextBtn (cdom w)) = false) →
  result (initTestimonialSlider ver w) = Throw (null_read "addEventListener").
Proof.
  intros Hs Hd Hb. unfold initTestimonialSlider, result.
  assert (Hg : bool_decide (slider (cdom w) = None)
               || bool_decide (length (dots (cdom w)) = 0%nat) = false).
  { destruct (slider (cdom w)); [|done]. destruct (dots (cdom w)); done. }
  destruct (prevBtn (cdom w)) eqn:Hp, (nextBtn (cdom w)) eqn:Hn;
    simpl in Hb; try (destruct Hb as [?|[? ?]]; discriminate);
    destruct ver; run_m; rewrite Hg; run_m; rewrite ?Hp, ?Hn; reflexivity.
Qed.

(** Second revision: on a narrow viewport without a [nav] element the
    mobile menu throws where it appends the hamburger button. *)
Lemma initMobileMenu_missing_nav w bp :
  breakpoints (CONFIG w) = Some bp →
  innerWidth (browser w) ≤ mobileLarge bp →
  hamburger (page w) = None →
  hasNav (page w) = false →
  result (initMobileMenu V2 w) = Throw (null_read "appendChild").
Proof.
  intros Hbp Hw Hh Hn. unfold initMobileMenu, isMobile, read_breakpoint, result.
  run_m. rewrite Hbp. run_m.
  destruct (Z.leb_spec (innerWidth (browser w)) (mobileLarge bp)); [|lia].
  run_m. rewrite Hh. run_m. now rewrite Hn.
Qed.

(** The page of the sample without its next button, once loaded. *)
Definition demo_broken : World :=
  Eval vm_compute in boot V1 1024 true demo_page (set_nextBtn None demo_dom).

(** C2 fails on the code: on a page that has the slider, the dots and
    [#prevBtn] but no [#nextBtn], [initTestimonialSlider] throws a
    TypeError at [nextBtn.addEventListener]; the catch clause of
    [initCoffeeWebsite] logs it and the initialisers after it never run
    (no load listener); the click listener already attached to [#prevBtn]
    then throws in [updateSlider] at [nextBtn.disabled]. *)
Theorem missing_button_throws :
  result (initTestimonialSlider V1 demo_called)
  = Throw (null_read "addEventListener")
  ∧ ConsoleError error_banner (null_read "addEventListener")
    ∈ console (browser demo_broken)
  ∧ attached OnLoad demo_broken = false
  ∧ attached OnPrevClick demo_broken = true
  ∧ result (dispatch V1 ClickPrev demo_broken) = Throw (null_write "disabled")
  ∧ result (updateSlider V1 demo_broken) = Throw (null_write "disabled").
Proof.
  split; [vm_compute; reflexivity|].
  split; [vm_compute; repeat constructor|].
  repeat split; vm_compute; reflexivity.
Qed.

(** * Pause on hover *)

(** The timer with handle [h] is an autoplay interval. *)
Definition is_autoplay (h : nat) (w : World) : bool :=
  match find_timer h (timers (browser w)) with
  | Some t => match callback t with AutoPlayTick => true | _ => false end
  | None => false
  end.

(** Along a trace: does an autoplay interval fire and move the slide
    between a [mouseenter] and the next [mouseleave]?  [hovered] tells
    whether the pointer is over the slider when the trace starts. *)
Fixpoint advances_while_hovered (ver : Version) (hovered : bool)
    (es : list Event) (w : World) : bool :=
  match es with
  | [] => false
  | e :: es' =>
      let w' := step ver e w in
      let hit :=
        match e with
        | TimerFire h =>
            hovered && is_autoplay h w && negb (slideIndex w' =? slideIndex w)
        | _ => false
        end in
      let hovered' :=
        match e with
        | MouseEnter => true
        | MouseLeave => false
        | _ => hovered
        end in
      hit || advances_while_hovered ver hovered' es' w'
  end.

(** What does hold: [mouseenter] clears the interval whose handle is in
    [autoPlayInterval]. *)
Lemma find_timer_filter h ts :
  find_timer h (filter (λ t, t.1 ≠ h) ts) = None.
Proof.
  induction ts as [|[h' t] ts IH]; [done|].
  rewrite filter_cons. simpl. destruct (decide (h' ≠ h)) as [Hne|Heq].
  - simpl. now rewrite bool_decide_eq_false_2.
  - done.
Qed.

Lemma mouseenter_clears_current ver w h :
  attached OnMouseEnter w = true →
  isPlaying (closure w) = true →
  autoPlayInterval (closure w) = Some h →
  find_timer h (timers (browser (step ver MouseEnter w))) = None.
Proof.
  intros Ha Hp Hh. unfold step. simpl dispatch.
  rewrite (listening_attached _ _ _ Ha).
  unfold onMouseEnter, stopAutoPlay, clearInterval, clearTimer. run_m.
  rewrite Hp. run_m. rewrite Hh. run_m. apply find_timer_filter.
Qed.

(** When that interval is the only timer, none is left to fire. *)
Lemma mouseenter_quiet ver w h t :
  attached OnMouseEnter w = true →
  isPlaying (closure w) = true →
  autoPlayInterval (closure w) = Some h →
  timers (browser w) = [(h, t)] →
  timers (browser (step ver MouseEnter w)) = [].
Proof.
  intros Ha Hp Hh Ht. unfold step. simpl dispatch.
  rewrite (listening_attached _ _ _ Ha).
  unfold onMouseEnter, stopAutoPlay, clearInterval, clearTimer. run_m.
  rewrite Hp. run_m. rewrite Hh. run_m. rewrite Ht.
  rewrite filter_cons. simpl. now rewrite decide_False by (intros H'; now apply H').
Qed.

(** [mouseleave] starts a new interval and keeps its handle. *)
Lemma mouseleave_restarts ver w :
  attached OnMouseLeave w = true →
  isPlaying (closure w) = true →
  let w' := step ver MouseLeave w in
  autoPlayInterval (closure w') = Some (nextHandle (browser w))
  ∧ (nextHandle (browser w),
     {| kind := Repeating; delay := testimonialInterval (CONFIG w);
        callback := AutoPlayTick |}) ∈ timers (browser w').
Proof.
  intros Ha Hp. unfold step. simpl dispatch.
  rewrite (listening_attached _ _ _ Ha).
  unfold onMouseLeave, startAutoPlay, setInterval, setTimer. run_m.
  rewrite Hp. run_m. split; [done|].
  apply elem_of_app. right. now left.
Qed.

(** *** Traces with a clock

    The event loop above lets any live timer fire at any point.  A trace
    with times is one the browser can produce when every timer fires
    exactly when it is due (an interval again one period later) and no
    event is delivered past the due time of a live timer. *)

Definition Schedule := list (nat * Z).

Fixpoint due_of (h : nat) (s : Schedule) : option Z :=
  match s with
  | [] => None
  | (h', d) :: s' => if bool_decide (h' = h) then Some d else due_of h s'
  end.

(** Due times after an event at time [t]: a timer set by the event, and
    the interval that has just fired, are due one delay later. *)
Definition reschedule (t : Z) (e : Event) (s : Schedule) (w' : World) : Schedule :=
  map (λ p : nat * Timer,
         (p.1,
          match due_of p.1 s with
          | None => t + delay p.2
          | Some d =>
              match e with
              | TimerFire h => if bool_decide (h = p.1) then t + delay p.2 else d
              | _ => d
              end
          end))
      (timers (browser w')).

Fixpoint realizable (ver : Version) (now : Z) (s : Schedule)
    (es : list (Z * Event)) (w : World) : bool :=
  match es with
  | [] => true
  | (t, e) :: es' =>
      (now <=? t)
      && forallb (λ p : nat * Z, t <=? p.2) s
      && match e with
         | TimerFire h =>
             match due_of h s with Some d => d =? t | None => false end
         | _ => true
         end
      && realizable ver t (reschedule t e s (step ver e w)) es' (step ver e w)
  end.

(** The schedule of a page loaded at time 0. *)
Definition initial_schedule (w : World) : Schedule :=
  map (λ p : nat * Timer, (p.1, delay p.2)) (timers (browser w)).

Definition untimed (es : list (Z * Event)) : list Event := map snd es.

(** A second way to the same failure: two quick clicks leave two resume
    timeouts; both fire, the second [startAutoPlay] overwrites the handle
    of the first interval, which no [clearInterval] can reach any more. *)
Definition leak_trace : list (Z * Event) :=
  [ (1000, ClickNext); (1500, ClickNext); (11000, TimerFire 2);
    (11500, TimerFire 3); (12000, MouseEnter); (16000, TimerFire 4) ].

Lemma hover_leaked_interval :
  realizable V1 0 (initial_schedule demo) leak_trace demo = true
  ∧ advances_while_hovered V1 false (untimed leak_trace) demo = true
  ∧ autoPlayInterval (closure (run V1 (untimed leak_trace) demo)) = Some 5%nat
  ∧ is_autoplay 4 (run V1 (untimed leak_trace) demo) = true.
Proof. repeat split; vm_compute; reflexivity. Qed.

(** The trace of the failure below, with its times in milliseconds. *)
Definition hover_trace : list (Z * Event) :=
  [ (1000, ClickNext); (2000, MouseEnter); (11000, TimerFire 2);
    (16000, TimerFire 3) ].

(** C4 fails on the code: after a click on the next button the resume
    timeout (handle 2) is pending; the pointer then enters the slider;
    the timeout fires and starts a new interval (handle 3) although the
    pointer is still over the slider; that interval fires and moves the
    carousel from slide 1 to slide 2 before any [mouseleave].  The trace
    keeps to the delays of the timers. *)
Theorem hover_does_not_pause :
  let trace := untimed hover_trace in
  let hovering := run V1 [ClickNext; MouseEnter] demo in
  realizable V1 0 (initial_schedule demo) hover_trace demo = true
  ∧ isPlaying (closure hovering) = true
  ∧ timers (browser hovering)
    = [(2%nat, {| kind := OneShot; delay := 10000; callback := StartAutoPlay |})]
  ∧ timers (browser (step V1 (TimerFire 2) hovering))
    = [(3%nat, {| kind := Repeating; delay := 5000; callback := AutoPlayTick |})]
  ∧ slideIndex hovering = 1
  ∧ slideIndex (run V1 trace demo) = 2
  ∧ advances_while_hovered V1 false trace demo = true.
Proof. repeat split; vm_compute; reflexivity. Qed.

(** * Further properties of the carousel *)

Lemma step_browser_timers ver e w :
  timers (browser (step ver e w)) = timers (browser (after (dispatch ver e w))).
Proof. unfold step, after. now destruct (dispatch ver e w) as [w' [a|err]]. Qed.

Lemma step_listeners ver e w :
  listeners (browser (step ver e w))
  = listeners (browser (after (dispatch ver e w))).
Proof. unfold step, after. now destruct (dispatch ver e w) as [w' [a|err]]. Qed.

Lemma prev_index_mod n i : 1 ≤ n → 0 ≤ i < n → prev_index n i = (i - 1) mod n.
Proof.
  intros Hn Hi. unfold prev_index. destruct (Z.gtb_spec i 0).
  - symmetry. apply Z.mod_small. lia.
  - apply (Z.mod_unique_pos _ _ (-1)); lia.
Qed.

Lemma onPrevClick_index ver w :
  slideIndex (after (onPrevClick ver w)) = prev_index (itemCount w) (slideIndex w).
Proof.
  unfold onPrevClick.
  rewrite (after_bind_keeps slideIndex); [apply prevSlide_index|].
  intros _. apply stop_resume_keeps_slideIndex.
Qed.

(** X1: with n >= 1 items and the index i in [0, n), a click on the prev
    button reaches the listener only while the button is enabled; it
    then leaves the index at (i - 1) mod n.  A click on the disabled
    button changes nothing.  With the flag as [updateSlider] writes it,
    disabled exactly on the first slide, a click hence moves from i to
    i - 1 above the first slide and is ignored on the first slide. *)
Theorem prev_click_retreats (ver : Version) (w : World) (n i : Z) :
  attached OnPrevClick w = true →
  itemCount w = n → slideIndex w = i → 1 ≤ n → 0 ≤ i < n →
  (enabled (prevBtn (cdom w)) = true →
     slideIndex (step ver ClickPrev w) = (i - 1) mod n)
  ∧ (enabled (prevBtn (cdom w)) = false → step ver ClickPrev w = w)
  ∧ (prevBtn (cdom w) = Some {| disabled := i =? 0 |} →
       (0 < i → slideIndex (step ver ClickPrev w) = i - 1)
       ∧ (i = 0 → step ver ClickPrev w = w)).
Proof.
  intros Hl Hn Hi Hn1 Hr.
  assert (Hon : enabled (prevBtn (cdom w)) = true →
                slideIndex (step ver ClickPrev w) = prev_index n i).
  { intros He. unfold slideIndex. rewrite step_closure. simpl dispatch.
    rewrite (clicking_enabled _ _ _ _ He), (listening_attached _ _ _ Hl).
    fold (slideIndex (after (onPrevClick ver w))).
    rewrite onPrevClick_index. now rewrite Hn, Hi. }
  assert (Hoff : enabled (prevBtn (cdom w)) = false → step ver ClickPrev w = w).
  { intros He. unfold step. simpl dispatch.
    now rewrite (clicking_disabled _ _ _ _ He). }
  split; [|split; [exact Hoff|]].
  - intros He. rewrite (Hon He). now apply prev_index_mod.
  - intros Hb. split; intros H.
    + rewrite Hon.
      * unfold prev_index. destruct (Z.gtb_spec i 0); lia.
      * rewrite Hb. simpl. destruct (Z.eqb_spec i 0); [lia|done].
    + apply Hoff. rewrite Hb. simpl. destruct (Z.eqb_spec i 0); [done|lia].
Qed.

Lemma prev_click_retreats_witness :
  attached OnPrevClick demo_last = true
  ∧ itemCount demo_last = 3 ∧ slideIndex demo_last = 2
  ∧ enabled (prevBtn (cdom demo_last)) = true
  ∧ slideIndex (step V1 ClickPrev demo_last) = (2 - 1) mod 3.
Proof.
  assert (Hl : attached OnPrevClick demo_last = true) by (vm_compute; reflexivity).
  assert (Hn : itemCount demo_last = 3) by (vm_compute; reflexivity).
  assert (Hi : slideIndex demo_last = 2) by (vm_compute; reflexivity).
  assert (He : enabled (prevBtn (cdom demo_last)) = true)
    by (vm_compute; reflexivity).
  destruct (prev_click_retreats V1 demo_last 3 2 Hl Hn Hi) as [Hon _]; [lia|lia|].
  split; [exact Hl|]. split; [exact Hn|]. split; [exact Hi|].
  split; [exact He|]. exact (Hon He).
Defined.

(** [k] calls of [nextSlide], resp. [prevSlide], in a row. *)
Definition advance (ver : Version) (k : nat) (w : World) : World :=
  Nat.iter k (λ w, after (nextSlide ver w)) w.

Definition retreat (ver : Version) (k : nat) (w : World) : World :=
  Nat.iter k (λ w, after (prevSlide ver w)) w.

Lemma advance_itemCount ver k w : itemCount (advance ver k w) = itemCount w.
Proof.
  induction k as [|k IH]; [done|].
  unfold advance in *. simpl. now rewrite nextSlide_keeps_itemCount.
Qed.

Lemma retreat_itemCount ver k w : itemCount (retreat ver k w) = itemCount w.
Proof.
  induction k as [|k IH]; [done|].
  unfold retreat in *. simpl. now rewrite prevSlide_keeps_itemCount.
Qed.

Lemma advance_index ver k w :
  1 ≤ itemCount w → 0 ≤ slideIndex w < itemCount w →
  slideIndex (advance ver k w) = (slideIndex w + Z.of_nat k) mod itemCount w.
Proof.
  intros Hn Hi. induction k as [|k IH].
  - simpl. rewrite Z.add_0_r. symmetry. now apply Z.mod_small.
  - change (advance ver (S k) w) with (after (nextSlide ver (advance ver k w))).
    rewrite nextSlide_index, advance_itemCount, IH.
    rewrite next_index_mod; [|done|apply Z.mod_pos_bound; lia].
    rewrite Zplus_mod_idemp_l. f_equal. lia.
Qed.

Lemma retreat_index ver k w :
  1 ≤ itemCount w → 0 ≤ slideIndex w < itemCount w →
  slideIndex (retreat ver k w) = (slideIndex w - Z.of_nat k) mod itemCount w.
Proof.
  intros Hn Hi. induction k as [|k IH].
  - simpl. rewrite Z.sub_0_r. symmetry. now apply Z.mod_small.
  - change (retreat ver (S k) w) with (after (prevSlide ver (retreat ver k w))).
    rewrite prevSlide_index, retreat_itemCount, IH.
    rewrite prev_index_mod; [|done|apply Z.mod_pos_bound; lia].
    rewrite Zminus_mod_idemp_l. f_equal. lia.
Qed.

(** X2: with n >= 1 items and the index i in [0, n), k calls of
    [nextSlide] leave the index at (i + k) mod n and k calls of
    [prevSlide] at (i - k) mod n; n calls of either bring the carousel
    back to slide i. *)
Theorem navigation_cycles (ver : Version) (w : World) (n i : Z) (k : nat) :
  itemCount w = n → slideIndex w = i → 1 ≤ n → 0 ≤ i < n →
  slideIndex (advance ver k w) = (i + Z.of_nat k) mod n
  ∧ slideIndex (retreat ver k w) = (i - Z.of_nat k) mod n
  ∧ slideIndex (advance ver (Z.to_nat n) w) = i
  ∧ slideIndex (retreat ver (Z.to_nat n) w) = i.
Proof.
  intros Hn Hi Hn1 Hr. subst n i.
  repeat split.
  - now apply advance_index.
  - now apply retreat_index.
  - rewrite advance_index by done. rewrite Z2Nat.id by lia.
    replace (slideIndex w + itemCount w)
      with (slideIndex w + 1 * itemCount w) by lia.
    rewrite Z_mod_plus_full. now apply Z.mod_small.
  - rewrite retreat_index by done. rewrite Z2Nat.id by lia.
    replace (slideIndex w - itemCount w)
      with (slideIndex w + (-1) * itemCount w) by lia.
    rewrite Z_mod_plus_full. now apply Z.mod_small.
Qed.

Lemma navigation_cycles_witness :
  itemCount demo = 3 ∧ slideIndex demo = 0
  ∧ slideIndex (advance V1 7 demo) = (0 + Z.of_nat 7) mod 3.
Proof.
  split; [reflexivity|]. split; [reflexivity|].
  pose proof (navigation_cycles V1 demo 3 0 7 eq_refl eq_refl) as Hc.
  destruct Hc as [Hadv _]; [lia|lia|]. exact Hadv.
Defined.

Lemma bind_normal {A B} (m : M A) (k : A → M B) w w' a :
  m w = (w', Normal a) → (m ≫= k) w = k a w'.
Proof. intros Hm. unfold mbind, M_bind. now rewrite Hm. Qed.

Lemma bind_throw {A B} (m : M A) (k : A → M B) w w' e :
  m w = (w', Throw e) → (m ≫= k) w = (w', Throw e).
Proof. intros Hm. unfold mbind, M_bind. now rewrite Hm. Qed.

Lemma getSlideWidth_normal ver w :
  constants_defined ver w → ∃ sw, getSlideWidth ver w = (w, Normal sw).
Proof.
  intros Hc. destruct (getSlideWidth_returns ver w Hc) as [sw Hsw].
  pose proof (getSlideWidth_pure ver w) as Hp. unfold id, after in Hp.
  exists sw. destruct (getSlideWidth ver w) as [w' c]. simpl in *. now subst.
Qed.

Lemma stop_resume_keeps_view : keeps view (stopAutoPlay;; resumeLater).
Proof. keeps_frame. Qed.

Lemma onDotClick_view ver k w :
  view (after (onDotClick ver k w))
  = view (after (updateSlider ver (with_closure (set_currentSlide (Z.of_nat k)) w))).
Proof.
  unfold onDotClick.
  rewrite (after_bind_keeps view); [reflexivity|].
  intros _. apply stop_resume_keeps_view.
Qed.

(** X3: a click on dot k makes k the current slide, whatever the number
    of items (the index is not checked against it); when the slider and
    both buttons exist, dot k is then the one dot carrying 'active'. *)
Theorem dot_click_selects (ver : Version) (w : World) (k : nat) :
  attached (OnDotClick k) w = true →
  slideIndex (step ver (ClickDot k) w) = Z.of_nat k
  ∧ (present (slider (cdom w)) = true →
     present (prevBtn (cdom w)) = true →
     present (nextBtn (cdom w)) = true →
     constants_defined ver w →
     ∀ j dot, dots (cdom (step ver (ClickDot k) w)) !! j = Some dot →
       "active" ∈ dotClasses dot ↔ j = k).
Proof.
  intros Hl.
  assert (Hv : view (step ver (ClickDot k) w)
             = view (after (updateSlider ver
                 (with_closure (set_currentSlide (Z.of_nat k)) w)))).
  { rewrite step_view. simpl dispatch. rewrite (listening_attached _ _ _ Hl).
    apply onDotClick_view. }
  split.
  - change (slideIndex (step ver (ClickDot k) w))
      with (view (step ver (ClickDot k) w)).1.
    rewrite Hv. unfold view. simpl. unfold slideIndex.
    now rewrite (updateSlider_keeps_closure ver _).
  - intros Hs Hp Hn Hc j dot.
    change (cdom (step ver (ClickDot k) w))
      with (view (step ver (ClickDot k) w)).2.
    rewrite Hv. unfold view. simpl.
    set (w1 := with_closure (set_currentSlide (Z.of_nat k)) w).
    destruct (getSlideWidth_normal ver w1) as [sw Hsw]; [done|].
    rewrite (updateSlider_spec ver w1 sw Hsw Hs Hp Hn). simpl.
    rewrite list_lookup_imap.
    destruct (dots (cdom w) !! j) as [dot0|]; [|done].
    intros [= <-]. simpl. rewrite classList_toggle_token, Z.eqb_eq.
    unfold slideIndex, w1. simpl. lia.
Qed.

Lemma dot_click_selects_witness :
  attached (OnDotClick 2) demo = true
  ∧ slideIndex (step V1 (ClickDot 2) demo) = Z.of_nat 2.
Proof.
  split; [reflexivity|].
  destruct (dot_click_selects V1 demo 2 eq_refl) as [Hindex _]. exact Hindex.
Defined.

Lemma nextSlide_keeps_timers ver :
  keeps (λ w, timers (browser w)) (nextSlide ver).
Proof. apply (keeps_weaken browser), nextSlide_keeps_browser. Qed.

(** X4: when an autoplay interval fires (the playing flag being set) the
    carousel moves to the next slide, wrapping after the last one, and
    the interval stays in the timer table to fire again. *)
Theorem autoplay_tick_advances (ver : Version) (w : World) (h : nat) (t : Timer) :
  find_timer h (timers (browser w)) = Some t →
  kind t = Repeating → callback t = AutoPlayTick →
  isPlaying (closure w) = true →
  slideIndex (step ver (TimerFire h) w) = next_index (itemCount w) (slideIndex w)
  ∧ find_timer h (timers (browser (step ver (TimerFire h) w))) = Some t.
Proof.
  intros Hf Hk Hc Hp.
  assert (Hd : dispatch ver (TimerFire h) w = nextSlide ver w).
  { simpl. unfold onTimer.
    change ((get ?f ≫= ?k) w) with (k (f w) w). cbv beta.
    rewrite Hf, Hk, Hc. simpl runCallback. unfold autoPlayTick.
    run_m. now rewrite Hp. }
  split.
  - unfold slideIndex at 1. rewrite step_closure, Hd. apply nextSlide_index.
  - rewrite step_browser_timers, Hd.
    now rewrite (nextSlide_keeps_timers ver w).
Qed.

Lemma autoplay_tick_advances_witness :
  find_timer 1 (timers (browser demo))
  = Some {| kind := Repeating; delay := 5000; callback := AutoPlayTick |}
  ∧ isPlaying (closure demo) = true
  ∧ slideIndex (step V1 (TimerFire 1) demo) = next_index 3 0.
Proof.
  split; [reflexivity|]. split; [reflexivity|].
  destruct (autoplay_tick_advances V1 demo 1
              {| kind := Repeating; delay := 5000; callback := AutoPlayTick |}
              eq_refl eq_refl eq_refl eq_refl) as [Hindex _].
  exact Hindex.
Defined.

Lemma nextSlide_unfold ver w :
  nextSlide ver w
  = updateSlider ver
      (with_closure (set_currentSlide (next_index (itemCount w) (slideIndex w))) w).
Proof.
  unfold nextSlide, next_index, itemCount, slideIndex.
  destruct ver; run_m; destruct (_ <? _); reflexivity.
Qed.

Lemma prevSlide_unfold ver w :
  prevSlide ver w
  = updateSlider ver
      (with_closure (set_currentSlide (prev_index (itemCount w) (slideIndex w))) w).
Proof.
  unfold prevSlide, prev_index, itemCount, slideIndex.
  destruct ver; run_m; destruct (_ >? _); reflexivity.
Qed.

(** The transform is written before the buttons are touched. *)
Lemma updateSlider_transform ver w sw :
  getSlideWidth ver w = (w, Normal sw) →
  present (slider (cdom w)) = true →
  slider (cdom (after (updateSlider ver w)))
  = Some {| transform := translateX_css (- slideIndex w * sw) |}.
Proof.
  intros Hsw Hs. unfold updateSlider. run_m. rewrite Hsw. run_m.
  destruct (slider (cdom w)); [|done]. run_m.
  destruct (prevBtn (cdom w)); run_m; [|reflexivity].
  destruct (nextBtn (cdom w)); run_m; reflexivity.
Qed.

Lemma getSlideWidth_no_items ver w :
  testimonialItems (cdom w) = [] → getSlideWidth ver w = (w, Normal 390).
Proof. intros Hi. unfold getSlideWidth. run_m. now rewrite Hi. Qed.

(** X5: with dots but no testimonial item the slide width falls back to
    390; [nextSlide] leaves the index at 0, but [prevSlide] sets it to
    -1 (the "last" of zero items) and shifts the slider to
    translateX(390px). *)
Theorem empty_carousel (ver : Version) (w : World) :
  testimonialItems (cdom w) = [] →
  -1 ≤ slideIndex w ≤ 0 →
  getSlideWidth ver w = (w, Normal 390)
  ∧ slideIndex (after (nextSlide ver w)) = 0
  ∧ slideIndex (after (prevSlide ver w)) = -1
  ∧ (present (slider (cdom w)) = true →
     slider (cdom (after (prevSlide ver w)))
     = Some {| transform := "translateX(390px)" |}).
Proof.
  intros Hi Hr.
  assert (Hn : itemCount w = 0) by (unfold itemCount; now rewrite Hi).
  split; [now apply getSlideWidth_no_items|].
  split; [rewrite nextSlide_index, Hn; unfold next_index;
          destruct (Z.ltb_spec (slideIndex w) (0 - 1)); lia|].
  assert (Hp : prev_index (itemCount w) (slideIndex w) = -1).
  { rewrite Hn. unfold prev_index. destruct (Z.gtb_spec (slideIndex w) 0); lia. }
  split; [now rewrite prevSlide_index|].
  intros Hs. rewrite prevSlide_unfold, Hp.
  rewrite (updateSlider_transform ver _ 390); [reflexivity| |done].
  now apply getSlideWidth_no_items.
Qed.

(** The sample page with its testimonial items taken out. *)
Definition demo_no_items : World :=
  Eval vm_compute in boot V1 1024 true demo_page (set_items [] demo_dom).

Lemma empty_carousel_witness :
  testimonialItems (cdom demo_no_items) = []
  ∧ slideIndex (after (prevSlide V1 demo_no_items)) = -1
  ∧ slider (cdom (after (prevSlide V1 demo_no_items)))
    = Some {| transform := "translateX(390px)" |}.
Proof.
  split; [reflexivity|].
  destruct (empty_carousel V1 demo_no_items eq_refl) as (_ & _ & Hprev & Hshift).
  { vm_compute. split; discriminate. }
  split; [exact Hprev | exact (Hshift eq_refl)].
Defined.

Ltac playing_fin := try (simpl in *; first [assumption | reflexivity]).

Lemma dispatch_keeps_playing ver e :
  preserves (λ w, isPlaying (closure w) = true) (dispatch ver e).
Proof. destruct ver, e; frame_with playing_fin. Qed.

(** X6: no listener, timer callback or initialiser ever clears the
    playing flag: once [initTestimonialSlider] has set it, every test
    [if (isPlaying)] of the hover, touch and autoplay code succeeds. *)
Theorem playing_flag_never_cleared (ver : Version) (es : list Event) (w : World) :
  isPlaying (closure w) = true → isPlaying (closure (run ver es w)) = true.
Proof.
  revert w. induction es as [|e es IH]; intros w Hw; [done|].
  simpl. apply IH. rewrite step_closure. now apply dispatch_keeps_playing.
Qed.

Lemma playing_flag_never_cleared_witness :
  isPlaying (closure demo) = true
  ∧ isPlaying (closure (run V1 [MouseEnter; TouchStart 5; TouchEnd 90; ClickDot 1]
                          demo)) = true.
Proof.
  split; [reflexivity|].
  exact (playing_flag_never_cleared V1
           [MouseEnter; TouchStart 5; TouchEnd 90; ClickDot 1] demo eq_refl).
Defined.

Lemma step_normal ver e w w' :
  dispatch ver e w = (w', Normal tt) → step ver e w = w'.
Proof. intros Hd. unfold step. now rewrite Hd. Qed.

Lemma onTouchEnd_idle ver x w :
  isDragging (closure w) = false → onTouchEnd ver x w = (w, Normal tt).
Proof. intros Hd. unfold onTouchEnd. run_m. now rewrite Hd. Qed.

Lemma onTouchEnd_keeps_listeners ver x :
  keeps (λ w, listeners (browser w)) (onTouchEnd ver x).
Proof. destruct ver; keeps_frame. Qed.

Lemma onTouchEnd_ends_drag ver x w :
  ok ver w → isDragging (closure w) = true →
  ∃ w', onTouchEnd ver x w = (w', Normal tt) ∧ isDragging (closure w') = false.
Proof.
  intros Hok Hd. unfold onTouchEnd.
  change ((get (λ w0, isDragging (closure w0)) ≫= ?k) w) with (k (isDragging (closure w)) w).
  cbv beta. rewrite Hd. cbn [negb].
  change ((get (λ w0, startX (closure w0)) ≫= ?k) w) with (k (startX (closure w)) w).
  cbv zeta beta. fold (swipe ver (startX (closure w) - x)).
  destruct (swipe_returns ver (startX (closure w) - x) w Hok) as [[] Hsw].
  destruct (swipe ver (startX (closure w) - x) w) as [w1 c] eqn:Hs.
  simpl in Hsw. subst c.
  rewrite (bind_normal _ _ _ _ _ Hs).
  unfold resumeLater, setTimeout, setTimer. run_m.
  destruct (isPlaying (closure w1)); run_m; eauto.
Qed.

(** X7: on a page with all carousel elements, a [touchend] always ends
    the drag, so that a further [touchend] without a new [touchstart] is
    ignored: it changes nothing, whatever its coordinate. *)
Theorem touchend_ends_drag (ver : Version) (w : World) (x : Z) :
  ok ver w → attached OnTouchEnd w = true →
  let w1 := step ver (TouchEnd x) w in
  isDragging (closure w1) = false ∧ ∀ y, step ver (TouchEnd y) w1 = w1.
Proof.
  intros Hok Hl w1.
  assert (Hw1 : isDragging (closure w1) = false ∧ attached OnTouchEnd w1 = true).
  { unfold w1. destruct (isDragging (closure w)) eqn:Hd.
    - destruct (onTouchEnd_ends_drag ver x w Hok Hd) as (w' & Hrun & Hdrag).
      assert (Hstep : step ver (TouchEnd x) w = w').
      { apply step_normal. simpl. now rewrite (listening_attached _ _ _ Hl). }
      rewrite Hstep. split; [done|].
      unfold attached in *.
      pose proof (onTouchEnd_keeps_listeners ver x w) as Hk.
      unfold after in Hk. rewrite Hrun in Hk. simpl in Hk. now rewrite Hk.
    - assert (Hstep : step ver (TouchEnd x) w = w).
      { apply step_normal. simpl. rewrite (listening_attached _ _ _ Hl).
        now apply onTouchEnd_idle. }
      now rewrite Hstep. }
  destruct Hw1 as [Hd1 Hl1]. split; [done|].
  intros y. apply step_normal. simpl.
  rewrite (listening_attached _ _ _ Hl1). now apply onTouchEnd_idle.
Qed.

Lemma demo_touched_ok : ok V1 demo_touched.
Proof. split; [reflexivity | exact I]. Defined.

Lemma touchend_ends_drag_witness :
  attached OnTouchEnd demo_touched = true
  ∧ isDragging (closure (step V1 (TouchEnd 100) demo_touched)) = false.
Proof.
  split; [reflexivity|].
  destruct (touchend_ends_drag V1 demo_touched 100 demo_touched_ok eq_refl)
    as [Hdrag _].
  exact Hdrag.
Defined.

(** * Timers *)

Lemma find_timer_filter_ne h h0 ts :
  h ≠ h0 → find_timer h (filter (λ t, t.1 ≠ h0) ts) = find_timer h ts.
Proof.
  intros Hne. induction ts as [|[h' t] ts IH]; [done|].
  rewrite filter_cons. simpl. destruct (decide (h' ≠ h0)) as [Hk|Hk].
  - simpl. now rewrite IH.
  - case_bool_decide; [|done]. subst h'. exfalso. apply Hk. congruence.
Qed.

Lemma find_timer_app_some h ts ts' t :
  find_timer h ts = Some t → find_timer h (ts ++ ts') = Some t.
Proof.
  induction ts as [|[h' t'] ts IH]; [done|].
  simpl. case_bool_decide; [done|apply IH].
Qed.

Lemma stopAutoPlay_timers w :
  timers (browser (after (stopAutoPlay w)))
  = match autoPlayInterval (closure w) with
    | Some h => filter (λ t, t.1 ≠ h) (timers (browser w))
    | None => timers (browser w)
    end.
Proof.
  unfold stopAutoPlay, clearInterval, clearTimer. run_m.
  now destruct (autoPlayInterval (closure w)).
Qed.

Lemma startAutoPlay_run w :
  startAutoPlay w
  = (with_closure (set_autoPlayInterval (Some (nextHandle (browser w))))
       (with_browser
          (set_timers
             (timers (browser w)
              ++ [(nextHandle (browser w),
                   {| kind := Repeating;
                      delay := testimonialInterval (CONFIG w);
                      callback := AutoPlayTick |})])
             (S (nextHandle (browser w)))) w),
     Normal tt).
Proof. reflexivity. Qed.

(** X8: [startAutoPlay] never cancels the interval it replaces, and
    [stopAutoPlay] reaches only the handle stored last: an interval that
    is live when [startAutoPlay] runs is still live afterwards, and still
    live after the next [stopAutoPlay]. *)
Theorem replaced_interval_leaks (w : World) (h : nat) (t : Timer) :
  find_timer h (timers (browser w)) = Some t →
  (h < nextHandle (browser w))%nat →
  let w1 := after (startAutoPlay w) in
  autoPlayInterval (closure w1) = Some (nextHandle (browser w))
  ∧ find_timer h (timers (browser w1)) = Some t
  ∧ find_timer h (timers (browser (after (stopAutoPlay w1)))) = Some t.
Proof.
  intros Hf Hlt w1.
  assert (Hh : autoPlayInterval (closure w1) = Some (nextHandle (browser w)))
    by reflexivity.
  assert (Ht : timers (browser w1)
             = (timers (browser w)
                ++ [(nextHandle (browser w),
                     {| kind := Repeating;
                        delay := testimonialInterval (CONFIG w);
                        callback := AutoPlayTick |})])%list) by reflexivity.
  split; [done|]. split.
  - rewrite Ht. now apply find_timer_app_some.
  - rewrite stopAutoPlay_timers, Hh, Ht.
    rewrite find_timer_filter_ne by lia. now apply find_timer_app_some.
Qed.

Lemma replaced_interval_leaks_witness :
  find_timer 1 (timers (browser demo))
  = Some {| kind := Repeating; delay := 5000; callback := AutoPlayTick |}
  ∧ find_timer 1
      (timers (browser (after (stopAutoPlay (after (startAutoPlay demo))))))
    = Some {| kind := Repeating; delay := 5000; callback := AutoPlayTick |}.
Proof.
  split; [reflexivity|].
  assert (Hlt : (1 < nextHandle (browser demo))%nat) by (vm_compute; lia).
  destruct (replaced_interval_leaks demo 1
              {| kind := Repeating; delay := 5000; callback := AutoPlayTick |}
              eq_refl Hlt) as (_ & _ & Hleak).
  exact Hleak.
Defined.

(** The autoplay of an untouched carousel: one interval, whose handle is
    the one stored. *)
Definition autoplay_clean (w : World) : Prop :=
  ∃ h, autoPlayInterval (closure w) = Some h
       ∧ timers (browser w)
         = [(h, {| kind := Repeating;
                   delay := testimonialInterval (CONFIG w);
                   callback := AutoPlayTick |})].

Lemma nextSlide_keeps_CONFIG ver : keeps CONFIG (nextSlide ver).
Proof. destruct ver; keeps_frame. Qed.









(** * Debounced resize *)

Global Instance Callback_eq_dec : EqDecision Callback.
Proof. solve_decision. Defined.

(** The timers of the table whose callback is [cb]. *)
Definition pending (cb : Callback) (w : World) : list (nat * Timer) :=
  filter (λ p : nat * Timer, callback p.2 = cb) (timers (browser w)).

(** Every pending call of a debounced function is the one whose handle
    the debounce closure holds, and there is at most one. *)
Definition debounce_inv (w : World) : Prop :=
  (∀ h t, (h, t) ∈ timers (browser w) → callback t = SliderResizeLater →
          sliderTimeout (debounced w) = Some h)
  ∧ (∀ h t, (h, t) ∈ timers (browser w) → callback t = GlobalResizeLater →
            globalTimeout (debounced w) = Some h)
  ∧ (length (pending SliderResizeLater w) ≤ 1)%nat
  ∧ (length (pending GlobalResizeLater w) ≤ 1)%nat.

(** No debounced call is pending. *)
Definition no_resize_pending (w : World) : Prop :=
  ∀ h t, (h, t) ∈ timers (browser w) →
         callback t ≠ SliderResizeLater ∧ callback t ≠ GlobalResizeLater.

Definition loaded_once (w : World) : Prop :=
  OnDOMContentLoaded ∉ listeners (browser w).

Lemma filter_none {A} (P : A → Prop) `{∀ x, Decision (P x)} (l : list A) :
  (∀ x, x ∈ l → ¬ P x) → filter P l = [].
Proof.
  induction l as [|x l IH]; intros Hl; [done|].
  rewrite filter_cons, decide_False by (apply Hl; left).
  apply IH. intros y Hy. apply Hl. now right.
Qed.

Lemma length_filter_filter {A} (P Q : A → Prop)
    `{∀ x, Decision (P x)} `{∀ x, Decision (Q x)} (l : list A) :
  (length (filter P (filter Q l)) ≤ length (filter P l))%nat.
Proof.
  induction l as [|x l IH]; [done|].
  rewrite (filter_cons Q). destruct (decide (Q x)).
  - rewrite !filter_cons. destruct (decide (P x)); simpl; lia.
  - rewrite filter_cons. destruct (decide (P x)); simpl; lia.
Qed.

Lemma no_resize_pending_inv w : no_resize_pending w → debounce_inv w.
Proof.
  intros Hn. unfold debounce_inv, pending.
  split; [intros h t Hin Hc; now destruct (Hn h t Hin)|].
  split; [intros h t Hin Hc; now destruct (Hn h t Hin)|].
  rewrite !filter_none; [simpl; lia| |];
    intros [h t] Hin; simpl; now destruct (Hn h t Hin).
Qed.

Lemma debounce_setTimer k cb ms :
  cb ≠ SliderResizeLater → cb ≠ GlobalResizeLater →
  preserves debounce_inv (setTimer k cb ms).
Proof.
  intros Hs Hg w (H1 & H2 & H3 & H4). unfold debounce_inv, pending in *. simpl.
  rewrite !filter_app, !filter_cons. simpl.
  rewrite !decide_False by done. simpl. rewrite !app_nil_r.
  repeat split; try done.
  - intros h t [Hin|Hin]%elem_of_app Hc; [now apply (H1 h t)|].
    apply list_elem_of_singleton in Hin. injection Hin as -> ->. done.
  - intros h t [Hin|Hin]%elem_of_app Hc; [now apply (H2 h t)|].
    apply list_elem_of_singleton in Hin. injection Hin as -> ->. done.
Qed.

Lemma debounce_clearTimer h : preserves debounce_inv (clearTimer h).
Proof.
  destruct h as [h|]; [|now intros w].
  intros w (H1 & H2 & H3 & H4). unfold debounce_inv, pending in *. simpl.
  repeat split.
  - intros h' t [_ Hin]%list_elem_of_filter Hc. now apply (H1 h' t).
  - intros h' t [_ Hin]%list_elem_of_filter Hc. now apply (H2 h' t).
  - etrans; [apply length_filter_filter|done].
  - etrans; [apply length_filter_filter|done].
Qed.

(** After the stored handle is cleared no call of the debounced function
    is pending. *)
Lemma cleared_none (cb : Callback) (stored : option nat) (ts : list (nat * Timer)) :
  (∀ h t, (h, t) ∈ ts → callback t = cb → stored = Some h) →
  filter (λ p : nat * Timer, callback p.2 = cb)
    (match stored with
     | Some h0 => filter (λ t, t.1 ≠ h0) ts
     | None => ts
     end) = [].
Proof.
  intros Hs. apply filter_none. intros [h t] Hin Hc. simpl in Hc.
  destruct stored as [h0|].
  - apply list_elem_of_filter in Hin as [Hne Hin]. simpl in Hne.
    specialize (Hs h t Hin Hc). congruence.
  - specialize (Hs h t Hin Hc). done.
Qed.

Lemma onSliderResize_debounce : preserves debounce_inv onSliderResize.
Proof.
  intros w (H1 & H2 & H3 & H4).
  pose proof (cleared_none SliderResizeLater _ _ H1) as Hnone.
  unfold onSliderResize, clearTimeout, clearTimer, setTimeout, setTimer.
  unfold debounce_inv, pending in *. run_m.
  destruct (sliderTimeout (debounced w)) as [h0|]; run_m;
    rewrite !filter_app, !filter_cons; simpl;
    rewrite ?decide_True by done; rewrite ?decide_False by done;
    rewrite Hnone; simpl; rewrite ?app_nil_r.
  - repeat split; try lia.
    + intros h t [Hin|Hin]%elem_of_app Hc.
      * exfalso. assert (Hf : (h, t) ∈ filter (λ p : nat * Timer,
                    callback p.2 = SliderResizeLater)
                    (filter (λ t, t.1 ≠ h0) (timers (browser w))))
          by now apply list_elem_of_filter.
        rewrite Hnone in Hf. now apply elem_of_nil in Hf.
      * apply list_elem_of_singleton in Hin. now injection Hin as -> _.
    + intros h t [Hin|Hin]%elem_of_app Hc.
      * apply list_elem_of_filter in Hin as [_ Hin]. now apply (H2 h t).
      * apply list_elem_of_singleton in Hin. injection Hin as -> ->. done.
    + etrans; [apply length_filter_filter|done].
  - repeat split; try lia; try done.
    + intros h t [Hin|Hin]%elem_of_app Hc.
      * specialize (H1 h t Hin Hc). done.
      * apply list_elem_of_singleton in Hin. now injection Hin as -> _.
    + intros h t [Hin|Hin]%elem_of_app Hc.
      * now apply (H2 h t).
      * apply list_elem_of_singleton in Hin. injection Hin as -> ->. done.
Qed.

Lemma onGlobalResize_debounce : preserves debounce_inv onGlobalResize.
Proof.
  intros w (H1 & H2 & H3 & H4).
  pose proof (cleared_none GlobalResizeLater _ _ H2) as Hnone.
  unfold onGlobalResize, clearTimeout, clearTimer, setTimeout, setTimer.
  unfold debounce_inv, pending in *. run_m.
  destruct (globalTimeout (debounced w)) as [h0|]; run_m;
    rewrite !filter_app, !filter_cons; simpl;
    rewrite ?decide_True by done; rewrite ?decide_False by done;
    rewrite Hnone; simpl; rewrite ?app_nil_r.
  - repeat split; try lia.
    + intros h t [Hin|Hin]%elem_of_app Hc.
      * apply list_elem_of_filter in Hin as [_ Hin]. now apply (H1 h t).
      * apply list_elem_of_singleton in Hin. injection Hin as -> ->. done.
    + intros h t [Hin|Hin]%elem_of_app Hc.
      * exfalso. assert (Hf : (h, t) ∈ filter (λ p : nat * Timer,
                    callback p.2 = GlobalResizeLater)
                    (filter (λ t, t.1 ≠ h0) (timers (browser w))))
          by now apply list_elem_of_filter.
        rewrite Hnone in Hf. now apply elem_of_nil in Hf.
      * apply list_elem_of_singleton in Hin. now injection Hin as -> _.
    + etrans; [apply length_filter_filter|done].
  - repeat split; try lia; try done.
    + intros h t [Hin|Hin]%elem_of_app Hc.
      * now apply (H1 h t).
      * apply list_elem_of_singleton in Hin. injection Hin as -> ->. done.
    + intros h t [Hin|Hin]%elem_of_app Hc.
      * specialize (H2 h t Hin Hc). done.
      * apply list_elem_of_singleton in Hin. now injection Hin as -> _.
Qed.

Create HintDb page_handlers.

#[local] Hint Unfold
  console_log console_error addEventListener scrollToOrigin query isMobile
  read_breakpoint getDeviceType getSlideWidth startAutoPlay stopAutoPlay
  resumeLater
  onPrevClick onNextClick onDotClick onMouseEnter onMouseLeave
  onTouchStart onTouchMove onTouchEnd sliderResizeLater
  autoPlayTick initTestimonialSlider log_v1
  initSmoothScrolling onNavLinkClick initHoverAnimations
  initLoadingAnimation onBeforeUnload onLoad onHamburgerClick
  initFormValidation initBackToTop initBusinessHours
  initNewsletterSignup initialisers initCoffeeWebsite_with initCoffeeWebsite
  globalResizeLater onVisibilityChange onDOMContentLoaded
  script runCallback onTimer listening clicking relayout dispatch : page_handlers.

(** As [unfold_head], with more functions kept folded: the two debounced
    listeners, the ripple, the loading screen, the scroll animations and
    the functions of the mobile layout. *)
Ltac unfold_page :=
  lazymatch goal with
  | |- preserves _ (updateSlider _) => unfold updateSlider
  | |- preserves _ (nextSlide _) => unfold nextSlide
  | |- preserves _ (prevSlide _) => unfold prevSlide
  | |- preserves _ (goToSlide _ _) => unfold goToSlide
  | |- preserves _ onSliderResize => unfold onSliderResize
  | |- preserves _ onGlobalResize => unfold onGlobalResize
  | |- preserves _ (onButtonClick _) => unfold onButtonClick
  | |- preserves _ (removeRipple _) => unfold removeRipple
  | |- preserves _ finishLoading => unfold finishLoading
  | |- preserves _ (initScrollAnimations _) => unfold initScrollAnimations
  | |- preserves _ (onIntersection _) => unfold onIntersection
  | |- preserves _ (initMobileMenu _) => unfold initMobileMenu
  | |- preserves _ handleResponsiveLayout => unfold handleResponsiveLayout
  | |- preserves _ _ => progress (autounfold with page_handlers)
  end.

(** [known] is tried on every piece of code before it is taken apart,
    [fin] closes what the primitive writes leave. *)
Ltac frame_known known fin :=
  repeat first [ solve [known] | preserves_step | unfold_page ];
  fin.

Ltac debounce_known :=
  idtac;
  lazymatch goal with
  | |- preserves _ (setTimer _ _ _) => apply debounce_setTimer; discriminate
  | |- preserves _ (setInterval _ _) => apply debounce_setTimer; discriminate
  | |- preserves _ (setTimeout _ _) => apply debounce_setTimer; discriminate
  | |- preserves _ (clearTimer _) => apply debounce_clearTimer
  | |- preserves _ (clearInterval _) => apply debounce_clearTimer
  | |- preserves _ (clearTimeout _) => apply debounce_clearTimer
  | |- preserves _ onSliderResize => apply onSliderResize_debounce
  | |- preserves _ onGlobalResize => apply onGlobalResize_debounce
  end.

Ltac debounce_fin := try (unfold debounce_inv, pending in *; simpl in *; assumption).

Lemma no_resize_setTimer k cb ms :
  cb ≠ SliderResizeLater → cb ≠ GlobalResizeLater →
  preserves no_resize_pending (setTimer k cb ms).
Proof.
  intros Hs Hg w Hw h t [Hin|Hin]%elem_of_app; [now apply (Hw h t)|].
  apply list_elem_of_singleton in Hin. now injection Hin as -> ->.
Qed.

Lemma no_resize_clearTimer h : preserves no_resize_pending (clearTimer h).
Proof.
  destruct h as [h|]; [|now intros w].
  intros w Hw h' t [_ Hin]%list_elem_of_filter. now apply (Hw h' t).
Qed.

Ltac no_resize_known :=
  idtac;
  lazymatch goal with
  | |- preserves _ (setTimer _ _ _) => apply no_resize_setTimer; discriminate
  | |- preserves _ (setInterval _ _) => apply no_resize_setTimer; discriminate
  | |- preserves _ (setTimeout _ _) => apply no_resize_setTimer; discriminate
  | |- preserves _ (clearTimer _) => apply no_resize_clearTimer
  | |- preserves _ (clearInterval _) => apply no_resize_clearTimer
  | |- preserves _ (clearTimeout _) => apply no_resize_clearTimer
  end.

Ltac no_resize_fin := try (unfold no_resize_pending in *; simpl in *; assumption).

Lemma script_no_resize ver : preserves no_resize_pending (script ver).
Proof. destruct ver; frame_known no_resize_known no_resize_fin. Qed.

Lemma load_no_resize ver :
  preserves no_resize_pending (dispatch ver DOMContentLoaded).
Proof. destruct ver; frame_known no_resize_known no_resize_fin. Qed.

Ltac loaded_fin :=
  try (unfold loaded_once in *; simpl in *;
       first [ assumption
             | rewrite elem_of_app, list_elem_of_singleton;
               intros [?|?]; [contradiction|discriminate]
             | let Hne := fresh in
               intros [Hne _]%list_elem_of_filter; now apply Hne ]).

Lemma onDOMContentLoaded_loaded_once ver :
  preserves loaded_once (onDOMContentLoaded ver).
Proof. destruct ver; frame_known fail loaded_fin. Qed.

Lemma dispatch_loaded_once ver e : preserves loaded_once (dispatch ver e).
Proof. destruct ver, e; frame_known fail loaded_fin. Qed.

Lemma dispatch_debounce ver e w :
  loaded_once w → debounce_inv w → debounce_inv (after (dispatch ver e w)).
Proof.
  intros Hl Hw.
  assert (Hk : ∀ m : M unit, preserves debounce_inv m →
            debounce_inv (after (m w))) by (intros m Hm; now apply Hm).
  destruct e;
    try (apply Hk; destruct ver; frame_known debounce_known debounce_fin; fail).
  simpl. rewrite listening_detached; [done|].
  unfold attached. now apply bool_decide_eq_false_2.
Qed.

Lemma load_loaded_once ver w :
  loaded_once (after (dispatch ver DOMContentLoaded w)).
Proof.
  simpl. destruct (attached OnDOMContentLoaded w) eqn:Ha.
  - rewrite (listening_attached _ _ _ Ha).
    change ((modify ?f ≫= ?k) w) with (k tt (f w)). cbv beta.
    apply onDOMContentLoaded_loaded_once.
    unfold loaded_once. simpl.
    intros [Hne _]%list_elem_of_filter. now apply Hne.
  - rewrite (listening_detached _ _ _ Ha). simpl.
    unfold attached in Ha. now apply bool_decide_eq_false_1 in Ha.
Qed.

Lemma add_console_debounce entry w :
  debounce_inv w → debounce_inv (with_browser (add_console entry) w).
Proof. done. Qed.

Lemma add_console_loaded_once entry w :
  loaded_once w → loaded_once (with_browser (add_console entry) w).
Proof. done. Qed.

Lemma step_debounce ver e w :
  loaded_once w ∧ debounce_inv w →
  loaded_once (step ver e w) ∧ debounce_inv (step ver e w).
Proof.
  intros [Hl Hd].
  pose proof (dispatch_debounce ver e w Hl Hd) as Hd'.
  pose proof (dispatch_loaded_once ver e w Hl) as Hl'.
  destruct (step_unfold ver e w) as [->|[err ->]]; [done|].
  split; [now apply add_console_loaded_once | now apply add_console_debounce].
Qed.

Lemma boot_debounce ver width io p d :
  loaded_once (boot ver width io p d) ∧ debounce_inv (boot ver width io p d).
Proof.
  unfold boot.
  set (ws := after (script ver (page_load ver width io p d))).
  assert (Hn : no_resize_pending ws).
  { apply script_no_resize. intros h t Hin. now apply elem_of_nil in Hin. }
  pose proof (load_no_resize ver ws Hn) as Hn'.
  pose proof (load_loaded_once ver ws) as Hl'.
  apply no_resize_pending_inv in Hn'.
  destruct (step_unfold ver DOMContentLoaded ws) as [->|[err ->]]; [done|].
  split; [now apply add_console_loaded_once | now apply add_console_debounce].
Qed.

(** X10: debouncing works. In every world the page reaches, for either
    resize listener at most one call of the debounced function is
    pending, and it is the one whose handle the debounce closure holds:
    a burst of resize events ends in a single [updateSlider]. *)
Theorem debounce_single_pending (ver : Version) (width : Z) (observer : bool)
    (p : Page) (d : CarouselDom) (es : list Event) :
  let w := run ver es (boot ver width observer p d) in
  (length (pending SliderResizeLater w) ≤ 1)%nat
  ∧ (length (pending GlobalResizeLater w) ≤ 1)%nat
  ∧ (∀ h t, (h, t) ∈ pending SliderResizeLater w →
       sliderTimeout (debounced w) = Some h)
  ∧ (∀ h t, (h, t) ∈ pending GlobalResizeLater w →
       globalTimeout (debounced w) = Some h).
Proof.
  intros w.
  assert (Hw : loaded_once w ∧ debounce_inv w).
  { unfold w. generalize (boot_debounce ver width observer p d).
    generalize (boot ver width observer p d). clear w.
    induction es as [|e es IH]; intros w0 Hw0; [done|].
    simpl. apply IH. now apply step_debounce. }
  destruct Hw as (_ & H1 & H2 & H3 & H4).
  repeat split; try done.
  - intros h t [Hc Hin]%list_elem_of_filter. now apply (H1 h t).
  - intros h t [Hc Hin]%list_elem_of_filter. now apply (H2 h t).
Qed.

(** * Worlds the page reaches *)

(** A property that holds when the script starts and that the script,
    every event and the console maintain holds in every world reached. *)
Lemma reachable_inv (P : World → Prop) ver width io p d :
  P (page_load ver width io p d) →
  preserves P (script ver) →
  (∀ e, preserves P (dispatch ver e)) →
  (∀ entry w, P w → P (with_browser (add_console entry) w)) →
  ∀ es, P (run ver es (boot ver width io p d)).
Proof.
  intros H0 Hs Hd Hc.
  assert (Hstep : ∀ e w, P w → P (step ver e w)).
  { intros e w Hw. pose proof (Hd e w Hw) as Hw'.
    destruct (step_unfold ver e w) as [->|[err ->]]; [done|now apply Hc]. }
  intros es. unfold boot.
  generalize (Hstep DOMContentLoaded _ (Hs _ H0)).
  generalize (step ver DOMContentLoaded
                (after (script ver (page_load ver width io p d)))).
  induction es as [|e es IH]; intros w Hw; [done|].
  simpl. apply IH. now apply Hstep.
Qed.

(** Every handle in the timer table has been handed out already. *)
Definition handles_fresh (w : World) : Prop :=
  ∀ h t, (h, t) ∈ timers (browser w) → (h < nextHandle (browser w))%nat.

Lemma fresh_setTimer k cb ms : preserves handles_fresh (setTimer k cb ms).
Proof.
  intros w Hw h t [Hin|Hin]%elem_of_app; simpl.
  - specialize (Hw h t Hin). lia.
  - apply list_elem_of_singleton in Hin. injection Hin as -> _. lia.
Qed.

Lemma fresh_clearTimer h : preserves handles_fresh (clearTimer h).
Proof.
  destruct h as [h|]; [|now intros w].
  intros w Hw h' t [_ Hin]%list_elem_of_filter. now apply (Hw h' t).
Qed.

Ltac fresh_known :=
  idtac;
  lazymatch goal with
  | |- preserves _ (setTimer _ _ _) => apply fresh_setTimer
  | |- preserves _ (setInterval _ _) => apply fresh_setTimer
  | |- preserves _ (setTimeout _ _) => apply fresh_setTimer
  | |- preserves _ (clearTimer _) => apply fresh_clearTimer
  | |- preserves _ (clearInterval _) => apply fresh_clearTimer
  | |- preserves _ (clearTimeout _) => apply fresh_clearTimer
  end.

Ltac fresh_fin := try (unfold handles_fresh in *; simpl in *; assumption).

Lemma dispatch_handles_fresh ver e : preserves handles_fresh (dispatch ver e).
Proof. destruct ver, e; frame_known fresh_known fresh_fin. Qed.

Lemma script_handles_fresh ver : preserves handles_fresh (script ver).
Proof. destruct ver; frame_known fresh_known fresh_fin. Qed.

Lemma reachable_handles_fresh ver width io p d es :
  handles_fresh (run ver es (boot ver width io p d)).
Proof.
  apply reachable_inv.
  - intros h t Hin. now apply elem_of_nil in Hin.
  - apply script_handles_fresh.
  - apply dispatch_handles_fresh.
  - done.
Qed.

Lemma find_timer_none h ts :
  (∀ h' t, (h', t) ∈ ts → h' ≠ h) → find_timer h ts = None.
Proof.
  induction ts as [|[h' t] ts IH]; intros Hts; [done|].
  simpl. rewrite bool_decide_eq_false_2 by (apply (Hts h' t); left).
  apply IH. intros h'' t' Hin. apply (Hts h'' t'). now right.
Qed.

Lemma find_timer_app_new h ts t :
  (∀ h' t', (h', t') ∈ ts → h' ≠ h) →
  find_timer h (ts ++ [(h, t)]) = Some t.
Proof.
  induction ts as [|[h' t'] ts IH]; intros Hts; simpl.
  - now rewrite bool_decide_eq_true_2.
  - rewrite bool_decide_eq_false_2 by (apply (Hts h' t'); left).
    apply IH. intros h'' t'' Hin. apply (Hts h'' t''). now right.
Qed.

Lemma find_timer_new w t :
  handles_fresh w →
  find_timer (nextHandle (browser w))
    (timers (browser w) ++ [(nextHandle (browser w), t)]) = Some t.
Proof.
  intros Hw. apply find_timer_app_new. intros h' t' Hin.
  specialize (Hw h' t' Hin). lia.
Qed.

(** * Loading screen *)

Definition loading_timeout : Timer :=
  {| kind := OneShot; delay := 500; callback := FinishLoading |}.

Lemma onLoad_run w :
  onLoad w
  = (with_browser
       (set_timers (timers (browser w) ++ [(nextHandle (browser w), loading_timeout)])
                   (S (nextHandle (browser w))))
       (with_page (set_scroll ScrollOrigin) w),
     Normal tt).
Proof. reflexivity. Qed.

Lemma fire_finishLoading ver w h :
  find_timer h (timers (browser w)) = Some loading_timeout →
  page (step ver (TimerFire h) w)
  = set_bodyClasses
      (classList_add "loaded" (classList_remove "loading" (bodyClasses (page w))))
      (page w).
Proof.
  intros Hf.
  assert (Hd : dispatch ver (TimerFire h) w
             = (clearTimer (Some h);; finishLoading) w).
  { simpl. unfold onTimer.
    change ((get ?f ≫= ?k) w) with (k (f w) w). cbv beta. now rewrite Hf. }
  unfold step. rewrite Hd. reflexivity.
Qed.

(** X11: in every world the page reaches where the load listener is
    attached, the [load] event scrolls to the top and, once its 500 ms
    timeout has fired, the body carries 'loaded' and no longer 'loading';
    its other classes are as before. *)
Theorem loading_screen_finishes (ver : Version) (width : Z) (observer : bool)
    (p : Page) (d : CarouselDom) (es : list Event) :
  let w := run ver es (boot ver width observer p d) in
  attached OnLoad w = true →
  let w2 := run ver [WindowLoad; TimerFire (nextHandle (browser w))] w in
  scroll (page w2) = ScrollOrigin
  ∧ "loaded" ∈ bodyClasses (page w2)
  ∧ ("loading" ∉ bodyClasses (page w2))
  ∧ ∀ c, c ≠ "loading" → c ≠ "loaded" →
         (c ∈ bodyClasses (page w2) ↔ c ∈ bodyClasses (page w)).
Proof.
  intros w Hl w2.
  assert (Hfresh : handles_fresh w) by apply reachable_handles_fresh.
  assert (H1 : step ver WindowLoad w = (onLoad w).1).
  { apply step_normal. simpl. rewrite (listening_attached _ _ _ Hl).
    now rewrite onLoad_run. }
  assert (Hp : page w2
             = set_bodyClasses
                 (classList_add "loaded"
                    (classList_remove "loading" (bodyClasses (page w))))
                 (set_scroll ScrollOrigin (page w))).
  { unfold w2. simpl. rewrite H1, onLoad_run. cbn [fst].
    rewrite fire_finishLoading; [reflexivity|].
    simpl. now apply find_timer_new. }
  rewrite Hp. simpl. unfold classList_add, classList_remove.
  split; [done|]. split; [now apply classList_toggle_token|].
  split.
  - rewrite classList_toggle_other by done.
    rewrite classList_toggle_token. done.
  - intros c Hc1 Hc2. now rewrite !classList_toggle_other.
Qed.

Lemma loading_screen_finishes_witness :
  attached OnLoad (run V1 [] (boot V1 1024 true demo_page demo_dom)) = true
  ∧ "loaded" ∈ bodyClasses (page (run V1 [WindowLoad; TimerFire 2]
                                   (run V1 [] (boot V1 1024 true demo_page demo_dom)))).
Proof.
  assert (Hl : attached OnLoad (run V1 [] (boot V1 1024 true demo_page demo_dom))
               = true) by (vm_compute; reflexivity).
  split; [exact Hl|].
  destruct (loading_screen_finishes V1 1024 true demo_page demo_dom [] Hl)
    as (_ & Hloaded & _).
  exact Hloaded.
Defined.

(** * Ripple *)

(** Every ripple in the page was numbered before the next one. *)
Definition ripples_fresh (w : World) : Prop :=
  ∀ c r, c ∈ buttons (page w) → r ∈ c → (r < nextRipple (page w))%nat.

Lemma filter_all {A} (P : A → Prop) `{∀ x, Decision (P x)} (l : list A) :
  (∀ x, x ∈ l → P x) → filter P l = l.
Proof.
  induction l as [|x l IH]; intros Hl; [done|].
  rewrite filter_cons, decide_True by (apply Hl; left).
  f_equal. apply IH. intros y Hy. apply Hl. now right.
Qed.

Lemma remove_added (r : nat) i (bs : list (list nat)) :
  (∀ c, c ∈ bs → r ∉ c) →
  map (filter (λ x, x ≠ r)) (alter (λ c, (c ++ [r])%list) i bs) = bs.
Proof.
  revert i. induction bs as [|c bs IH]; intros i Hbs; [done|].
  assert (Hc : filter (λ x, x ≠ r) c = c).
  { apply filter_all. intros x Hx ->. apply (Hbs c); [left|done]. }
  assert (Hrest : map (filter (λ x, x ≠ r)) bs = bs).
  { clear IH. induction bs as [|c' bs IH']; [done|]. simpl. f_equal.
    - apply filter_all. intros x Hx ->. apply (Hbs c'); [right; left|done].
    - apply IH'. intros c'' [->|Hin]%elem_of_cons; apply Hbs;
        [left|right; now right]. }
  destruct i as [|i]; simpl.
  - rewrite filter_app, Hc, Hrest. simpl. rewrite filter_cons, decide_False by auto.
    rewrite filter_nil. now rewrite app_nil_r.
  - rewrite Hc. f_equal. apply IH. intros c' Hc'. apply Hbs. now right.
Qed.

Lemma elem_of_alter_app (r : nat) i (bs : list (list nat)) c :
  c ∈ alter (λ c, (c ++ [r])%list) i bs →
  c ∈ bs ∨ ∃ c0, c0 ∈ bs ∧ c = (c0 ++ [r])%list.
Proof.
  revert i. induction bs as [|b bs IH]; intros i; [intros []%elem_of_nil|].
  destruct i as [|i]; simpl.
  - intros [->|Hin]%elem_of_cons; [right; exists b; split; [left|done]|].
    left. now right.
  - intros [->|Hin]%elem_of_cons; [left; left|].
    destruct (IH i Hin) as [Hc|(c0 & Hc0 & ->)]; [left; now right|].
    right. exists c0. split; [now right|done].
Qed.

Lemma onButtonClick_run i w :
  onButtonClick i w
  = (with_browser
       (set_timers
          (timers (browser w)
             ++ [(nextHandle (browser w),
                  {| kind := OneShot; delay := 600;
                     callback := RemoveRipple (nextRipple (page w)) |})])
          (S (nextHandle (browser w))))
       (with_page
          (set_buttons
             (alter (λ c, (c ++ [nextRipple (page w)])%list) i (buttons (page w)))
             (S (nextRipple (page w))))
          w),
     Normal tt).
Proof. reflexivity. Qed.

Lemma onButtonClick_fresh i : preserves ripples_fresh (onButtonClick i).
Proof.
  intros w Hw. rewrite onButtonClick_run. intros c r Hc Hr. simpl in *.
  apply elem_of_alter_app in Hc as [Hc|(c0 & Hc0 & ->)].
  - specialize (Hw c r Hc Hr). lia.
  - apply elem_of_app in Hr as [Hr|Hr].
    + specialize (Hw c0 r Hc0 Hr). lia.
    + apply list_elem_of_singleton in Hr as ->. lia.
Qed.

Lemma removeRipple_fresh r : preserves ripples_fresh (removeRipple r).
Proof.
  intros w Hw c r' Hc Hr. simpl in *.
  apply list_elem_of_fmap in Hc as (c0 & -> & Hc0).
  apply list_elem_of_filter in Hr as [_ Hr]. now apply (Hw c0).
Qed.

Ltac ripples_known :=
  idtac;
  lazymatch goal with
  | |- preserves _ (onButtonClick _) => apply onButtonClick_fresh
  | |- preserves _ (removeRipple _) => apply removeRipple_fresh
  end.

Ltac ripples_fin := try (unfold ripples_fresh in *; simpl in *; assumption).

Lemma dispatch_ripples_fresh ver e : preserves ripples_fresh (dispatch ver e).
Proof. destruct ver, e; frame_known ripples_known ripples_fin. Qed.

Lemma script_ripples_fresh ver : preserves ripples_fresh (script ver).
Proof. destruct ver; frame_known ripples_known ripples_fin. Qed.

Lemma fire_removeRipple ver w h r :
  find_timer h (timers (browser w))
  = Some {| kind := OneShot; delay := 600; callback := RemoveRipple r |} →
  page (step ver (TimerFire h) w)
  = set_buttons (map (filter (λ x, x ≠ r)) (buttons (page w)))
                (nextRipple (page w)) (page w).
Proof.
  intros Hf.
  assert (Hd : dispatch ver (TimerFire h) w
             = (clearTimer (Some h);; removeRipple r) w).
  { simpl. unfold onTimer.
    change ((get ?f ≫= ?k) w) with (k (f w) w). cbv beta. now rewrite Hf. }
  unfold step. rewrite Hd. reflexivity.
Qed.

(** X12: on a page whose ripples are numbered below the next one, in
    every world it reaches, a click on a button with the listener appends
    one new ripple to that button and to no other, and once the 600 ms
    timeout of the click has fired the buttons have the children they had
    before the click. *)
Theorem ripple_is_removed (ver : Version) (width : Z) (observer : bool)
    (p : Page) (d : CarouselDom) (es : list Event) (i : nat) :
  (∀ c r, c ∈ buttons p → r ∈ c → (r < nextRipple p)%nat) →
  let w := run ver es (boot ver width observer p d) in
  attached (OnButtonClick i) w = true →
  let w1 := step ver (ButtonClick i) w in
  let w2 := step ver (TimerFire (nextHandle (browser w))) w1 in
  buttons (page w1)
  = alter (λ c, (c ++ [nextRipple (page w)])%list) i (buttons (page w))
  ∧ buttons (page w2) = buttons (page w).
Proof.
  intros Hp w Hl w1 w2.
  assert (Hfresh : handles_fresh w) by apply reachable_handles_fresh.
  assert (Hrip : ripples_fresh w).
  { apply reachable_inv.
    - exact Hp.
    - apply script_ripples_fresh.
    - apply dispatch_ripples_fresh.
    - done. }
  assert (H1 : w1 = (onButtonClick i w).1).
  { apply step_normal. simpl. rewrite (listening_attached _ _ _ Hl).
    now rewrite onButtonClick_run. }
  assert (Hb1 : buttons (page w1)
              = alter (λ c, (c ++ [nextRipple (page w)])%list) i (buttons (page w))).
  { now rewrite H1, onButtonClick_run. }
  split; [exact Hb1|].
  unfold w2.
  rewrite (fire_removeRipple ver w1 _ (nextRipple (page w))).
  - simpl. rewrite Hb1. apply remove_added.
    intros c Hc Hr. specialize (Hrip c _ Hc Hr). lia.
  - rewrite H1, onButtonClick_run. simpl. now apply find_timer_new.
Qed.

Lemma ripple_is_removed_witness :
  buttons (page (step V1 (TimerFire (nextHandle (browser
             (run V1 [] (boot V1 1024 true demo_page demo_dom)))))
           (step V1 (ButtonClick 0)
              (run V1 [] (boot V1 1024 true demo_page demo_dom)))))
  = buttons (page (run V1 [] (boot V1 1024 true demo_page demo_dom))).
Proof.
  assert (Hp : ∀ c r, c ∈ buttons demo_page → r ∈ c → (r < nextRipple demo_page)%nat).
  { intros c r Hc Hr. simpl in Hc.
    apply elem_of_cons in Hc as [->|Hc]; [now apply elem_of_nil in Hr|].
    apply list_elem_of_singleton in Hc as ->. now apply elem_of_nil in Hr. }
  assert (Hl : attached (OnButtonClick 0)
                 (run V1 [] (boot V1 1024 true demo_page demo_dom)) = true)
    by (vm_compute; reflexivity).
  destruct (ripple_is_removed V1 1024 true demo_page demo_dom [] 0 Hp Hl)
    as [_ Hback].
  exact Hback.
Defined.

(** * Device classes of the second revision *)

(** The class [getDeviceType] computes from the breakpoints and the width. *)
Lemma getDeviceType_run w bp :
  breakpoints (CONFIG w) = Some bp →
  ∃ dev, getDeviceType w = (w, Normal dev)
    ∧ (String.eqb dev "mobile" || String.eqb dev "mobile-large"
       = (innerWidth (browser w) <=? mobile bp)
         || (innerWidth (browser w) <=? mobileLarge bp))
    ∧ (dev = "mobile" ∨ dev = "mobile-large" ∨ dev = "tablet"
       ∨ dev = "desktop" ∨ dev = "large").
Proof.
  intros Hbp. unfold getDeviceType, read_breakpoint. run_m.
  rewrite Hbp. run_m.
  destruct (_ <=? mobile bp); run_m; [eexists; split; [done|]; auto|].
  rewrite Hbp. run_m.
  destruct (_ <=? mobileLarge bp); run_m; [eexists; split; [done|]; auto|].
  rewrite Hbp. run_m.
  destruct (_ <=? tablet bp); run_m; [eexists; split; [done|]; auto 6|].
  rewrite Hbp. run_m.
  destruct (_ <=? desktop bp); run_m; eexists; (split; [done|]); auto 8.
Qed.

(** [getDeviceType] reads the breakpoints and the width only. *)
Lemma getDeviceType_same w w' bp dev :
  breakpoints (CONFIG w) = Some bp → breakpoints (CONFIG w') = Some bp →
  innerWidth (browser w') = innerWidth (browser w) →
  getDeviceType w = (w, Normal dev) →
  getDeviceType w = (w, Normal dev) ∧ getDeviceType w' = (w', Normal dev).
Proof.
  intros Hbp Hbp' Hw. split; [done|]. revert H.
  unfold getDeviceType, read_breakpoint. run_m.
  rewrite Hbp, Hbp', Hw. run_m.
  destruct (_ <=? mobile bp); run_m; [now intros [= <-]|].
  rewrite Hbp, Hbp'. run_m.
  destruct (_ <=? mobileLarge bp); run_m; [now intros [= <-]|].
  rewrite Hbp, Hbp'. run_m.
  destruct (_ <=? tablet bp); run_m; [now intros [= <-]|].
  rewrite Hbp, Hbp'. run_m.
  destruct (_ <=? desktop bp); run_m; now intros [= <-].
Qed.

Lemma isMobile_run w bp :
  breakpoints (CONFIG w) = Some bp →
  isMobile w = (w, Normal (innerWidth (browser w) <=? mobileLarge bp)).
Proof.
  intros Hbp. unfold isMobile, read_breakpoint. run_m. now rewrite Hbp.
Qed.

(** X13: with the breakpoints defined and mobile not above mobileLarge,
    [getDeviceType] and [isMobile] read the world without changing it and
    agree: [isMobile] answers true exactly when the device type is
    'mobile' or 'mobile-large', the test of the resize handler. *)
Theorem isMobile_agrees_with_device (w : World) (bp : Breakpoints) :
  breakpoints (CONFIG w) = Some bp →
  mobile bp ≤ mobileLarge bp →
  ∃ dev,
    getDeviceType w = (w, Normal dev)
    ∧ isMobile w
      = (w, Normal (String.eqb dev "mobile" || String.eqb dev "mobile-large")).
Proof.
  intros Hbp Hle.
  destruct (getDeviceType_run w bp Hbp) as (dev & Hdev & Hm & _).
  exists dev. split; [exact Hdev|].
  rewrite (isMobile_run w bp Hbp), Hm. do 2 f_equal.
  destruct (Z.leb_spec (innerWidth (browser w)) (mobile bp)) as [H1|H1]; [|done].
  simpl. apply Z.leb_le. lia.
Qed.

Lemma isMobile_agrees_with_device_witness :
  ∃ dev,
    getDeviceType (page_load V2 600 true demo_page demo_dom)
    = (page_load V2 600 true demo_page demo_dom, Normal dev)
    ∧ isMobile (page_load V2 600 true demo_page demo_dom)
      = (page_load V2 600 true demo_page demo_dom,
         Normal (String.eqb dev "mobile" || String.eqb dev "mobile-large")).
Proof.
  apply (isMobile_agrees_with_device (page_load V2 600 true demo_page demo_dom)
           {| mobile := 480; mobileLarge := 767; tablet := 1023;
              desktop := 1199; large := 1200 |}).
  - reflexivity.
  - simpl. lia.
Defined.

(** * Responsive layout of the second revision *)

Lemma style_set_idem prop value st :
  style_set prop value (style_set prop value st) = style_set prop value st.
Proof.
  induction st as [|[p v] st IH]; simpl.
  - now rewrite String.eqb_refl.
  - destruct (String.eqb p prop) eqn:Hp; simpl.
    + now rewrite String.eqb_refl.
    + now rewrite Hp, IH.
Qed.

(** The item as [handleResponsiveLayout] leaves it. *)
Definition sized (dev : string) (item : ItemEl) : ItemEl :=
  {| offsetWidth := offsetWidth item;
     minWidth := itemSize dev;
     flex := "0 0 " +:+ itemSize dev |}.

Lemma handleResponsiveLayout_run w bp :
  breakpoints (CONFIG w) = Some bp →
  ∃ dev,
    getDeviceType w = (w, Normal dev)
    ∧ handleResponsiveLayout w
      = (let w1 := with_cdom (λ d, set_items (map (sized dev) (testimonialItems d)) d) w in
         match heroContent (page w) with
         | Some h =>
             if innerWidth (browser w) <=? mobileLarge bp
             then with_page (set_heroContent (Some
                    {| heroStyle := style_set "padding" "0 20px" (heroStyle h) |})) w1
             else w1
         | None => w1
         end, Normal tt).
Proof.
  intros Hbp.
  destruct (getDeviceType_run w bp Hbp) as (dev & Hdev & _).
  exists dev. split; [exact Hdev|].
  unfold handleResponsiveLayout.
  rewrite (bind_normal _ _ _ _ _ Hdev).
  run_m. destruct (heroContent (page w)) as [h|]; [|done].
  unfold isMobile, read_breakpoint. run_m. rewrite Hbp. run_m.
  now destruct (_ <=? _).
Qed.

Lemma sized_idem dev (l : list ItemEl) :
  map (sized dev) (map (sized dev) l) = map (sized dev) l.
Proof. rewrite map_map. now apply map_ext. Qed.

(** X14: with the breakpoints defined, [handleResponsiveLayout] returns
    and gives every testimonial item the same size, one of 260px, 280px,
    320px and 350px, as min-width and as flex basis; it keeps the number
    of items, and a second call on its result changes nothing. *)
Theorem responsive_layout_idempotent (w : World) (bp : Breakpoints) :
  breakpoints (CONFIG w) = Some bp →
  let w1 := after (handleResponsiveLayout w) in
  result (handleResponsiveLayout w) = Normal tt
  ∧ handleResponsiveLayout w1 = (w1, Normal tt)
  ∧ length (testimonialItems (cdom w1)) = length (testimonialItems (cdom w))
  ∧ ∃ size, size ∈ ["260px"; "280px"; "320px"; "350px"]
      ∧ ∀ item, item ∈ testimonialItems (cdom w1) →
          minWidth item = size ∧ flex item = "0 0 " +:+ size.
Proof.
  intros Hbp w1.
  destruct (handleResponsiveLayout_run w bp Hbp) as (dev & Hdev & Hrun).
  assert (Hw1 : ∃ W, w1 = W ∧ handleResponsiveLayout w = (W, Normal tt)
            ∧ CONFIG W = CONFIG w
            ∧ innerWidth (browser W) = innerWidth (browser w)
            ∧ testimonialItems (cdom W) = map (sized dev) (testimonialItems (cdom w))
            ∧ (let W1 := with_cdom (λ d, set_items (map (sized dev) (testimonialItems d)) d) W in
               match heroContent (page W) with
               | Some h =>
                   if innerWidth (browser w) <=? mobileLarge bp
                   then with_page (set_heroContent (Some
                          {| heroStyle := style_set "padding" "0 20px" (heroStyle h) |})) W1
                   else W1
               | None => W1
               end) = W).
  { unfold w1. rewrite Hrun. unfold after. cbn [fst]. eexists. split; [reflexivity|].
    split; [reflexivity|].
    destruct (heroContent (page w)) as [h|] eqn:Hh.
    - destruct (_ <=? _) eqn:Hm; cbn; rewrite ?Hh, ?style_set_idem;
        repeat split; unfold with_page, with_cdom, set_heroContent, set_items;
        cbn; now rewrite sized_idem.
    - cbn. rewrite Hh. repeat split.
      unfold with_cdom, set_items; cbn. now rewrite sized_idem. }
  clearbody w1. destruct Hw1 as (W & -> & HrunW & HC & Hwidth & Hitems & Hfix).
  clear Hrun.
  assert (HbpW : breakpoints (CONFIG W) = Some bp) by now rewrite HC.
  split; [now rewrite HrunW|]. split; [|split].
  - destruct (handleResponsiveLayout_run W bp HbpW) as (dev1 & Hdev1 & Hrun1).
    assert (dev1 = dev) as ->.
    { destruct (getDeviceType_same w W bp dev Hbp HbpW Hwidth Hdev) as [_ H].
      rewrite Hdev1 in H. now injection H. }
    rewrite Hrun1, Hwidth. f_equal. exact Hfix.
  - rewrite Hitems. apply length_map.
  - exists (itemSize dev). split.
    + unfold itemSize. repeat case_match; rewrite !elem_of_cons; auto.
    + intros item Hin. rewrite Hitems in Hin.
      apply list_elem_of_fmap in Hin as (item0 & -> & _). done.
Qed.

Lemma responsive_layout_idempotent_witness :
  length (testimonialItems (cdom (after (handleResponsiveLayout
            (page_load V2 600 true demo_page demo_dom)))))
  = length (testimonialItems (cdom (page_load V2 600 true demo_page demo_dom))).
Proof.
  destruct (responsive_layout_idempotent
              (page_load V2 600 true demo_page demo_dom)
              {| mobile := 480; mobileLarge := 767; tablet := 1023;
                 desktop := 1199; large := 1200 |} eq_refl)
    as (_ & _ & Hlen & _).
  exact Hlen.
Defined.

(** * Mobile menu of the second revision *)

(** How many click listeners the hamburger button has. *)
Definition hamburger_listeners (w : World) : nat :=
  length (filter (λ l, l = OnHamburgerClick) (listeners (browser w))).

(** The listener is attached when the button is created, so not before
    the button exists and not twice. *)
Definition ham_inv (w : World) : Prop :=
  (hamburger (page w) = None → hamburger_listeners w = 0%nat)
  ∧ (hamburger_listeners w ≤ 1)%nat.

Lemma ham_add l w :
  l ≠ OnHamburgerClick → ham_inv w → ham_inv (with_browser (add_listener l) w).
Proof.
  intros Hl [H0 H1]. unfold ham_inv, hamburger_listeners in *. simpl.
  rewrite filter_app, filter_cons, decide_False, filter_nil, app_nil_r by done.
  done.
Qed.

Lemma ham_remove l w :
  ham_inv w → ham_inv (with_browser (remove_listener l) w).
Proof.
  intros [H0 H1]. unfold ham_inv, hamburger_listeners in *. simpl.
  rewrite list_filter_filter.
  assert (Hle : (length (filter (λ x, x = OnHamburgerClick ∧ x ≠ l)
                          (listeners (browser w)))
                 ≤ length (filter (λ x, x = OnHamburgerClick)
                             (listeners (browser w))))%nat).
  { generalize (listeners (browser w)). intros ls.
    induction ls as [|x ls IH]; [done|].
    rewrite !filter_cons.
    destruct (decide (x = OnHamburgerClick ∧ x ≠ l)) as [[Hx _]|_];
      destruct (decide (x = OnHamburgerClick)); simpl; try lia. done. }
  split; [|lia]. intros Hh. specialize (H0 Hh). lia.
Qed.

Lemma ham_add_console entry w :
  ham_inv w → ham_inv (with_browser (add_console entry) w).
Proof. done. Qed.

Lemma initMobileMenu_ham ver : preserves ham_inv (initMobileMenu ver).
Proof.
  destruct ver.
  { intros w Hw. now apply ham_add_console. }
  intros w [H0 H1]. unfold initMobileMenu, isMobile, read_breakpoint. run_m.
  destruct (breakpoints (CONFIG w)) as [bp|] eqn:Hbp; run_m; [|done].
  destruct (_ <=? mobileLarge bp); run_m; [|done].
  destruct (hamburger (page w)) as [ham|] eqn:Hh; run_m.
  - rewrite Hbp. run_m.
    assert (Hw : ∀ w', listeners (browser w') = listeners (browser w) →
                       is_Some (hamburger (page w')) → ham_inv w').
    { intros w' Hl [ham' Hh']. unfold ham_inv, hamburger_listeners in *.
      rewrite Hl, Hh'. done. }
    destruct (_ <=? mobile bp); run_m; [|apply Hw; [done|now rewrite Hh]].
    destruct (navLinksEl (page w)); run_m; apply Hw; simpl; rewrite ?Hh; done.
  - destruct (hasNav (page w)); run_m; [|split; [intros _; now apply H0|done]].
    rewrite Hbp. run_m.
    assert (Hw : ∀ w', listeners (browser w')
                       = (listeners (browser w) ++ [OnHamburgerClick])%list →
                       is_Some (hamburger (page w')) → ham_inv w').
    { intros w' Hl [ham' Hh']. unfold ham_inv, hamburger_listeners in *.
      rewrite Hl, Hh', filter_app, length_app, (H0 eq_refl). split; [done|].
      simpl. lia. }
    destruct (_ <=? mobile bp); run_m; [|now apply Hw].
    destruct (navLinksEl (page w)); run_m; now apply Hw.
Qed.

Ltac ham_known :=
  idtac;
  lazymatch goal with
  | |- preserves _ (initMobileMenu _) => apply initMobileMenu_ham
  end.

Ltac ham_fin :=
  try first [ apply ham_add; [discriminate|assumption]
            | apply ham_remove; assumption
            | unfold ham_inv, hamburger_listeners in *; simpl in *; assumption ].

Lemma dispatch_ham ver e : preserves ham_inv (dispatch ver e).
Proof. destruct ver, e; frame_known ham_known ham_fin. Qed.

Lemma script_ham ver : preserves ham_inv (script ver).
Proof. destruct ver; frame_known ham_known ham_fin. Qed.

(** A button found in the document is never given the listener. *)
Definition ham_unused (w : World) : Prop :=
  is_Some (hamburger (page w)) ∧ hamburger_listeners w = 0%nat.

Lemma unused_add l w :
  l ≠ OnHamburgerClick → ham_unused w → ham_unused (with_browser (add_listener l) w).
Proof.
  intros Hl [H0 H1]. unfold ham_unused, hamburger_listeners in *. simpl.
  rewrite filter_app, filter_cons, decide_False, filter_nil, app_nil_r by done.
  done.
Qed.

Lemma unused_remove l w :
  ham_unused w → ham_unused (with_browser (remove_listener l) w).
Proof.
  intros [H0 H1]. split; [done|].
  apply length_zero_iff_nil in H1. apply length_zero_iff_nil.
  unfold hamburger_listeners in *. simpl. rewrite list_filter_filter.
  apply filter_none. intros x Hx [-> _].
  assert (Hin : OnHamburgerClick ∈ filter (λ l, l = OnHamburgerClick)
                                      (listeners (browser w)))
    by now apply list_elem_of_filter.
  rewrite H1 in Hin. now apply elem_of_nil in Hin.
Qed.

Lemma initMobileMenu_unused ver : preserves ham_unused (initMobileMenu ver).
Proof.
  destruct ver; [now intros w Hw|].
  intros w [[ham Hh] H1]. unfold initMobileMenu, isMobile, read_breakpoint. run_m.
  assert (Hw : ∀ w', listeners (browser w') = listeners (browser w) →
                     is_Some (hamburger (page w')) → ham_unused w').
  { intros w' Hl Hh'. unfold ham_unused, hamburger_listeners in *.
    now rewrite Hl. }
  destruct (breakpoints (CONFIG w)) as [bp|] eqn:Hbp; run_m;
    [|apply Hw; [done|now rewrite Hh]].
  destruct (_ <=? mobileLarge bp); run_m; [|apply Hw; [done|now rewrite Hh]].
  rewrite Hh. run_m. rewrite Hbp. run_m.
  destruct (_ <=? mobile bp); run_m; [|apply Hw; [done|now rewrite Hh]].
  destruct (navLinksEl (page w)); run_m; apply Hw; simpl; rewrite ?Hh; done.
Qed.

Ltac unused_known :=
  idtac;
  lazymatch goal with
  | |- preserves _ (initMobileMenu _) => apply initMobileMenu_unused
  end.

Ltac unused_fin :=
  try first [ apply unused_add; [discriminate|assumption]
            | apply unused_remove; assumption
            | unfold ham_unused, hamburger_listeners in *; simpl in *; assumption ].

Lemma dispatch_unused ver e : preserves ham_unused (dispatch ver e).
Proof. destruct ver, e; frame_known unused_known unused_fin. Qed.

Lemma script_unused ver : preserves ham_unused (script ver).
Proof. destruct ver; frame_known unused_known unused_fin. Qed.

(** X15: in every world the page reaches, whatever the events and in
    both revisions, the hamburger button has at most one click listener,
    however often the resize handler runs [initMobileMenu] again; and a
    '.hamburger-menu' element that the document already contains never
    gets the listener. *)
Theorem hamburger_listener_once (ver : Version) (width : Z) (observer : bool)
    (p : Page) (d : CarouselDom) (es : list Event) :
  let w := run ver es (boot ver width observer p d) in
  (hamburger_listeners w ≤ 1)%nat
  ∧ (is_Some (hamburger p) → hamburger_listeners w = 0%nat).
Proof.
  intros w. split.
  - assert (Hinv : ham_inv w); [|apply Hinv].
    apply reachable_inv.
    + split; [done|]. unfold hamburger_listeners. simpl. lia.
    + apply script_ham.
    + apply dispatch_ham.
    + done.
  - intros Hp. assert (Hinv : ham_unused w); [|apply Hinv].
    apply reachable_inv.
    + split; [exact Hp|done].
    + apply script_unused.
    + apply dispatch_unused.
    + done.
Qed.

(** * Scroll animations *)

Definition hidden : SectionEl :=
  {| opacity := "0"; secTransform := "translateY(30px)";
     transition := "all 0.8s ease-out" |}.

Definition revealed (s : SectionEl) : SectionEl :=
  {| opacity := "1"; secTransform := "translateY(0)"; transition := transition s |}.

(** The loop over the sections, from index [i] on. *)
Lemma hide_loop {A} (l : list A) : ∀ i w pre rest,
  sections (page w) = (pre ++ rest)%list →
  length pre = i → length rest = length l →
  ∃ w',
    forEach_from i (λ (_ : A) i,
      modify (with_page (λ p,
        set_sections (alter (λ _, hidden) i (sections p)) p));;
      modify (with_page (λ p, set_observed (observed p ++ [i]) p))) l w
    = (w', Normal tt)
    ∧ sections (page w') = (pre ++ map (λ _, hidden) rest)%list
    ∧ observed (page w') = (observed (page w) ++ seq i (length l))%list
    ∧ browser w' = browser w.
Proof.
  induction l as [|x l IH]; intros i w pre rest Hs Hpre Hrest.
  - destruct rest; [|done]. exists w. simpl. now rewrite !app_nil_r in *.
  - destruct rest as [|s rest]; [done|]. simpl in Hrest.
    cbn [forEach_from]. run_m.
    match goal with |- context [forEach_from _ _ _ ?w1] =>
      destruct (IH (S i) w1 (pre ++ [hidden])%list rest) as (w' & Hrun & Hsec & Hobs & Hb)
    end.
    + simpl. rewrite Hs, <- Hpre.
      replace (length pre) with (length pre + 0)%nat by lia.
      rewrite alter_app_r. simpl. now rewrite <- app_assoc.
    + rewrite length_app. simpl. lia.
    + lia.
    + exists w'. rewrite Hrun. split; [done|]. split; [|split].
      * rewrite Hsec. now rewrite <- app_assoc.
      * rewrite Hobs. simpl. now rewrite <- app_assoc.
      * now rewrite Hb.
Qed.

(** X16: [initScrollAnimations] needs IntersectionObserver.  Where the
    browser has it, the function returns, every section is left with
    opacity 0, translateY(30px) and the 0.8 s transition, and the
    sections are observed once each, in order.  Where the browser lacks
    it, the function throws a ReferenceError and no section is touched. *)
Theorem scroll_animations_hide_sections (ver : Version) (w : World) :
  let r := initScrollAnimations ver w in
  if hasIntersectionObserver (browser w)
  then result r = Normal tt
       ∧ sections (page (after r)) = map (λ _, hidden) (sections (page w))
       ∧ observed (page (after r))
         = (observed (page w) ++ seq 0 (length (sections (page w))))%list
  else result r = Throw (ReferenceError "IntersectionObserver is not defined")
       ∧ page (after r) = page w.
Proof.
  intros r. unfold r, initScrollAnimations.
  set (w0 := after (log_v1 ver "✨ Initializing scroll animations..." w)).
  assert (Hlog : log_v1 ver "✨ Initializing scroll animations..." w = (w0, Normal tt)).
  { unfold w0. now destruct ver. }
  assert (Hp : page w0 = page w) by (unfold w0; now destruct ver).
  assert (Hio : hasIntersectionObserver (browser w0)
              = hasIntersectionObserver (browser w)) by (unfold w0; now destruct ver).
  rewrite (bind_normal _ _ _ _ _ Hlog).
  change ((get ?f ≫= ?k) w0) with (k (f w0) w0). cbv beta.
  rewrite Hio. destruct (hasIntersectionObserver (browser w)).
  - rewrite (bind_normal (mret tt) _ w0 w0 tt eq_refl).
    change ((get ?f ≫= ?k) w0) with (k (f w0) w0). cbv beta.
    destruct (hide_loop (sections (page w0)) 0%nat w0 [] (sections (page w0)))
      as (w' & Hrun & Hsec & Hobs & _); [done..|].
    unfold forEach. unfold hidden in Hrun. rewrite Hrun.
    simpl. rewrite Hsec, Hobs, Hp. done.
  - run_m. now rewrite Hp.
Qed.

Lemma revealed_idem s : revealed (revealed s) = revealed s.
Proof. reflexivity. Qed.

(** The observer callback on its entries, one section at a time. *)
Lemma onIntersection_from entries : ∀ k w i s,
  sections (page w) !! i = Some s →
  ∃ w',
    forEach_from k (λ (entry : nat * bool) (_ : nat),
      if entry.2 then
        modify (with_page (λ p,
          set_sections (alter (λ s, {| opacity := "1";
                                       secTransform := "translateY(0)";
                                       transition := transition s |}) entry.1
                              (sections p)) p))
      else mret tt) entries w
    = (w', Normal tt)
    ∧ sections (page w') !! i
      = Some (if bool_decide ((i, true) ∈ entries) then revealed s else s)
    ∧ observed (page w') = observed (page w)
    ∧ browser w' = browser w.
Proof.
  induction entries as [|[j b] entries IH]; intros k w i s Hs.
  - exists w. rewrite bool_decide_eq_false_2 by apply not_elem_of_nil. done.
  - cbn [forEach_from fst snd]. destruct b.
    + erewrite bind_normal by reflexivity.
      match goal with |- context [forEach_from _ _ _ ?w1] => set (w1' := w1) end.
      destruct (decide (j = i)) as [->|Hne].
      * destruct (IH (S k) w1' i (revealed s)) as (w' & Hrun & Hsec & Hobs & Hb).
        { unfold w1'. cbn. now rewrite list_lookup_alter_eq, Hs. }
        exists w'. rewrite Hrun. split; [done|]. split; [|done].
        rewrite Hsec, (bool_decide_eq_true_2 ((i, true) ∈ (i, true) :: entries))
          by left.
        now destruct (bool_decide _).
      * destruct (IH (S k) w1' i s) as (w' & Hrun & Hsec & Hobs & Hb).
        { unfold w1'. cbn. now rewrite list_lookup_alter_ne. }
        exists w'. rewrite Hrun. split; [done|]. split; [|done].
        rewrite Hsec.
        rewrite (bool_decide_ext ((i, true) ∈ (j, true) :: entries)
                                 ((i, true) ∈ entries)); [done|].
        rewrite elem_of_cons. split; [intros [Heq|Hin]; [congruence|done]|now right].
    + erewrite bind_normal by reflexivity.
      destruct (IH (S k) w i s Hs) as (w' & Hrun & Hsec & Hobs & Hb).
      exists w'. rewrite Hrun. split; [done|]. split; [|done].
      rewrite Hsec.
      rewrite (bool_decide_ext ((i, true) ∈ (j, false) :: entries)
                               ((i, true) ∈ entries)); [done|].
      rewrite elem_of_cons. split; [intros [Heq|Hin]; [congruence|done]|now right].
Qed.

(** X17: when the observer reports entries, a section is revealed
    (opacity 1, translateY(0), its transition kept) exactly when it is
    observed and one of the entries for it is intersecting; every other
    section keeps its style, so no section is hidden again. *)
Theorem intersection_reveals (ver : Version) (w : World)
    (entries : list (nat * bool)) (i : nat) (s : SectionEl) :
  sections (page w) !! i = Some s →
  sections (page (step ver (Intersection entries) w)) !! i
  = Some (if bool_decide ((i, true) ∈ entries ∧ i ∈ observed (page w))
          then revealed s else s).
Proof.
  intros Hs.
  destruct (onIntersection_from
              (filter (λ en, en.1 ∈ observed (page w)) entries) 0%nat w i s Hs)
    as (w' & Hrun & Hsec & _).
  assert (Hd : dispatch ver (Intersection entries) w = (w', Normal tt)).
  { simpl. change ((get ?f ≫= ?k) w) with (k (f w) w). cbv beta.
    unfold onIntersection, forEach. exact Hrun. }
  unfold step. rewrite Hd, Hsec.
  rewrite (bool_decide_ext _ ((i, true) ∈ entries ∧ i ∈ observed (page w))); [done|].
  rewrite list_elem_of_filter. simpl. tauto.
Qed.

Lemma intersection_reveals_witness :
  sections (page (step V1 (Intersection [(0%nat, true)]) demo)) !! 0%nat
  = Some (revealed hidden).
Proof.
  assert (Hs : sections (page demo) !! 0%nat = Some hidden)
    by (vm_compute; reflexivity).
  pose proof (intersection_reveals V1 demo [(0%nat, true)] 0%nat hidden Hs) as H.
  rewrite H. reflexivity.
Defined.

(** * A successful initialisation *)

(** [m] returns from every world where [P] holds, and maintains [P]. *)
Definition safe {A} (P : World → Prop) (m : M A) : Prop :=
  ∀ w, P w → returns (m w) ∧ P (after (m w)).

Section SafeRules.

Context {A B : Type} (P : World → Prop).

Lemma safe_ret (a : A) : safe P (mret a).
Proof. intros w Hw. split; [now eexists|done]. Qed.

Lemma safe_get (f : World → A) : safe P (get f).
Proof. intros w Hw. split; [now eexists|done]. Qed.

Lemma safe_modify (f : World → World) :
  (∀ w, P w → P (f w)) → safe P (modify f).
Proof. intros Hf w Hw. split; [now eexists|now apply Hf]. Qed.

Lemma safe_bind (m : M A) (k : A → M B) :
  safe P m → (∀ a, safe P (k a)) → safe P (m ≫= k).
Proof.
  intros Hm Hk w Hw. destruct (Hm w Hw) as [[a Ha] Hw'].
  unfold returns, after, mbind, M_bind in *.
  destruct (m w) as [w' c]. simpl in *. subst c. now apply Hk.
Qed.

Lemma safe_get_bind (f : World → A) (k : A → M B) :
  (∀ w0, P w0 → safe P (k (f w0))) → safe P (get f ≫= k).
Proof. intros Hk w Hw. now apply (Hk w Hw). Qed.

Lemma safe_returns (m : M A) :
  (∀ w, P w → returns (m w)) → preserves P m → safe P m.
Proof. intros Hr Hp w Hw. split; [now apply Hr|now apply Hp]. Qed.

End SafeRules.

Lemma safe_forEach_from {A} P (l : list A) (body : A → nat → M unit) i :
  (∀ x j, safe P (body x j)) → safe P (forEach_from i body l).
Proof.
  intros Hb. revert i. induction l as [|x l IH]; intros i; simpl.
  - apply safe_ret.
  - apply safe_bind; [apply Hb|]. intros _. apply IH.
Qed.

Lemma safe_forEach {A} P (l : list A) (body : A → nat → M unit) :
  (∀ x j, safe P (body x j)) → safe P (forEach l body).
Proof. apply safe_forEach_from. Qed.

Lemma safe_setTimer P k cb ms :
  (∀ w t n, P w → P (with_browser (set_timers t n) w)) →
  safe P (setTimer k cb ms).
Proof. intros H w Hw. split; [now eexists|now apply H]. Qed.

Lemma safe_clearTimer P h :
  (∀ w t n, P w → P (with_browser (set_timers t n) w)) →
  safe P (clearTimer h).
Proof.
  intros H w Hw. destruct h; (split; [now eexists|]); [now apply H|done].
Qed.

Ltac safe_step :=
  lazymatch goal with
  | |- safe _ (@mbind _ _ _ _ _ (get _)) => apply safe_get_bind; intros ? ?
  | |- safe _ (@mbind _ _ _ _ _ _) => apply safe_bind; [|intros ?]
  | |- safe _ (mret _) => apply safe_ret
  | |- safe _ (get _) => apply safe_get
  | |- safe _ (forEach _ _) => apply safe_forEach; intros ? ?
  | |- safe _ (setTimer _ _ _) => apply safe_setTimer; intros ? ? ? ?
  | |- safe _ (setInterval _ _) => apply safe_setTimer; intros ? ? ? ?
  | |- safe _ (setTimeout _ _) => apply safe_setTimer; intros ? ? ? ?
  | |- safe _ (clearTimer _) => apply safe_clearTimer; intros ? ? ? ?
  | |- safe _ (clearInterval _) => apply safe_clearTimer; intros ? ? ? ?
  | |- safe _ (clearTimeout _) => apply safe_clearTimer; intros ? ? ? ?
  | |- safe _ (modify _) => apply safe_modify; intros ? ?
  | |- safe _ (match ?x with _ => _ end) => destruct x eqn:?
  end.

Create HintDb initialisers.

#[local] Hint Unfold
  console_log addEventListener scrollToOrigin log_v1 startAutoPlay
  initSmoothScrolling initScrollAnimations initHoverAnimations
  initTestimonialSlider initLoadingAnimation
  initFormValidation initBackToTop initBusinessHours
  initNewsletterSignup : initialisers.

Ltac safe_unfold :=
  lazymatch goal with
  | |- safe _ _ => progress (autounfold with initialisers)
  end.

(** No error has been written to the console. *)
Definition clean (w : World) : Prop :=
  ∀ entry, entry ∈ console (browser w) → ∃ msg, entry = ConsoleLog msg.

Lemma clean_log msg w :
  clean w → clean (with_browser (add_console (ConsoleLog msg)) w).
Proof.
  intros Hw entry [Hin|Hin]%elem_of_app; [now apply Hw|].
  apply list_elem_of_singleton in Hin. now exists msg.
Qed.

(** What the initialisers rely on: IntersectionObserver, the elements of
    the carousel, the constants. *)
Definition ready (ver : Version) (w : World) : Prop :=
  hasIntersectionObserver (browser w) = true ∧ ok ver w ∧ clean w.

(** With the elements the mobile menu refers to as they are in [p]. *)
Definition ready_menu (ver : Version) (width : Z) (p : Page) (w : World) : Prop :=
  ready ver w
  ∧ CONFIG w = CONFIG_of ver
  ∧ innerWidth (browser w) = width
  ∧ hasNav (page w) = hasNav p
  ∧ navLinksEl (page w) = navLinksEl p
  ∧ hamburger (page w) = hamburger p.

Ltac ready_fin :=
  try (unfold ready_menu, ready, ok, constants_defined in *; simpl in *;
       intuition (first [assumption | apply clean_log; assumption ])).

Ltac absurd_branch :=
  lazymatch goal with
  | |- safe _ (throw _) =>
      exfalso; unfold ready_menu, ready, ok, elements_present in *;
      repeat match goal with H : _ ∧ _ |- _ => destruct H end;
      first [ congruence
            | repeat match goal with
                     | E : _ = None, H : context [present _] |- _ =>
                         rewrite E in H
                     end;
              simpl in *; rewrite ?andb_false_r in *; simpl in *; congruence ]
  end.

Lemma ready_menu_view ver width p w w' :
  browser w' = browser w → page w' = page w → CONFIG w' = CONFIG w →
  shape (cdom w') = shape (cdom w) →
  ready_menu ver width p w → ready_menu ver width p w'.
Proof.
  intros Hb Hp Hc Hs.
  unfold ready_menu, ready, ok, clean, constants_defined.
  now rewrite Hb, Hp, Hc, (elements_present_shape _ _ Hs).
Qed.

Lemma updateSlider_safe ver width p :
  safe (ready_menu ver width p) (updateSlider ver).
Proof.
  apply safe_returns.
  - intros w Hw. apply updateSlider_returns, Hw.
  - intros w. apply ready_menu_view.
    + apply updateSlider_keeps_browser.
    + apply updateSlider_keeps_page.
    + apply updateSlider_keeps_CONFIG.
    + apply (updateSlider_keeps_shape ver w).
Qed.

Ltac safe_known :=
  idtac;
  lazymatch goal with
  | |- safe _ (updateSlider _) => apply updateSlider_safe
  end.

Ltac safe_frame :=
  repeat first [ solve [safe_known] | absurd_branch | safe_step | safe_unfold ];
  ready_fin.

Lemma initSmoothScrolling_safe ver width p :
  safe (ready_menu ver width p) (initSmoothScrolling ver).
Proof. destruct ver; safe_frame. Qed.

Lemma initScrollAnimations_safe ver width p :
  safe (ready_menu ver width p) (initScrollAnimations ver).
Proof. destruct ver; safe_frame. Qed.

Lemma initHoverAnimations_safe ver width p :
  safe (ready_menu ver width p) (initHoverAnimations ver).
Proof. destruct ver; safe_frame. Qed.

Lemma initTestimonialSlider_safe ver width p :
  safe (ready_menu ver width p) (initTestimonialSlider ver).
Proof. destruct ver; safe_frame. Qed.

Lemma initLoadingAnimation_safe ver width p :
  safe (ready_menu ver width p) (initLoadingAnimation ver).
Proof. destruct ver; safe_frame. Qed.

(** The elements [initMobileMenu] needs at this width: below the
    mobileLarge breakpoint the nav element unless the hamburger button is
    already there, and up to the mobile breakpoint the list of links. *)
Definition menu_elements (ver : Version) (width : Z) (p : Page) : Prop :=
  ∀ bp, breakpoints (CONFIG_of ver) = Some bp →
    width ≤ mobileLarge bp →
    (hasNav p = true ∨ is_Some (hamburger p))
    ∧ (width ≤ mobile bp → is_Some (navLinksEl p)).

Lemma initMobileMenu_runs ver width p w :
  menu_elements ver width p →
  ready_menu ver width p w →
  returns (initMobileMenu ver w) ∧ ready ver (after (initMobileMenu ver w)).
Proof.
  intros Hm (Hr & Hc & Hw & Hnav & Hlinks & Hham).
  destruct ver.
  { split; [now eexists|]. destruct Hr as (Hio & Hok & Hcl).
    split; [exact Hio|]. split; [exact Hok|]. now apply clean_log. }
  assert (Hframe : ∀ w', browser w' = browser w ∨
                         browser w' = add_listener OnHamburgerClick (browser w) →
                         cdom w' = cdom w → CONFIG w' = CONFIG w → ready V2 w').
  { intros w' Hb Hd Hc'. unfold ready, ok, clean, constants_defined in *.
    rewrite Hd, Hc'. destruct Hb as [-> | ->]; exact Hr. }
  specialize (Hm _ eq_refl). rewrite <- Hw in Hm. simpl in Hm.
  unfold initMobileMenu, isMobile, read_breakpoint. run_m.
  rewrite Hc. run_m.
  destruct (Z.leb_spec (innerWidth (browser w)) 767) as [Hml|Hml]; run_m;
    [|split; [now eexists|now apply Hframe; auto]].
  destruct (Hm Hml) as [Hn Hl]. rewrite Hnav, Hlinks, Hham in *.
  destruct (hamburger p) as [ham|]; run_m.
  - rewrite Hc. run_m.
    destruct (Z.leb_spec (innerWidth (browser w)) 480) as [Hmo|Hmo]; run_m;
      [|split; [now eexists|now apply Hframe; auto]].
    destruct (Hl Hmo) as [el ->]. run_m.
    split; [now eexists|now apply Hframe; auto].
  - destruct Hn as [->|[? [=]]]. run_m. rewrite Hc. run_m.
    destruct (Z.leb_spec (innerWidth (browser w)) 480) as [Hmo|Hmo]; run_m;
      [|split; [now eexists|now apply Hframe; auto]].
    destruct (Hl Hmo) as [el ->]. run_m.
    split; [now eexists|now apply Hframe; auto].
Qed.

Lemma placeholders_safe ver :
  safe (ready ver) (initFormValidation ver)
  ∧ safe (ready ver) (initBackToTop ver)
  ∧ safe (ready ver) (initBusinessHours ver)
  ∧ safe (ready ver) (initNewsletterSignup ver).
Proof. split; [|split; [|split]]; destruct ver; safe_frame. Qed.

Lemma handleResponsiveLayout_safe : safe (ready V2) handleResponsiveLayout.
Proof.
  intros w (Hio & [He [bp Hbp]] & Hcl).
  destruct (handleResponsiveLayout_run w bp Hbp) as (dev & _ & Hrun).
  rewrite Hrun. split; [now eexists|].
  assert (Hframe : ∀ w', browser w' = browser w → CONFIG w' = CONFIG w →
            length (testimonialItems (cdom w')) = length (testimonialItems (cdom w)) →
            slider (cdom w') = slider (cdom w) → dots (cdom w') = dots (cdom w) →
            prevBtn (cdom w') = prevBtn (cdom w) →
            nextBtn (cdom w') = nextBtn (cdom w) → ready V2 w').
  { intros w' Hb Hc Hl Hs Hd Hp Hn.
    unfold ready, ok, clean, constants_defined, elements_present in *.
    rewrite Hb, Hc, Hl, Hs, Hd, Hp, Hn. eauto. }
  unfold after. cbn [fst].
  destruct (heroContent (page w)); [destruct (_ <=? _)|];
    apply Hframe; simpl; rewrite ?length_map; done.
Qed.

Lemma seq_runs {A B} (P Q R : World → Prop) (m : M A) (k : M B) :
  (∀ w, P w → returns (m w) ∧ Q (after (m w))) →
  (∀ w, Q w → returns (k w) ∧ R (after (k w))) →
  ∀ w, P w → returns ((m;; k) w) ∧ R (after ((m;; k) w)).
Proof.
  intros Hm Hk w Hw. destruct (Hm w Hw) as [[a Ha] Hw'].
  unfold returns, after, mbind, M_bind in *.
  destruct (m w) as [w' c]. simpl in *. subst c. now apply Hk.
Qed.

(** * The buttons follow the slide *)

(** The [disabled] flags are those [updateSlider] writes for the current
    slide: prev disabled on the first slide, next on the last. *)
Definition flags_track (w : World) : Prop :=
  prevBtn (cdom w) = Some {| disabled := slideIndex w =? 0 |}
  ∧ nextBtn (cdom w) = Some {| disabled := slideIndex w =? itemCount w - 1 |}.

(** With the slider and the constants [updateSlider] needs. *)
Definition tracking (ver : Version) (w : World) : Prop :=
  present (slider (cdom w)) = true ∧ constants_defined ver w ∧ flags_track w.

Lemma updateSlider_tracks ver w :
  present (slider (cdom w)) = true →
  present (prevBtn (cdom w)) = true →
  present (nextBtn (cdom w)) = true →
  constants_defined ver w →
  tracking ver (after (updateSlider ver w)).
Proof.
  intros Hs Hp Hn Hc.
  destruct (getSlideWidth_normal ver w Hc) as [sw Hsw].
  rewrite (updateSlider_spec ver w sw Hsw Hs Hp Hn).
  split; [done|]. split; [|done].
  destruct ver; [done|]. exact Hc.
Qed.

Lemma tracking_present ver w :
  tracking ver w →
  present (prevBtn (cdom w)) = true ∧ present (nextBtn (cdom w)) = true.
Proof. intros (_ & _ & -> & ->). done. Qed.

Lemma updateSlider_tracking ver : preserves (tracking ver) (updateSlider ver).
Proof.
  intros w Hw. destruct (tracking_present ver w Hw) as [Hp Hn].
  apply updateSlider_tracks; [apply Hw|exact Hp|exact Hn|apply Hw].
Qed.

(** After any write to the index, [updateSlider] brings the flags back. *)
Lemma reindex_tracking ver (f : Closure → Closure) :
  preserves (tracking ver) (modify (with_closure f);; updateSlider ver).
Proof.
  intros w Hw. destruct (tracking_present ver w Hw) as [Hp Hn].
  change ((modify ?g ≫= ?k) w) with (k tt (g w)). cbv beta.
  apply updateSlider_tracks; [apply Hw|exact Hp|exact Hn|].
  destruct Hw as (_ & Hc & _). destruct ver; [done|exact Hc].
Qed.

Lemma nextSlide_tracking ver : preserves (tracking ver) (nextSlide ver).
Proof.
  intros w Hw. unfold nextSlide.
  destruct ver; run_m; destruct (_ <? _); run_m;
    apply (reindex_tracking _ _ w Hw).
Qed.

Lemma prevSlide_tracking ver : preserves (tracking ver) (prevSlide ver).
Proof.
  intros w Hw. unfold prevSlide.
  destruct ver; run_m; destruct (_ >? _); run_m;
    apply (reindex_tracking _ _ w Hw).
Qed.

Lemma goToSlide_tracking ver k : preserves (tracking ver) (goToSlide ver k).
Proof. intros w Hw. unfold goToSlide. apply (reindex_tracking _ _ w Hw). Qed.

Ltac tracking_known :=
  idtac;
  lazymatch goal with
  | |- preserves _ (updateSlider _) => apply updateSlider_tracking
  | |- preserves _ (nextSlide _) => apply nextSlide_tracking
  | |- preserves _ (prevSlide _) => apply prevSlide_tracking
  | |- preserves _ (goToSlide _ _) => apply goToSlide_tracking
  end.

Ltac tracking_fin :=
  try (unfold tracking, flags_track, constants_defined, slideIndex, itemCount in *;
       simpl in *; rewrite ?length_map, ?length_imap; assumption).

(** Every event but [DOMContentLoaded], which runs the initialisers. *)
Lemma dispatch_tracking ver e w :
  loaded_once w → tracking ver w → tracking ver (after (dispatch ver e w)).
Proof.
  intros Hl Hw.
  assert (Hk : ∀ m : M unit, preserves (tracking ver) m →
            tracking ver (after (m w))) by (intros m Hm; now apply Hm).
  destruct e;
    try (apply Hk; destruct ver; frame_known tracking_known tracking_fin; fail).
  simpl. rewrite listening_detached; [done|].
  unfold attached. now apply bool_decide_eq_false_2.
Qed.

Lemma step_tracking ver e w :
  loaded_once w ∧ tracking ver w →
  loaded_once (step ver e w) ∧ tracking ver (step ver e w).
Proof.
  intros [Hl Hw].
  pose proof (dispatch_tracking ver e w Hl Hw) as Hw'.
  pose proof (dispatch_loaded_once ver e w Hl) as Hl'.
  destruct (step_unfold ver e w) as [->|[err ->]]; [done|].
  split; [now apply add_console_loaded_once|exact Hw'].
Qed.

Lemma run_tracking ver es : ∀ w,
  loaded_once w ∧ tracking ver w →
  loaded_once (run ver es w) ∧ tracking ver (run ver es w).
Proof.
  induction es as [|e es IH]; intros w Hw; [done|].
  simpl. apply IH. now apply step_tracking.
Qed.

(** * The carousel after a successful initialisation *)

(** The listeners [initTestimonialSlider] attaches, for [n] dots. *)
Definition carousel_listeners (n : nat) : list Listener :=
  ([OnPrevClick; OnNextClick] ++ map OnDotClick (seq 0 n)
   ++ [OnMouseEnter; OnMouseLeave; OnTouchStart; OnTouchMove; OnTouchEnd;
       OnSliderResize])%list.

(** The carousel is on its first slide and playing, its listeners are
    attached and the autoplay interval is the only timer. *)
Definition carousel_started (n : nat) (w : World) : Prop :=
  (∀ l, l ∈ carousel_listeners n → l ∈ listeners (browser w))
  ∧ isPlaying (closure w) = true
  ∧ currentSlide (closure w) = 0
  ∧ autoplay_clean w.

(** Started, with the buttons as [updateSlider] leaves them. *)
Definition carousel_running (ver : Version) (n : nat) (w : World) : Prop :=
  carousel_started n w ∧ tracking ver w.

Definition add_listeners (ls : list Listener) (b : Browser) : Browser :=
  foldl (λ b l, add_listener l b) b ls.

Lemma add_listeners_spec ls : ∀ b,
  listeners (add_listeners ls b) = (listeners b ++ ls)%list
  ∧ timers (add_listeners ls b) = timers b
  ∧ nextHandle (add_listeners ls b) = nextHandle b.
Proof.
  induction ls as [|l ls IH]; intros b; simpl.
  - now rewrite app_nil_r.
  - destruct (IH (add_listener l b)) as (-> & -> & ->). simpl.
    now rewrite <- app_assoc.
Qed.

Lemma forEach_dot_listeners {A} (l : list A) : ∀ i w,
  forEach_from i (λ _ index, addEventListener (OnDotClick index)) l w
  = (with_browser (add_listeners (map OnDotClick (seq i (length l)))) w, Normal tt).
Proof.
  induction l as [|x l IH]; intros i w.
  - destruct w. reflexivity.
  - cbn [forEach_from].
    rewrite (bind_normal _ _ w (with_browser (add_listener (OnDotClick i)) w) tt eq_refl).
    rewrite IH. reflexivity.
Qed.

(** The last steps of [initTestimonialSlider]: the first slide is shown
    and autoplay starts. *)
Lemma carousel_finish ver n wu :
  constants_defined ver wu →
  present (slider (cdom wu)) = true →
  present (prevBtn (cdom wu)) = true →
  present (nextBtn (cdom wu)) = true →
  isPlaying (closure wu) = true →
  currentSlide (closure wu) = 0 →
  (∀ l, l ∈ carousel_listeners n → l ∈ listeners (browser wu)) →
  timers (browser wu) = [] →
  ∃ w',
    (updateSlider ver;; startAutoPlay;;
     match ver with
     | V1 => console_log "✅ Testimonial slider initialized"
     | V2 => mret tt
     end) wu = (w', Normal tt)
    ∧ carousel_running ver n w'.
Proof.
  intros Hcu Hs Hp Hn Hpu Hiu Hlu Htu.
  destruct (getSlideWidth_normal ver wu Hcu) as [sw Hsw].
  rewrite (bind_normal _ _ _ _ _ (updateSlider_spec ver wu sw Hsw Hs Hp Hn)).
  rewrite (bind_normal _ _ _ _ _ (startAutoPlay_run _)).
  assert (Hfinal : ∀ wf : World,
            listeners (browser wf) = listeners (browser wu) →
            closure wf = set_autoPlayInterval (Some (nextHandle (browser wu)))
                           (closure wu) →
            timers (browser wf)
            = (timers (browser wu)
               ++ [(nextHandle (browser wu),
                    {| kind := Repeating; delay := testimonialInterval (CONFIG wu);
                       callback := AutoPlayTick |})])%list →
            CONFIG wf = CONFIG wu →
            cdom wf = cdom (shown (slideIndex wu) sw wu) →
            carousel_running ver n wf).
  { intros wf Hl Hcl Htm Hcf Hcd. split.
    - unfold carousel_started, autoplay_clean.
      rewrite Hl, Hcl, Htm, Hcf, Htu.
      split; [exact Hlu|]. split; [exact Hpu|]. split; [exact Hiu|].
      eexists. split; reflexivity.
    - unfold tracking, flags_track, constants_defined, slideIndex, itemCount.
      rewrite Hcd, Hcl, Hcf. split; [done|]. split; [|done].
      destruct ver; [done|exact Hcu]. }
  destruct ver; (eexists; split; [reflexivity|]); apply Hfinal; reflexivity.
Qed.

Lemma initTestimonialSlider_starts ver w :
  ok ver w → timers (browser w) = [] →
  ∃ w', initTestimonialSlider ver w = (w', Normal tt)
        ∧ carousel_running ver (length (dots (cdom w))) w'.
Proof.
  intros [He Hc] Ht.
  unfold elements_present in He.
  destruct (slider (cdom w)) as [sl|] eqn:Hs; [|done].
  destruct (dots (cdom w)) as [|dot ds] eqn:Hd; [done|].
  destruct (prevBtn (cdom w)) as [pb|] eqn:Hp; [|done].
  destruct (nextBtn (cdom w)) as [nb|] eqn:Hn; [|done].
  unfold initTestimonialSlider.
  set (w0 := after (match ver with
                    | V1 => console_log "💬 Initializing testimonial slider..."
                    | V2 => mret tt
                    end w)).
  assert (H0 : match ver with
               | V1 => console_log "💬 Initializing testimonial slider..."
               | V2 => mret tt
               end w = (w0, Normal tt)) by (unfold w0; now destruct ver).
  assert (Hcd : cdom w0 = cdom w) by (unfold w0; now destruct ver).
  assert (Hc0 : CONFIG w0 = CONFIG w) by (unfold w0; now destruct ver).
  assert (Ht0 : timers (browser w0) = []) by (unfold w0; now destruct ver).
  clearbody w0.
  rewrite (bind_normal _ _ _ _ _ H0).
  change ((get ?f ≫= ?k) w0) with (k (f w0) w0). cbv beta.
  rewrite Hcd, Hs, Hd, Hp, Hn.
  rewrite !bool_decide_eq_false_2 by done. cbn [orb].
  do 3 (erewrite bind_normal by reflexivity).
  unfold forEach. rewrite (bind_normal _ _ _ _ _ (forEach_dot_listeners _ _ _)).
  do 9 (erewrite bind_normal by reflexivity).
  apply carousel_finish.
  - destruct ver; [done|]. unfold constants_defined in *. simpl. now rewrite Hc0.
  - simpl. now rewrite Hcd, Hs.
  - simpl. now rewrite Hcd, Hp.
  - simpl. now rewrite Hcd, Hn.
  - reflexivity.
  - reflexivity.
  - cbn [browser listeners with_browser with_closure with_debounced add_listener].
    match goal with |- context [add_listeners ?L ?B] =>
      destruct (add_listeners_spec L B) as (Hls & _ & _) end.
    rewrite Hls. cbn [listeners add_listener]. intros l. unfold carousel_listeners.
    rewrite !elem_of_app, !elem_of_cons. tauto.
  - cbn [browser timers with_browser with_closure with_debounced add_listener].
    match goal with |- context [add_listeners ?L ?B] =>
      destruct (add_listeners_spec L B) as (_ & Hts & _) end.
    rewrite Hts. exact Ht0.
Qed.

Lemma started_add_listener n l w :
  carousel_started n w → carousel_started n (with_browser (add_listener l) w).
Proof.
  intros (Hl & Hp & Hi & Ha). split; [|done].
  intros l' Hl'. apply elem_of_app. left. now apply Hl.
Qed.

Ltac started_fin :=
  try first [ apply started_add_listener; assumption
            | unfold carousel_started, autoplay_clean in *; simpl in *; assumption ].

Ltac started_known := idtac; fail.

Lemma initLoadingAnimation_started ver n :
  preserves (carousel_started n) (initLoadingAnimation ver).
Proof. destruct ver; frame_known started_known started_fin. Qed.

Lemma initMobileMenu_started ver n :
  preserves (carousel_started n) (initMobileMenu ver).
Proof. destruct ver; frame_known started_known started_fin. Qed.

Lemma placeholders_started ver n :
  preserves (carousel_started n) (initFormValidation ver)
  ∧ preserves (carousel_started n) (initBackToTop ver)
  ∧ preserves (carousel_started n) (initBusinessHours ver)
  ∧ preserves (carousel_started n) (initNewsletterSignup ver).
Proof.
  split; [|split; [|split]]; destruct ver; frame_known started_known started_fin.
Qed.

Lemma handleResponsiveLayout_started n :
  preserves (carousel_started n) handleResponsiveLayout.
Proof. frame_known started_known started_fin. Qed.

Lemma later_initialisers_tracking ver :
  preserves (tracking ver) (initLoadingAnimation ver)
  ∧ preserves (tracking ver) (initMobileMenu ver)
  ∧ preserves (tracking ver) (initFormValidation ver)
  ∧ preserves (tracking ver) (initBackToTop ver)
  ∧ preserves (tracking ver) (initBusinessHours ver)
  ∧ preserves (tracking ver) (initNewsletterSignup ver)
  ∧ preserves (tracking ver) handleResponsiveLayout.
Proof.
  repeat apply conj; destruct ver; frame_known tracking_known tracking_fin.
Qed.

Lemma running_preserved {A} ver n (m : M A) :
  preserves (carousel_started n) m → preserves (tracking ver) m →
  preserves (carousel_running ver n) m.
Proof. intros Hs Ht w [Hw1 Hw2]. split; [now apply Hs|now apply Ht]. Qed.

(** Before the carousel is initialised: no timer yet, [n] dots. *)
Definition carousel_idle (n : nat) (w : World) : Prop :=
  timers (browser w) = [] ∧ length (dots (cdom w)) = n.

Ltac idle_fin := try (unfold carousel_idle in *; simpl in *; assumption).

Lemma first_initialisers_idle ver n :
  preserves (carousel_idle n) (initSmoothScrolling ver)
  ∧ preserves (carousel_idle n) (initScrollAnimations ver)
  ∧ preserves (carousel_idle n) (initHoverAnimations ver).
Proof.
  split; [|split]; destruct ver; frame_known started_known idle_fin.
Qed.

Lemma runs_and {A} (P Q I J : World → Prop) (m : M A) :
  (∀ w, P w → returns (m w) ∧ Q (after (m w))) →
  (∀ w, I w → J (after (m w))) →
  ∀ w, P w ∧ I w → returns (m w) ∧ Q (after (m w)) ∧ J (after (m w)).
Proof.
  intros Hm Hi w [Hp Hw]. destruct (Hm w Hp) as [Hr Hq].
  split; [exact Hr|]. split; [exact Hq|now apply Hi].
Qed.

Lemma initTestimonialSlider_runs ver width p n w :
  ready_menu ver width p w ∧ carousel_idle n w →
  returns (initTestimonialSlider ver w)
  ∧ ready_menu ver width p (after (initTestimonialSlider ver w))
  ∧ carousel_running ver n (after (initTestimonialSlider ver w)).
Proof.
  intros [Hrm [Ht Hn]].
  destruct (initTestimonialSlider_safe ver width p w Hrm) as [Hret Hrm'].
  split; [exact Hret|]. split; [exact Hrm'|].
  destruct (initTestimonialSlider_starts ver w) as (w' & Hrun & Hst);
    [apply Hrm|exact Ht|].
  rewrite Hrun, <- Hn. exact Hst.
Qed.

(** The initialisers leave the page ready and the carousel started. *)
Lemma initialisers_start ver width p n w :
  menu_elements ver width p →
  ready_menu ver width p w → carousel_idle n w →
  let m := initialisers ver
             (initSmoothScrolling ver) (initScrollAnimations ver)
             (initHoverAnimations ver) (initTestimonialSlider ver)
             (initLoadingAnimation ver) (initMobileMenu ver)
             (initFormValidation ver) (initBackToTop ver) (initBusinessHours ver)
             (initNewsletterSignup ver) handleResponsiveLayout in
  returns (m w) ∧ ready ver (after (m w))
  ∧ carousel_running ver n (after (m w)).
Proof.
  intros Hm Hw Hidle m.
  set (P0 := λ w, ready_menu ver width p w ∧ carousel_idle n w).
  set (P1 := λ w, ready_menu ver width p w ∧ carousel_running ver n w).
  set (P2 := λ w, ready ver w ∧ carousel_running ver n w).
  destruct (first_initialisers_idle ver n) as (Hi1 & Hi2 & Hi3).
  destruct (placeholders_safe ver) as (Hf & Hb & Hh & Hn).
  destruct (placeholders_started ver n) as (Hf' & Hb' & Hh' & Hn').
  destruct (later_initialisers_tracking ver)
    as (Htl & Htm & Htf & Htb & Hth & Htn & Htr).
  assert (Hmenu : ∀ w, P1 w →
            returns (initMobileMenu ver w) ∧ P2 (after (initMobileMenu ver w))).
  { apply (runs_and (ready_menu ver width p) (ready ver)
                    (carousel_running ver n) (carousel_running ver n)).
    - intros w1 Hw1. now apply (initMobileMenu_runs ver width p).
    - apply running_preserved; [apply initMobileMenu_started|exact Htm]. }
  assert (Hgoal : ∀ w, P0 w → returns (m w) ∧ P2 (after (m w)));
    [|now apply Hgoal].
  unfold m, initialisers.
  assert (Hfive : ∀ k : M unit,
            (∀ w, P1 w → returns (k w) ∧ P2 (after (k w))) →
            ∀ w, P0 w →
              returns ((initSmoothScrolling ver;; initScrollAnimations ver;;
                        initHoverAnimations ver;; initTestimonialSlider ver;;
                        initLoadingAnimation ver;; k) w)
              ∧ P2 (after ((initSmoothScrolling ver;; initScrollAnimations ver;;
                            initHoverAnimations ver;; initTestimonialSlider ver;;
                            initLoadingAnimation ver;; k) w))).
  { intros k Hk.
    apply (seq_runs P0 P0);
      [apply runs_and; [apply initSmoothScrolling_safe|exact Hi1]|].
    apply (seq_runs P0 P0);
      [apply runs_and; [apply initScrollAnimations_safe|exact Hi2]|].
    apply (seq_runs P0 P0);
      [apply runs_and; [apply initHoverAnimations_safe|exact Hi3]|].
    apply (seq_runs P0 P1); [apply initTestimonialSlider_runs|].
    apply (seq_runs P1 P1);
      [apply runs_and;
         [apply initLoadingAnimation_safe
         |apply running_preserved; [apply initLoadingAnimation_started|exact Htl]]|].
    exact Hk. }
  destruct ver.
  - apply Hfive.
    apply (seq_runs P1 P2); [exact Hmenu|].
    apply (seq_runs P2 P2);
      [apply runs_and; [exact Hf|now apply running_preserved]|].
    apply (seq_runs P2 P2);
      [apply runs_and; [exact Hb|now apply running_preserved]|].
    apply (seq_runs P2 P2);
      [apply runs_and; [exact Hh|now apply running_preserved]|].
    apply runs_and; [exact Hn|now apply running_preserved].
  - apply Hfive.
    apply (seq_runs P1 P2); [exact Hmenu|].
    apply runs_and; [apply handleResponsiveLayout_safe|].
    apply running_preserved; [apply handleResponsiveLayout_started|exact Htr].
Qed.

Lemma tryCatch_normal {A} (m : M A) (h : JsError → M A) w w' a :
  m w = (w', Normal a) → tryCatch m h w = (w', Normal a).
Proof. intros Hm. unfold tryCatch. now rewrite Hm. Qed.

(** The page after [DOMContentLoaded], when the initialisers find what
    they need: the world they leave, with the success message logged. *)
Lemma boot_started ver width p d :
  elements_present d = true →
  menu_elements ver width p →
  ∃ w3,
    boot ver width true p d
    = with_browser
        (add_console (ConsoleLog "✅ Coffee Website initialized successfully!")) w3
    ∧ ready ver w3
    ∧ carousel_running ver (length (dots d)) w3.
Proof.
  intros Hd Hm.
  set (W0 := after (script ver (page_load ver width true p d))).
  set (W1 := with_page (set_scroll ScrollOrigin)
               (with_browser (remove_listener OnDOMContentLoaded) W0)).
  set (W2 := with_browser
               (add_console (ConsoleLog "🚀 Initializing Coffee Website...")) W1).
  set (m := initialisers ver
             (initSmoothScrolling ver) (initScrollAnimations ver)
             (initHoverAnimations ver) (initTestimonialSlider ver)
             (initLoadingAnimation ver) (initMobileMenu ver)
             (initFormValidation ver) (initBackToTop ver) (initBusinessHours ver)
             (initNewsletterSignup ver) handleResponsiveLayout).
  assert (Hrm : ready_menu ver width p W2).
  { unfold ready_menu, ready, ok, constants_defined.
    repeat split; try (destruct ver; done).
    intros entry Hin. destruct ver; simpl in Hin;
      repeat (apply elem_of_cons in Hin as [->|Hin]; [eauto|]);
      now apply elem_of_nil in Hin. }
  assert (Hidle : carousel_idle (length (dots d)) W2) by (destruct ver; done).
  destruct (initialisers_start ver width p _ W2 Hm Hrm Hidle)
    as ([[] Hret] & Hready & Hstarted).
  fold m in Hret, Hready, Hstarted.
  assert (Hrun : m W2 = (after (m W2), Normal tt)).
  { unfold after. destruct (m W2) as [w3 c]. simpl in *. now subst c. }
  exists (after (m W2)). split; [|done].
  unfold boot. apply step_normal. fold W0.
  cbn [dispatch].
  rewrite listening_attached by (destruct ver; reflexivity).
  assert (H1 : (modify (with_browser (remove_listener OnDOMContentLoaded));;
                onDOMContentLoaded ver) W0
             = tryCatch
                 (m;; console_log "✅ Coffee Website initialized successfully!")
                 (λ error,
                    console_error "❌ Error initializing Coffee Website:" error)
                 W2) by reflexivity.
  rewrite H1. apply tryCatch_normal.
  now rewrite (bind_normal _ _ _ _ _ Hrun).
Qed.

(** X18: on a browser with IntersectionObserver, when the elements of
    the carousel exist (slider, a dot, both buttons, an item) and, in the
    second revision on a narrow window, those of the mobile menu, the
    page comes up without an error: the last line on the console is the
    success message of [initCoffeeWebsite], and the console holds only
    plain log lines, no error of the catch clause and no uncaught
    exception. *)
Theorem init_succeeds (ver : Version) (width : Z) (p : Page) (d : CarouselDom) :
  elements_present d = true →
  menu_elements ver width p →
  let w := boot ver width true p d in
  last (console (browser w))
  = Some (ConsoleLog "✅ Coffee Website initialized successfully!")
  ∧ ∀ entry, entry ∈ console (browser w) → ∃ msg, entry = ConsoleLog msg.
Proof.
  intros Hd Hm w.
  destruct (boot_started ver width p d Hd Hm) as (w3 & Hboot & (_ & _ & Hclean) & _).
  unfold w. rewrite Hboot. simpl. split.
  - apply last_snoc.
  - now apply clean_log.
Qed.

Lemma init_succeeds_witness :
  last (console (browser (boot V1 1024 true demo_page demo_dom)))
  = Some (ConsoleLog "✅ Coffee Website initialized successfully!").
Proof.
  assert (Hm : menu_elements V1 1024 demo_page) by (intros bp [=]).
  destruct (init_succeeds V1 1024 demo_page demo_dom eq_refl Hm) as [Hlast _].
  exact Hlast.
Defined.

(** X23: on a browser with IntersectionObserver, when the elements of
    the carousel exist and, in the second revision on a narrow window,
    those of the mobile menu, the page comes up with the carousel
    started: the listeners of both buttons, of every dot, of the mouse,
    of the touch events and of the resize are attached, the carousel is
    on slide 0 and playing, and the autoplay interval, with the period
    of the configuration, is the one timer of the page. *)
Theorem carousel_starts (ver : Version) (width : Z) (p : Page) (d : CarouselDom) :
  elements_present d = true →
  menu_elements ver width p →
  let w := boot ver width true p d in
  (∀ l, l ∈ [OnPrevClick; OnNextClick; OnMouseEnter; OnMouseLeave;
             OnTouchStart; OnTouchMove; OnTouchEnd; OnSliderResize] →
        attached l w = true)
  ∧ (∀ k, (k < length (dots d))%nat → attached (OnDotClick k) w = true)
  ∧ slideIndex w = 0
  ∧ isPlaying (closure w) = true
  ∧ ∃ h, autoPlayInterval (closure w) = Some h
         ∧ timers (browser w)
           = [(h, {| kind := Repeating;
                     delay := testimonialInterval (CONFIG w);
                     callback := AutoPlayTick |})].
Proof.
  intros Hd Hm w.
  destruct (boot_started ver width p d Hd Hm)
    as (w3 & Hboot & _ & (Hl & Hp & Hi & Ha) & _).
  unfold w, attached, slideIndex. rewrite Hboot. simpl.
  split; [|split; [|done]].
  - intros l Hin. apply bool_decide_eq_true, Hl. unfold carousel_listeners.
    revert Hin. rewrite !elem_of_app, !elem_of_cons. tauto.
  - intros k Hk. apply bool_decide_eq_true, Hl. unfold carousel_listeners.
    rewrite !elem_of_app. right. left.
    apply list_elem_of_fmap. exists k. split; [done|].
    apply elem_of_seq. lia.
Qed.

Lemma carousel_starts_witness :
  slideIndex (boot V1 1024 true demo_page demo_dom) = 0
  ∧ isPlaying (closure (boot V1 1024 true demo_page demo_dom)) = true.
Proof.
  assert (Hm : menu_elements V1 1024 demo_page) by (intros bp [=]).
  destruct (carousel_starts V1 1024 demo_page demo_dom eq_refl Hm)
    as (_ & _ & Hi & Hp & _).
  split; [exact Hi|exact Hp].
Defined.


(** X24: on a browser with IntersectionObserver, when the elements of
    the carousel exist and, in the second revision on a narrow window,
    those of the mobile menu, in every world the page reaches the prev
    button is disabled exactly on the first slide and the next button
    exactly on the last one: every listener and timer callback that
    moves the carousel ends in [updateSlider].  A click therefore never
    reaches [prevSlide] on the first slide nor [nextSlide] on the last. *)
Theorem buttons_follow_slide (ver : Version) (width : Z) (p : Page)
    (d : CarouselDom) (es : list Event) :
  elements_present d = true →
  menu_elements ver width p →
  let w := run ver es (boot ver width true p d) in
  prevBtn (cdom w) = Some {| disabled := slideIndex w =? 0 |}
  ∧ nextBtn (cdom w) = Some {| disabled := slideIndex w =? itemCount w - 1 |}.
Proof.
  intros Hd Hm w.
  destruct (boot_started ver width p d Hd Hm) as (w3 & Hboot & _ & _ & Ht).
  destruct (boot_debounce ver width true p d) as [Hl _].
  destruct (run_tracking ver es (boot ver width true p d)) as (_ & _ & _ & Hf).
  - split; [exact Hl|]. rewrite Hboot. exact Ht.
  - exact Hf.
Qed.

Lemma buttons_follow_slide_witness :
  nextBtn (cdom demo_last) = Some {| disabled := slideIndex demo_last =? 3 - 1 |}.
Proof.
  assert (Hm : menu_elements V1 1024 demo_page) by (intros bp [=]).
  destruct (buttons_follow_slide V1 1024 demo_page demo_dom [ClickNext; ClickNext]
              eq_refl Hm) as [_ Hnext].
  exact Hnext.
Defined.

(** * Smooth scrolling *)

(** X19: a click on a navigation link with the listener, whose href is
    [target].  When [querySelector] rejects the href as a selector, the
    SyntaxError escapes the listener and is reported as uncaught, and
    nothing else changes.  Otherwise the page scrolls to the target when
    an element matches it, and nothing changes when none does. *)
Theorem nav_click_scrolls (ver : Version) (w : World) (i : nat) (target : string) :
  attached (OnNavLinkClick i) w = true →
  navLinks (page w) !! i = Some target →
  step ver (NavLinkClick i) w
  = if bool_decide (target ∈ badSelectors (page w))
    then with_browser
           (add_console
              (Uncaught (SyntaxError ("'" +:+ target +:+ "' is not a valid selector"))))
           w
    else if bool_decide (target ∈ anchors (page w))
         then with_page (set_scroll (ScrollInto target)) w
         else w.
Proof.
  intros Hl Ht. unfold step. cbn [dispatch].
  rewrite (listening_attached _ _ _ Hl).
  unfold onNavLinkClick, query. run_m. rewrite Ht. run_m.
  destruct (bool_decide (target ∈ badSelectors (page w))); run_m; [done|].
  now destruct (bool_decide (target ∈ anchors (page w))).
Qed.

Lemma nav_click_scrolls_witness :
  step V1 (NavLinkClick 0) demo
  = with_page (set_scroll (ScrollInto "#about")) demo.
Proof.
  assert (Hl : attached (OnNavLinkClick 0) demo = true) by (vm_compute; reflexivity).
  assert (Ht : navLinks (page demo) !! 0%nat = Some "#about")
    by (vm_compute; reflexivity).
  pose proof (nav_click_scrolls V1 demo 0 "#about" Hl Ht) as H.
  assert (Hb : bool_decide ("#about" ∈ badSelectors (page demo)) = false)
    by (vm_compute; reflexivity).
  assert (Ha : bool_decide ("#about" ∈ anchors (page demo)) = true)
    by (vm_compute; reflexivity).
  rewrite Hb, Ha in H. exact H.
Defined.

(** * Opening hours *)

(** X20: for an hour of the day, 0 to 23, [formatTime] gives the
    12-hour clock: the hour (h + 11) mod 12 + 1, ':00', and AM before
    noon, PM from noon on. *)
Theorem formatTime_twelve_hour (h : Z) :
  0 ≤ h < 24 →
  formatTime h
  = pretty ((h + 11) mod 12 + 1) +:+ ":00 " +:+ (if h <? 12 then "AM" else "PM").
Proof.
  intros Hh. unfold formatTime.
  destruct (Z.eqb_spec h 0) as [->|H0]; [reflexivity|].
  destruct (Z.ltb_spec h 12) as [H12|H12].
  - replace ((h + 11) mod 12 + 1) with h; [reflexivity|].
    replace (h + 11) with (h - 1 + 1 * 12) by lia.
    rewrite Z_mod_plus_full, Z.mod_small; lia.
  - destruct (Z.eqb_spec h 12) as [->|Hne]; [reflexivity|].
    replace ((h + 11) mod 12 + 1) with (h - 12); [reflexivity|].
    replace (h + 11) with (h - 13 + 2 * 12) by lia.
    rewrite Z_mod_plus_full, Z.mod_small; lia.
Qed.

Lemma formatTime_twelve_hour_witness : formatTime 14 = "2:00 PM".
Proof.
  assert (H : 0 ≤ 14 < 24) by lia.
  rewrite (formatTime_twelve_hour 14 H). vm_compute. reflexivity.
Defined.

(** * The hamburger button *)

Lemma onHamburgerClick_run w el :
  navLinksEl (page w) = Some el →
  onHamburgerClick w
  = (with_page (set_navLinksEl (Some
       {| navClasses :=
            classList_toggle "mobile-active"
              (negb (classList_contains "mobile-active" (navClasses el)))
              (navClasses el);
          navStyle := navStyle el |})) w, Normal tt).
Proof. intros Hel. unfold onHamburgerClick. run_m. now rewrite Hel. Qed.

(** X21: a click on the hamburger button toggles 'mobile-active' on the
    list of links and leaves its other classes and its style alone, so a
    second click gives back the classes the list had; without the list
    the click throws a TypeError, reported as uncaught. *)
Theorem hamburger_click_toggles (ver : Version) (w : World) :
  attached OnHamburgerClick w = true →
  match navLinksEl (page w) with
  | Some el =>
      ∃ el1 el2,
        navLinksEl (page (step ver HamburgerClick w)) = Some el1
        ∧ navLinksEl (page (run ver [HamburgerClick; HamburgerClick] w)) = Some el2
        ∧ ("mobile-active" ∈ navClasses el1 ↔ "mobile-active" ∉ navClasses el)
        ∧ (∀ c, c ≠ "mobile-active" → c ∈ navClasses el1 ↔ c ∈ navClasses el)
        ∧ (∀ c, c ∈ navClasses el2 ↔ c ∈ navClasses el)
        ∧ navStyle el1 = navStyle el ∧ navStyle el2 = navStyle el
  | None =>
      step ver HamburgerClick w
      = with_browser (add_console (Uncaught (null_read "classList"))) w
  end.
Proof.
  intros Hl.
  assert (Hstep : ∀ w0 el0, attached OnHamburgerClick w0 = true →
            navLinksEl (page w0) = Some el0 →
            step ver HamburgerClick w0 = (onHamburgerClick w0).1).
  { intros w0 el0 Hl0 Hel0. apply step_normal. cbn [dispatch].
    rewrite (listening_attached _ _ _ Hl0).
    now rewrite (onHamburgerClick_run w0 el0 Hel0). }
  destruct (navLinksEl (page w)) as [el|] eqn:Hel.
  - set (el1 := {| navClasses :=
                     classList_toggle "mobile-active"
                       (negb (classList_contains "mobile-active" (navClasses el)))
                       (navClasses el);
                   navStyle := navStyle el |}).
    set (el2 := {| navClasses :=
                     classList_toggle "mobile-active"
                       (negb (classList_contains "mobile-active" (navClasses el1)))
                       (navClasses el1);
                   navStyle := navStyle el1 |}).
    assert (H1 : step ver HamburgerClick w
               = with_page (set_navLinksEl (Some el1)) w).
    { rewrite (Hstep w el Hl Hel). now rewrite (onHamburgerClick_run w el Hel). }
    assert (H2 : run ver [HamburgerClick; HamburgerClick] w
               = with_page (set_navLinksEl (Some el2))
                   (with_page (set_navLinksEl (Some el1)) w)).
    { simpl. rewrite H1.
      rewrite (Hstep (with_page (set_navLinksEl (Some el1)) w) el1 Hl eq_refl).
      now rewrite (onHamburgerClick_run
                     (with_page (set_navLinksEl (Some el1)) w) el1 eq_refl). }
    assert (Hc1 : navClasses el1
                = classList_toggle "mobile-active"
                    (negb (classList_contains "mobile-active" (navClasses el)))
                    (navClasses el)) by reflexivity.
    assert (Hc2 : navClasses el2
                = classList_toggle "mobile-active"
                    (negb (classList_contains "mobile-active" (navClasses el1)))
                    (navClasses el1)) by reflexivity.
    assert (Hs1 : navStyle el1 = navStyle el) by reflexivity.
    assert (Hs2 : navStyle el2 = navStyle el) by reflexivity.
    clearbody el1 el2.
    assert (Hin1 : "mobile-active" ∈ navClasses el1
                   ↔ "mobile-active" ∉ navClasses el).
    { rewrite Hc1, classList_toggle_token.
      unfold classList_contains. now rewrite negb_true_iff, bool_decide_eq_false. }
    exists el1, el2. rewrite H1, H2.
    split; [done|]. split; [done|]. split; [exact Hin1|]. split; [|split].
    + intros c Hc. rewrite Hc1. now apply classList_toggle_other.
    + intros c. destruct (decide (c = "mobile-active")) as [->|Hc].
      * rewrite Hc2, classList_toggle_token.
        unfold classList_contains. rewrite negb_true_iff, bool_decide_eq_false.
        rewrite Hin1. split; [apply dec_stable|tauto].
      * rewrite Hc2, Hc1. now rewrite !classList_toggle_other.
    + done.
  - unfold step. cbn [dispatch]. rewrite (listening_attached _ _ _ Hl).
    unfold onHamburgerClick. run_m. now rewrite Hel.
Qed.

(** The sample page in the second revision on a narrow window. *)
Definition demo_mobile : World :=
  Eval vm_compute in boot V2 400 true demo_page demo_dom.

Lemma hamburger_click_toggles_witness :
  ∃ el1,
    navLinksEl (page (step V2 HamburgerClick demo_mobile)) = Some el1
    ∧ "mobile-active" ∈ navClasses el1.
Proof.
  pose proof (hamburger_click_toggles V2 demo_mobile eq_refl) as H.
  assert (Hel : navLinksEl (page demo_mobile)
              = Some {| navClasses := ["nav-links"]; navStyle := navLinksCss |})
    by reflexivity.
  rewrite Hel in H. destruct H as (el1 & el2 & H1 & _ & Hin & _).
  exists el1. split; [exact H1|]. apply Hin. simpl.
  intros Hx. apply list_elem_of_singleton in Hx. discriminate.
Defined.

(** * A resize reaches the layout (second revision) *)

(** The handles the two debounce closures hold have been handed out. *)
Definition stored_fresh (w : World) : Prop :=
  (∀ h, sliderTimeout (debounced w) = Some h → (h < nextHandle (browser w))%nat)
  ∧ (∀ h, globalTimeout (debounced w) = Some h → (h < nextHandle (browser w))%nat).

Lemma stored_setTimer k cb ms : preserves stored_fresh (setTimer k cb ms).
Proof.
  intros w [Hs Hg]. split; intros h Hh; simpl in *.
  - specialize (Hs h Hh). lia.
  - specialize (Hg h Hh). lia.
Qed.

Lemma stored_clearTimer h : preserves stored_fresh (clearTimer h).
Proof. destruct h as [h|]; now intros w. Qed.

Lemma onSliderResize_stored : preserves stored_fresh onSliderResize.
Proof.
  intros w [Hs Hg]. unfold onSliderResize, clearTimeout, clearTimer, setTimeout, setTimer.
  run_m. destruct (sliderTimeout (debounced w)); run_m;
    (split; intros h Hh; simpl in *; [injection Hh as <-; lia|]);
    specialize (Hg h Hh); lia.
Qed.

Lemma onGlobalResize_stored : preserves stored_fresh onGlobalResize.
Proof.
  intros w [Hs Hg]. unfold onGlobalResize, clearTimeout, clearTimer, setTimeout, setTimer.
  run_m. destruct (globalTimeout (debounced w)); run_m;
    (split; intros h Hh; simpl in *; [|injection Hh as <-; lia]);
    specialize (Hs h Hh); lia.
Qed.

Ltac stored_known :=
  idtac;
  lazymatch goal with
  | |- preserves _ (setTimer _ _ _) => apply stored_setTimer
  | |- preserves _ (setInterval _ _) => apply stored_setTimer
  | |- preserves _ (setTimeout _ _) => apply stored_setTimer
  | |- preserves _ (clearTimer _) => apply stored_clearTimer
  | |- preserves _ (clearInterval _) => apply stored_clearTimer
  | |- preserves _ (clearTimeout _) => apply stored_clearTimer
  | |- preserves _ onSliderResize => apply onSliderResize_stored
  | |- preserves _ onGlobalResize => apply onGlobalResize_stored
  end.

Ltac stored_fin :=
  try (unfold stored_fresh in *; simpl in *;
       first [ assumption | intuition (first [discriminate | eauto]) ]).

Lemma dispatch_stored_fresh ver e : preserves stored_fresh (dispatch ver e).
Proof. destruct ver, e; frame_known stored_known stored_fin. Qed.

Lemma script_stored_fresh ver : preserves stored_fresh (script ver).
Proof. destruct ver; frame_known stored_known stored_fin. Qed.

Lemma reachable_stored_fresh ver width io p d es :
  stored_fresh (run ver es (boot ver width io p d)).
Proof.
  apply reachable_inv.
  - split; intros h [=].
  - apply script_stored_fresh.
  - apply dispatch_stored_fresh.
  - done.
Qed.

Lemma run_inv (P : World → Prop) ver :
  (∀ e, preserves P (dispatch ver e)) →
  (∀ entry w, P w → P (with_browser (add_console entry) w)) →
  ∀ es w, P w → P (run ver es w).
Proof.
  intros Hd Hc es. induction es as [|e es IH]; intros w Hw; [done|].
  simpl. apply IH. pose proof (Hd e w Hw) as Hw'.
  destruct (step_unfold ver e w) as [->|[err ->]]; [done|now apply Hc].
Qed.

(** The script-level resize listener stays attached. *)
Definition resize_listening (w : World) : Prop :=
  OnGlobalResize ∈ listeners (browser w).

Lemma listening_add l w :
  resize_listening w → resize_listening (with_browser (add_listener l) w).
Proof. intros Hw. apply elem_of_app. now left. Qed.

Lemma listening_remove w :
  resize_listening w →
  resize_listening (with_browser (remove_listener OnDOMContentLoaded) w).
Proof. intros Hw. now apply list_elem_of_filter. Qed.

Ltac listening_fin :=
  try first [ apply listening_add; assumption
            | apply listening_remove; assumption
            | unfold resize_listening in *; simpl in *; assumption ].

Ltac no_known := idtac; fail.

Lemma dispatch_resize_listening ver e :
  preserves resize_listening (dispatch ver e).
Proof. destruct ver, e; frame_known no_known listening_fin. Qed.

Lemma reachable_resize_listening ver width io p d es :
  attached OnGlobalResize (run ver es (boot ver width io p d)) = true.
Proof.
  apply bool_decide_eq_true. apply (run_inv resize_listening).
  - apply dispatch_resize_listening.
  - done.
  - unfold boot.
    assert (H0 : resize_listening (after (script ver (page_load ver width io p d)))).
    { destruct ver; unfold resize_listening; simpl;
        rewrite !elem_of_cons; auto. }
    pose proof (dispatch_resize_listening ver DOMContentLoaded _ H0) as H1.
    destruct (step_unfold ver DOMContentLoaded
                (after (script ver (page_load ver width io p d)))) as [->|[err ->]];
      done.
Qed.

Definition layout_timeout : Timer :=
  {| kind := OneShot; delay := 250; callback := GlobalResizeLater |}.

Lemma find_timer_fresh h ts ts' t :
  (∀ h' t', (h', t') ∈ ts → (h' < h)%nat) →
  find_timer h (ts ++ (h, t) :: ts') = Some t.
Proof.
  intros Hts. induction ts as [|[h' t'] ts IH]; simpl.
  - now rewrite bool_decide_eq_true_2.
  - rewrite bool_decide_eq_false_2.
    + apply IH. intros h'' t'' Hin. apply (Hts h'' t''). now right.
    + assert (h' < h)%nat by (apply (Hts h' t'); left). lia.
Qed.

(** [onGlobalResize] arms the timer under the next handle, after the
    timers that were there. *)
Lemma onGlobalResize_sched w :
  handles_fresh w →
  ∃ w' ts,
    onGlobalResize w = (w', Normal tt)
    ∧ timers (browser w') = (ts ++ [(nextHandle (browser w), layout_timeout)])%list
    ∧ (∀ h' t', (h', t') ∈ ts → (h' < nextHandle (browser w))%nat)
    ∧ nextHandle (browser w') = S (nextHandle (browser w))
    ∧ globalTimeout (debounced w') = Some (nextHandle (browser w))
    ∧ sliderTimeout (debounced w') = sliderTimeout (debounced w)
    ∧ innerWidth (browser w') = innerWidth (browser w)
    ∧ listeners (browser w') = listeners (browser w)
    ∧ CONFIG w' = CONFIG w ∧ cdom w' = cdom w.
Proof.
  intros Hf.
  unfold onGlobalResize, clearTimeout, clearTimer, setTimeout, setTimer. run_m.
  destruct (globalTimeout (debounced w)) as [g|]; run_m.
  - eexists _, (filter (λ t : nat * Timer, t.1 ≠ g) (timers (browser w))).
    split; [reflexivity|]. simpl. split; [reflexivity|]. split; [|done].
    intros h' t' [_ Hin]%list_elem_of_filter. now apply (Hf h' t').
  - eexists _, (timers (browser w)).
    split; [reflexivity|]. simpl. split; [reflexivity|]. split; [|done].
    exact Hf.
Qed.

(** The carousel's listener leaves a timer alone whose handle it does
    not hold. *)
Lemma onSliderResize_sched w ts0 ts1 h t :
  timers (browser w) = (ts0 ++ (h, t) :: ts1)%list →
  (∀ s, sliderTimeout (debounced w) = Some s → s ≠ h) →
  ∃ w' ts0' ts1',
    onSliderResize w = (w', Normal tt)
    ∧ timers (browser w') = (ts0' ++ (h, t) :: ts1')%list
    ∧ (∀ x, x ∈ ts0' → x ∈ ts0)
    ∧ globalTimeout (debounced w') = globalTimeout (debounced w)
    ∧ innerWidth (browser w') = innerWidth (browser w)
    ∧ CONFIG w' = CONFIG w ∧ cdom w' = cdom w.
Proof.
  intros Ht Hs.
  unfold onSliderResize, clearTimeout, clearTimer, setTimeout, setTimer. run_m.
  destruct (sliderTimeout (debounced w)) as [s|]; run_m.
  - eexists _, (filter (λ t : nat * Timer, t.1 ≠ s) ts0),
      (filter (λ t : nat * Timer, t.1 ≠ s) ts1 ++ [_])%list.
    split; [reflexivity|]. simpl. split; [|split; [|done]].
    + rewrite Ht, filter_app, filter_cons, decide_True, <- app_assoc.
      * reflexivity.
      * simpl. intros Heq. exact (Hs s eq_refl (eq_sym Heq)).
    + intros x [_ Hx]%list_elem_of_filter. exact Hx.
  - eexists _, ts0, (ts1 ++ [_])%list.
    split; [reflexivity|]. simpl. split; [|done].
    now rewrite Ht, <- app_assoc.
Qed.

(** A resize arms the debounce timer of the script-level listener under
    the next handle, and the carousel's listener does not cancel it. *)
Lemma resize_schedules ver (width' : Z) (newWidth : nat → Z) w :
  handles_fresh w → stored_fresh w → attached OnGlobalResize w = true →
  let w1 := step ver (WindowResize width' newWidth) w in
  find_timer (nextHandle (browser w)) (timers (browser w1)) = Some layout_timeout
  ∧ globalTimeout (debounced w1) = Some (nextHandle (browser w))
  ∧ innerWidth (browser w1) = width'
  ∧ CONFIG w1 = CONFIG w
  ∧ length (testimonialItems (cdom w1)) = length (testimonialItems (cdom w)).
Proof.
  intros Hf [Hs Hg] Hl w1.
  set (wr := with_cdom (λ d,
                set_items (imap (λ k item,
                             {| offsetWidth := newWidth k; minWidth := minWidth item;
                                flex := flex item |})
                             (testimonialItems d)) d)
               (with_browser (set_innerWidth width') w)).
  assert (Hr : relayout width' newWidth w = (wr, Normal tt)) by reflexivity.
  destruct (onGlobalResize_sched wr Hf)
    as (wg & ts & Hrun & Hts & Hold & Hnext & Hglobal & Hslider & Hw & Hls & Hc & Hd).
  assert (Hgl : listening OnGlobalResize onGlobalResize wr = (wg, Normal tt)).
  { now rewrite listening_attached. }
  assert (Hd1 : dispatch ver (WindowResize width' newWidth) w
              = listening OnSliderResize onSliderResize wg).
  { cbn [dispatch]. rewrite (bind_normal _ _ _ _ _ Hr).
    now rewrite (bind_normal _ _ _ _ _ Hgl). }
  assert (Hlen : length (testimonialItems (cdom wg))
               = length (testimonialItems (cdom w))).
  { rewrite Hd. unfold wr. simpl. apply length_imap. }
  destruct (attached OnSliderResize wg) eqn:Hat.
  - destruct (onSliderResize_sched wg ts [] (nextHandle (browser w)) layout_timeout)
      as (ws & ts0 & ts1 & Hruns & Htss & Hsub & Hglobal' & Hw' & Hc' & Hd');
      [exact Hts| |].
    { intros s Hsl. rewrite Hslider in Hsl. specialize (Hs s Hsl).
      simpl in Hs. lia. }
    assert (Hw1 : w1 = ws).
    { apply step_normal. rewrite Hd1, listening_attached by exact Hat. exact Hruns. }
    rewrite Hw1, Htss, Hglobal', Hglobal, Hw', Hw, Hc', Hc, Hd', Hlen.
    split; [|done].
    apply find_timer_fresh. intros h' t' Hin. apply (Hold h' t'). now apply Hsub.
  - assert (Hw1 : w1 = wg).
    { apply step_normal. now rewrite Hd1, listening_detached. }
    rewrite Hw1, Hts, Hglobal, Hw, Hc, Hlen. split; [|done].
    now apply find_timer_fresh.
Qed.

(** What the resize handler of the second revision does after
    [handleResponsiveLayout]. *)
Definition menu_if_mobile : M unit :=
  currentDevice ← getDeviceType;
  if String.eqb currentDevice "mobile" || String.eqb currentDevice "mobile-large"
  then initMobileMenu V2
  else mret tt.

Lemma menu_if_mobile_keeps :
  keeps (λ w, (cdom w, innerWidth (browser w), CONFIG w)) menu_if_mobile.
Proof. unfold menu_if_mobile. keeps_frame. Qed.

Lemma layout_fires w1 h bp :
  find_timer h (timers (browser w1)) = Some layout_timeout →
  globalTimeout (debounced w1) = Some h →
  breakpoints (CONFIG w1) = Some bp →
  let w2 := step V2 (TimerFire h) w1 in
  ∃ dev,
    getDeviceType w2 = (w2, Normal dev)
    ∧ testimonialItems (cdom w2) = map (sized dev) (testimonialItems (cdom w1))
    ∧ innerWidth (browser w2) = innerWidth (browser w1).
Proof.
  intros Hfind Hgt Hbp w2.
  set (wc := with_browser
               (λ b, set_timers (filter (λ t, t.1 ≠ h)
                                   (filter (λ t, t.1 ≠ h) (timers b)))
                                (nextHandle b) b) w1).
  assert (Hd : dispatch V2 (TimerFire h) w1
             = (handleResponsiveLayout;; menu_if_mobile) wc).
  { cbn [dispatch]. unfold onTimer.
    change ((get ?f ≫= ?k) w1) with (k (f w1) w1). cbv beta. rewrite Hfind.
    cbn [kind layout_timeout callback runCallback].
    unfold globalResizeLater, clearTimeout, clearTimer. run_m. rewrite Hgt.
    reflexivity. }
  assert (Hbpc : breakpoints (CONFIG wc) = Some bp) by exact Hbp.
  destruct (handleResponsiveLayout_run wc bp Hbpc) as (dev & Hdev & Hrun).
  set (wl := (handleResponsiveLayout wc).1).
  assert (Hwl : handleResponsiveLayout wc = (wl, Normal tt)).
  { unfold wl. now rewrite Hrun. }
  assert (Hitems : testimonialItems (cdom wl)
                 = map (sized dev) (testimonialItems (cdom w1))
                 ∧ innerWidth (browser wl) = innerWidth (browser w1)
                 ∧ CONFIG wl = CONFIG w1).
  { unfold wl. rewrite Hrun. cbn [fst].
    destruct (heroContent (page wc)); [destruct (_ <=? _)|]; done. }
  destruct Hitems as (Hitems & Hwidth & Hconf).
  assert (Hafter : after (dispatch V2 (TimerFire h) w1) = after (menu_if_mobile wl)).
  { rewrite Hd. now rewrite (bind_normal _ _ _ _ _ Hwl). }
  pose proof (menu_if_mobile_keeps wl) as Hkeep. rewrite <- Hafter in Hkeep.
  injection Hkeep as Hk1 Hk2 Hk3.
  assert (Hc2 : cdom w2 = cdom wl) by (unfold w2; now rewrite step_cdom).
  assert (Hb2 : innerWidth (browser w2) = innerWidth (browser wl)
              ∧ CONFIG w2 = CONFIG wl).
  { unfold w2.
    destruct (step_unfold V2 (TimerFire h) w1) as [->|[err ->]]; simpl; done. }
  destruct Hb2 as [Hw2 HC2].
  assert (Hbp2 : breakpoints (CONFIG w2) = Some bp) by now rewrite HC2, Hconf.
  destruct (getDeviceType_run w2 bp Hbp2) as (dev2 & Hdev2 & _).
  assert (dev2 = dev) as ->.
  { destruct (getDeviceType_same wc w2 bp dev Hbpc Hbp2) as [_ H]; [|done|].
    - now rewrite Hw2, Hwidth.
    - rewrite Hdev2 in H. now injection H. }
  exists dev. rewrite Hc2, Hitems, Hw2, Hwidth. done.
Qed.

(** X22: in the second revision, in every world the page reaches, a
    resize of the window followed by the firing of the timeout it armed
    (250 ms later) lays the testimonial items out for the new width:
    each item has the size of the device class of that width as
    min-width and flex basis.  The number of items is unchanged. *)
Theorem resize_applies_layout (width : Z) (observer : bool) (p : Page)
    (d : CarouselDom) (es : list Event) (width' : Z) (newWidth : nat → Z) :
  let w := run V2 es (boot V2 width observer p d) in
  let w2 := run V2 [WindowResize width' newWidth;
                    TimerFire (nextHandle (browser w))] w in
  innerWidth (browser w2) = width'
  ∧ length (testimonialItems (cdom w2)) = length (testimonialItems (cdom w))
  ∧ ∃ dev,
      getDeviceType w2 = (w2, Normal dev)
      ∧ ∀ item, item ∈ testimonialItems (cdom w2) →
          minWidth item = itemSize dev ∧ flex item = "0 0 " +:+ itemSize dev.
Proof.
  intros w w2.
  assert (Hf : handles_fresh w) by apply reachable_handles_fresh.
  assert (Hs : stored_fresh w) by apply reachable_stored_fresh.
  assert (Hl : attached OnGlobalResize w = true) by apply reachable_resize_listening.
  assert (Hc : CONFIG w = CONFIG_of V2).
  { unfold w. rewrite (run_keeps CONFIG V2 (step_keeps_CONFIG V2)).
    apply boot_CONFIG. }
  destruct (resize_schedules V2 width' newWidth w Hf Hs Hl)
    as (Hfind & Hgt & Hw1 & Hc1 & Hlen1).
  set (w1 := step V2 (WindowResize width' newWidth) w) in *.
  assert (Hbp : breakpoints (CONFIG w1)
              = Some {| mobile := 480; mobileLarge := 767; tablet := 1023;
                        desktop := 1199; large := 1200 |}).
  { now rewrite Hc1, Hc. }
  destruct (layout_fires w1 (nextHandle (browser w)) _ Hfind Hgt Hbp)
    as (dev & Hdev & Hitems & Hw2).
  change (step V2 (TimerFire (nextHandle (browser w))) w1) with w2 in *.
  split; [now rewrite Hw2|]. split.
  - now rewrite Hitems, length_map.
  - exists dev. split; [exact Hdev|].
    intros item Hin. rewrite Hitems in Hin.
    apply list_elem_of_fmap in Hin as (item0 & -> & _). done.
Qed.
